(** * Localization manager: a shallow embedding of
    [scripts/localization_manager.py] and the properties of its catalog
    store, classifier, specifier codec, analyzer and translation pipeline. *)

From Stdlib Require Import NArith Lia Ascii String DecimalNat.
From stdpp Require Import strings list gmap.

Set Default Proof Using "Type".

(** ** Text

    A Python [str] is a sequence of Unicode code points. *)

Abbreviation text := (list N).

(** An ASCII literal of the source, as code points. *)
Definition str (s : string) : text :=
  map N_of_ascii (list_ascii_of_string s).

(** [f"{i}"] for a non-negative integer: its decimal digits. *)
Fixpoint uint_codes (d : Decimal.uint) : text :=
  match d with
  | Decimal.Nil => []
  | Decimal.D0 d => 48%N :: uint_codes d
  | Decimal.D1 d => 49%N :: uint_codes d
  | Decimal.D2 d => 50%N :: uint_codes d
  | Decimal.D3 d => 51%N :: uint_codes d
  | Decimal.D4 d => 52%N :: uint_codes d
  | Decimal.D5 d => 53%N :: uint_codes d
  | Decimal.D6 d => 54%N :: uint_codes d
  | Decimal.D7 d => 55%N :: uint_codes d
  | Decimal.D8 d => 56%N :: uint_codes d
  | Decimal.D9 d => 57%N :: uint_codes d
  end.

Definition format_int (i : nat) : text := uint_codes (Nat.to_uint i).

(** ** Character classes of the interpreter

    [str.isspace], [str.strip] and the [\s] of [re] share one table
    (Py_UNICODE_ISSPACE); [\d] is the Unicode category Nd
    (Py_UNICODE_ISDECIMAL).  Both tables are those of Unicode 14.0
    (CPython 3.11). *)

Definition whitespace_table : list N :=
  [ 0x9; 0xa; 0xb; 0xc; 0xd; 0x1c; 0x1d; 0x1e; 0x1f; 0x20; 0x85; 0xa0;
    0x1680; 0x2000; 0x2001; 0x2002; 0x2003; 0x2004; 0x2005; 0x2006;
    0x2007; 0x2008; 0x2009; 0x200a; 0x2028; 0x2029; 0x202f; 0x205f;
    0x3000 ]%N.

Definition isspace (c : N) : bool := existsb (N.eqb c) whitespace_table.

(** The code point of digit zero of every decimal digit block; each block
    is ten consecutive code points. *)
Definition decimal_zeros : list N :=
  [ 0x30; 0x660; 0x6f0; 0x7c0; 0x966; 0x9e6; 0xa66; 0xae6; 0xb66; 0xbe6;
    0xc66; 0xce6; 0xd66; 0xde6; 0xe50; 0xed0; 0xf20; 0x1040; 0x1090;
    0x17e0; 0x1810; 0x1946; 0x19d0; 0x1a80; 0x1a90; 0x1b50; 0x1bb0;
    0x1c40; 0x1c50; 0xa620; 0xa8d0; 0xa900; 0xa9d0; 0xa9f0; 0xaa50;
    0xabf0; 0xff10; 0x104a0; 0x10d30; 0x11066; 0x110f0; 0x11136;
    0x111d0; 0x112f0; 0x11450; 0x114d0; 0x11650; 0x116c0; 0x11730;
    0x118e0; 0x11950; 0x11c50; 0x11d50; 0x11da0; 0x16a60; 0x16ac0;
    0x16b50; 0x1d7ce; 0x1d7d8; 0x1d7e2; 0x1d7ec; 0x1d7f6; 0x1e140;
    0x1e2f0; 0x1e950; 0x1fbf0 ]%N.

Definition isdecimal (c : N) : bool :=
  existsb (fun z => (z <=? c)%N && (c <? z + 10)%N) decimal_zeros.

(** [not key.strip()]: the key is empty or all whitespace. *)
Definition is_blank (key : text) : bool := forallb isspace key.

(** ** Regular expressions

    The fragment of [re] syntax the source uses.  Every quantifier of the
    source's patterns but [?] stands on a one-character item (a literal,
    an escape, [.] or a bracket class), so repetition is kept on
    character sets. *)

Inductive cset_item :=
| CChar (c : N)          (* a literal or escaped character *)
| CRange (lo hi : N)     (* [lo-hi] *)
| CDigit                 (* \d *)
| CSpace                 (* \s *)
| CDot.                  (* . : anything but a newline *)

Definition item_has (c : N) (it : cset_item) : bool :=
  match it with
  | CChar c' => (c =? c')%N
  | CRange lo hi => (lo <=? c)%N && (c <=? hi)%N
  | CDigit => isdecimal c
  | CSpace => isspace c
  | CDot => negb (c =? 10)%N
  end.

Definition in_cset (cs : list cset_item) (c : N) : bool :=
  existsb (item_has c) cs.

Inductive regex :=
| RBol                                              (* ^ *)
| REol                                              (* $ *)
| RSet (cs : list cset_item)                        (* one character *)
| RRep (cs : list cset_item) (lo : nat) (hi : option nat)
                                                    (* greedy *, +, {n}, {m,n} *)
| ROpt (r : regex)                                  (* greedy ? *)
| RSeq (r1 r2 : regex)
| RAlt (r1 r2 : regex)
| REps.

Definition or_else {A} (x y : option A) : option A :=
  match x with Some a => Some a | None => y end.

Definition may_repeat (hi : option nat) : bool :=
  match hi with Some 0 => false | _ => true end.

Section Matcher.
Context {A : Type}.

(** Greedy repetition with backtracking: the longest run first, then
    shorter ones, never below [lo] or above [hi]. *)
Fixpoint rep_match (cs : list cset_item) (lo : nat) (hi : option nat)
    (i : nat) (s : text) (k : nat -> text -> option A) : option A :=
  let stop := match lo with 0 => k i s | S _ => None end in
  match s with
  | c :: s' =>
      if in_cset cs c && may_repeat hi
      then or_else (rep_match cs (pred lo) (pred <$> hi) (S i) s' k) stop
      else stop
  | [] => stop
  end.

(** The backtracking matcher: [i] is the position in the whole string,
    [s] the input from there on, [k] what must match afterwards.
    Alternatives are tried in the order [re] tries them. *)
Fixpoint re_run (r : regex) (i : nat) (s : text)
    (k : nat -> text -> option A) : option A :=
  match r with
  | RBol => match i with 0 => k i s | S _ => None end
  | REol => match s with
            | [] => k i s
            | [c] => if (c =? 10)%N then k i s else None
            | _ => None
            end
  | RSet cs => match s with
               | c :: s' => if in_cset cs c then k (S i) s' else None
               | [] => None
               end
  | RRep cs lo hi => rep_match cs lo hi i s k
  | ROpt r1 => or_else (re_run r1 i s k) (k i s)
  | RSeq r1 r2 => re_run r1 i s (fun i' s' => re_run r2 i' s' k)
  | RAlt r1 r2 => or_else (re_run r1 i s k) (re_run r2 i s k)
  | REps => k i s
  end.

End Matcher.

(** The end position of the match [re] finds at position [i]. *)
Definition match_at (r : regex) (i : nat) (s : text) : option nat :=
  re_run r i s (fun j _ => Some j).

(** [re.match(pattern, s)] as a truth value. *)
Definition re_match (r : regex) (s : text) : bool :=
  bool_decide (is_Some (match_at r 0 s)).

(** [re.search(pattern, s)] as a truth value: a match at some position. *)
Fixpoint search_from (r : regex) (i : nat) (s : text) : bool :=
  match match_at r i s with
  | Some _ => true
  | None => match s with
            | [] => false
            | _ :: s' => search_from r (S i) s'
            end
  end.

Definition re_search (r : regex) (s : text) : bool := search_from r 0 s.

(** [re.findall(pattern, s)] for a pattern that is one group: the
    matched substrings, left to right, not overlapping.  [skip] counts
    the characters of the last match still to be passed.  A match of the
    empty string is recorded and the scan moves on by one character. *)
Fixpoint findall_from (r : regex) (i : nat) (s : text) (skip : nat)
    : list text :=
  match skip with
  | S n => match s with
           | [] => []
           | _ :: s' => findall_from r (S i) s' n
           end
  | 0 =>
      match match_at r i s with
      | Some j =>
          take (j - i) s ::
          match s with
          | [] => []
          | _ :: s' => findall_from r (S i) s' (j - i - 1)
          end
      | None =>
          match s with
          | [] => []
          | _ :: s' => findall_from r (S i) s' 0
          end
      end
  end.

Definition re_findall (r : regex) (s : text) : list text :=
  findall_from r 0 s 0.

(** Pattern syntax helpers. *)
Definition chr (s : string) : list cset_item := CChar <$> str s.
Definition lit (s : string) : regex :=
  foldr (fun c r => RSeq (RSet [CChar c]) r) REps (str s).
Definition rseq (rs : list regex) : regex := foldr RSeq REps rs.
Definition star cs := RRep cs 0 None.
Definition plus cs := RRep cs 1 None.

(** ** Class constants of [LocalizationManager] *)

Definition TARGET_LANGUAGES : list text := [str "it"; str "fr"; str "de"; str "es"].
Definition SOURCE_LANGUAGE : text := str "en".
Definition BATCH_SIZE : nat := 50.

(** The six characters above ASCII that the patterns and the markers name. *)
Definition BULLET : N := 0x2022%N.
Definition RIGHT_ARROW : N := 0x2192%N.
Definition LEFT_ARROW : N := 0x2190%N.
Definition COPYRIGHT : N := 0xa9%N.
Definition REGISTERED : N := 0xae%N.
Definition TRADEMARK : N := 0x2122%N.

(** [[@lld]]: a bracket class, that is the characters [@], [l] and [d]. *)
Definition at_l_l_d : list cset_item := chr "@lld".

Definition COPY_PATTERNS : list regex :=
  [ (* ^[\s]*$ *)
    rseq [RBol; star [CSpace]; REol];
    (* ^[%@\d\.\-\+\/\#\•\→\←]+$ *)
    rseq [RBol;
          plus (chr "%@" ++ [CDigit] ++ chr ".-+/#" ++
                [CChar BULLET; CChar RIGHT_ARROW; CChar LEFT_ARROW]);
          REol];
    (* ^%[@lld]+$ *)
    rseq [RBol; lit "%"; plus at_l_l_d; REol];
    (* ^%\d*\$?[@lld]+$ *)
    rseq [RBol; lit "%"; star [CDigit]; ROpt (lit "$"); plus at_l_l_d; REol];
    (* ^[\(\)\[\]\{\}]+$ *)
    rseq [RBol; plus (chr "()[]{}"); REol];
    (* ^\d+(\.\d+)?$ *)
    rseq [RBol; plus [CDigit]; ROpt (rseq [lit "."; plus [CDigit]]); REol];
    (* ^[©®™]+.*\d{4} *)
    rseq [RBol; plus [CChar COPYRIGHT; CChar REGISTERED; CChar TRADEMARK];
          star [CDot]; RRep [CDigit] 4 (Some 4)];
    (* ^https?:// *)
    rseq [RBol; lit "http"; ROpt (lit "s"); lit "://"];
    (* ^[A-Z]{2,3}$ *)
    rseq [RBol; RRep [CRange 65 90] 2 (Some 3); REol];
    (* ^\d+(\.\d+)?%$ *)
    rseq [RBol; plus [CDigit]; ROpt (rseq [lit "."; plus [CDigit]]);
          lit "%"; REol] ].

Definition FORMAT_SPECIFIERS : list regex :=
  [ (* %@ *)          lit "%@";
    (* %\d*\$?@ *)    rseq [lit "%"; star [CDigit]; ROpt (lit "$"); lit "@"];
    (* %lld *)        lit "%lld";
    (* %\d*\$?lld *)  rseq [lit "%"; star [CDigit]; ROpt (lit "$"); lit "lld"];
    (* %d *)          lit "%d";
    (* %\d*\$?d *)    rseq [lit "%"; star [CDigit]; ROpt (lit "$"); lit "d"];
    (* %f *)          lit "%f";
    (* %\d*\.\d*f *)  rseq [lit "%"; star [CDigit]; lit "."; star [CDigit]; lit "f"];
    (* %% *)          lit "%%" ].

(** ** Classifier *)

Definition is_pattern_only (key : text) : bool :=
  existsb (fun pattern => re_match pattern key) COPY_PATTERNS.

Definition has_format_specifiers (t : text) : bool :=
  existsb (fun pattern => re_search pattern t) FORMAT_SPECIFIERS.


(** ** Python string operations *)

(** [s.startswith(p)]. *)
Fixpoint starts_with (p s : text) : bool :=
  match p, s with
  | [], _ => true
  | a :: p', b :: s' => (a =? b)%N && starts_with p' s'
  | _ :: _, [] => false
  end.

(** [p in s] for strings. *)
Fixpoint str_contains (p s : text) : bool :=
  starts_with p s ||
  match s with
  | [] => false
  | _ :: s' => str_contains p s'
  end.

Definition count_allows (count : option nat) : bool :=
  match count with Some 0 => false | _ => true end.

(** The scan of [str.replace] for a non-empty [old]: occurrences are
    taken left to right and do not overlap; [skip] counts the characters
    of the occurrence just replaced that are still to be passed, and
    [count] the replacements still allowed ([None]: no limit). *)
Fixpoint replace_scan (old new : text) (count : option nat) (skip : nat)
    (s : text) : text :=
  match s with
  | [] => []
  | c :: s' =>
      match skip with
      | S n => replace_scan old new count n s'
      | 0 =>
          if count_allows count && starts_with old s
          then new ++ replace_scan old new (pred <$> count) (length old - 1) s'
          else c :: replace_scan old new count 0 s'
      end
  end.

(** [str.replace] with an empty [old]: [new] goes before every character
    and after the last one, as long as [count] allows. *)
Fixpoint replace_empty (new : text) (count : option nat) (s : text) : text :=
  if count_allows count
  then match s with
       | [] => new
       | c :: s' => new ++ c :: replace_empty new (pred <$> count) s'
       end
  else s.

(** [s.replace(old, new)] ([count = None]) and [s.replace(old, new, n)]
    ([count = Some n]). *)
Definition str_replace (old new : text) (count : option nat) (s : text)
    : text :=
  match old with
  | [] => replace_empty new count s
  | _ :: _ => replace_scan old new count 0 s
  end.

(** ** Specifier codec *)

Definition MARKER_OPEN : N := 0x27e8%N.
Definition MARKER_CLOSE : N := 0x27e9%N.

(** The placeholder of [_protect_format_specifiers]: the index between
    the two mathematical angle brackets. *)
Definition placeholder_of (i : nat) : text :=
  [MARKER_OPEN] ++ format_int i ++ [MARKER_CLOSE].

(** [(%\d*\$?[@lld]+|%%)] *)
Definition specifier_pattern : regex :=
  RAlt (rseq [lit "%"; star [CDigit]; ROpt (lit "$"); plus at_l_l_d])
       (lit "%%").

(** [enumerate(l)]. *)
Definition enumerate {A} (l : list A) : list (nat * A) :=
  imap (fun i x => (i, x)) l.

(** One round of the loop of [_protect_format_specifiers]. *)
Definition protect_step (acc : text * list (text * text))
    (ispec : nat * text) : text * list (text * text) :=
  let '(protected_text, placeholders) := acc in
  let '(i, spec) := ispec in
  let placeholder := placeholder_of i in
  (str_replace spec placeholder (Some 1) protected_text,
   placeholders ++ [(placeholder, spec)]).

Definition _protect_format_specifiers (t : text)
    : text * list (text * text) :=
  let specifiers := re_findall specifier_pattern t in
  match specifiers with
  | [] => (t, [])
  | _ :: _ => foldl protect_step (t, []) (enumerate specifiers)
  end.

Definition _restore_format_specifiers (t : text)
    (placeholders : list (text * text)) : text :=
  foldl (fun result '(placeholder, spec) =>
           str_replace placeholder spec None result)
        t placeholders.

(** ** Catalog store

    The loaded JSON document, in the shape the code reads:
    [data["strings"][key]["localizations"][lang]["stringUnit"]] with its
    ["state"] and ["value"].  Members the code never reads are kept as
    they were loaded. *)

#[local] Unset Elimination Schemes.
Inductive json :=
| JNull
| JBool (b : bool)
| JNumber (literal : text)
| JString (s : text)
| JArray (l : list json)
| JObject (l : list (text * json)).
#[local] Set Elimination Schemes.

(** A ["stringUnit"] object. *)
Record StringUnit := {
  unit_state : option text;             (* "state" *)
  unit_value : option text;             (* "value" *)
  unit_extra : list (text * json)       (* any other member *)
}.

(** The object stored for one language. *)
Record Localization := {
  stringUnit : option StringUnit;
  localization_extra : list (text * json)
}.

(** One entry of ["strings"] ([string_data] in the source). *)
Record StringData := {
  localizations : option (gmap text Localization);
  entry_extra : list (text * json)
}.

(** [self.data]; ["strings"] keeps the order of the file. *)
Record Data := {
  strings : option (list (text * StringData));
  data_extra : list (text * json)
}.

(** [not self.data]: the dictionary is empty. *)
Definition data_is_empty (data : Data) : bool :=
  match strings data, data_extra data with
  | None, [] => true
  | _, _ => false
  end.

(** [string_data.get("localizations", {})]. *)
Definition localizations_of (string_data : StringData)
    : gmap text Localization :=
  default ∅ (localizations string_data).

Definition get_source_value (key : text) (string_data : StringData) : text :=
  match localizations_of string_data !! SOURCE_LANGUAGE with
  | Some en_data =>
      match stringUnit en_data with
      | Some string_unit => default key (unit_value string_unit)
      | None => key
      end
  | None => key
  end.

Definition is_translated (string_data : StringData) (language : text) : bool :=
  match localizations_of string_data !! language with
  | None => false
  | Some lang_data =>
      match stringUnit lang_data with
      | None => false
      | Some string_unit =>
          let state := default [] (unit_state string_unit) in
          bool_decide (state = str "translated")
      end
  end.

(** The object [{"stringUnit": {"state": "translated", "value": value}}]. *)
Definition translated_unit (value : text) : Localization :=
  {| stringUnit := Some {| unit_state := Some (str "translated");
                           unit_value := Some value;
                           unit_extra := [] |};
     localization_extra := [] |}.

Definition _apply_translation (string_data : StringData) (lang value : text)
    : StringData :=
  {| localizations :=
       Some (<[lang := translated_unit value]> (localizations_of string_data));
     entry_extra := entry_extra string_data |}.

(** The entries are objects shared between ["strings"] and the tasks
    that point at them: an entry is named by its position in ["strings"],
    and a mutation of the object is a mutation at that position. *)
Definition apply_at (idx : nat) (lang value : text)
    (entries : list (text * StringData)) : list (text * StringData) :=
  alter (fun e => (e.1, _apply_translation e.2 lang value)) idx entries.

(** ** Statistics *)

Record LocalizationStats := {
  language : text;
  total_keys : nat;
  translated : nat;
  missing : nat;
  patterns_copied : nat;
  texts_translated : nat;
  errors : nat;
  missing_keys : list text
}.

(** [LocalizationStats(language=lang)]. *)
Definition new_stats (lang : text) : LocalizationStats :=
  {| language := lang; total_keys := 0; translated := 0; missing := 0;
     patterns_copied := 0; texts_translated := 0; errors := 0;
     missing_keys := [] |}.

Definition incr_total_keys (st : LocalizationStats) : LocalizationStats :=
  {| language := language st; total_keys := total_keys st + 1;
     translated := translated st; missing := missing st;
     patterns_copied := patterns_copied st;
     texts_translated := texts_translated st; errors := errors st;
     missing_keys := missing_keys st |}.

Definition incr_translated (st : LocalizationStats) : LocalizationStats :=
  {| language := language st; total_keys := total_keys st;
     translated := translated st + 1; missing := missing st;
     patterns_copied := patterns_copied st;
     texts_translated := texts_translated st; errors := errors st;
     missing_keys := missing_keys st |}.

Definition incr_missing (st : LocalizationStats) : LocalizationStats :=
  {| language := language st; total_keys := total_keys st;
     translated := translated st; missing := missing st + 1;
     patterns_copied := patterns_copied st;
     texts_translated := texts_translated st; errors := errors st;
     missing_keys := missing_keys st |}.

Definition incr_patterns_copied (st : LocalizationStats) : LocalizationStats :=
  {| language := language st; total_keys := total_keys st;
     translated := translated st; missing := missing st;
     patterns_copied := patterns_copied st + 1;
     texts_translated := texts_translated st; errors := errors st;
     missing_keys := missing_keys st |}.

Definition incr_texts_translated (st : LocalizationStats) : LocalizationStats :=
  {| language := language st; total_keys := total_keys st;
     translated := translated st; missing := missing st;
     patterns_copied := patterns_copied st;
     texts_translated := texts_translated st + 1; errors := errors st;
     missing_keys := missing_keys st |}.

Definition incr_errors (st : LocalizationStats) : LocalizationStats :=
  {| language := language st; total_keys := total_keys st;
     translated := translated st; missing := missing st;
     patterns_copied := patterns_copied st;
     texts_translated := texts_translated st; errors := errors st + 1;
     missing_keys := missing_keys st |}.

Definition append_missing_key (key : text) (st : LocalizationStats)
    : LocalizationStats :=
  {| language := language st; total_keys := total_keys st;
     translated := translated st; missing := missing st;
     patterns_copied := patterns_copied st;
     texts_translated := texts_translated st; errors := errors st;
     missing_keys := missing_keys st ++ [key] |}.

(** [languages or self.TARGET_LANGUAGES]. *)
Definition target_langs (languages : option (list text)) : list text :=
  match languages with
  | Some (lang :: rest) => lang :: rest
  | _ => TARGET_LANGUAGES
  end.

(** [{lang: LocalizationStats(language=lang) for lang in target_langs}]. *)
Definition initial_stats (langs : list text) : gmap text LocalizationStats :=
  list_to_map ((fun lang => (lang, new_stats lang)) <$> langs).

(** ** Diff analyzer *)

(** The body of the inner loop of [analyze], on [stats[lang]]. *)
Definition analyze_entry (key : text) (string_data : StringData) (lang : text)
    (st : LocalizationStats) : LocalizationStats :=
  let st := incr_total_keys st in
  if is_translated string_data lang
  then incr_translated st
  else append_missing_key key (incr_missing st).

Definition analyze (data : Data) (languages : option (list text))
    : gmap text LocalizationStats :=
  if data_is_empty data then ∅
  else
    let langs := target_langs languages in
    foldl (fun stats '(key, string_data) =>
             if is_blank key then stats
             else foldl (fun stats lang =>
                           alter (analyze_entry key string_data lang) lang stats)
                        stats langs)
          (initial_stats langs)
          (default [] (strings data)).

(** ** Batch translation pipeline *)

Record TranslationTask := {
  key : text;
  source_value : text;
  is_pattern : bool;
  has_specifiers : bool;
  string_data : nat       (* the entry object: its position in "strings" *)
}.

(** The truth value of a translation result: [None] and [""] are false. *)
Definition truthy (result : option text) : bool :=
  match result with
  | Some (_ :: _) => true
  | _ => false
  end.

(** [lang_map.get(target_lang, target_lang)] of [_get_translator]. *)
Definition translator_language (target_lang : text) : text :=
  if bool_decide (target_lang = str "pt-PT") then str "pt" else target_lang.

(** The loop of [translate_batch] over [enumerate(results)]: a true
    result is restored with [all_placeholders[i]] when that list is not
    empty; [None] stands for the [IndexError] of [all_placeholders[i]]. *)
Definition restore_result (all_placeholders : list (list (text * text)))
    (i_result : nat * option text) : option (option text) :=
  let '(i, result) := i_result in
  match result with
  | Some (c :: t) =>
      match all_placeholders !! i with
      | None => None
      | Some [] => Some result
      | Some (p :: ps) =>
          Some (Some (_restore_format_specifiers (c :: t) (p :: ps)))
      end
  | _ => Some result
  end.

(** [texts[0:n], texts[n:2n], ...], the slices of
    [range(0, len(texts), n)]. *)
Fixpoint batches_fuel (fuel n : nat) (texts : list text) : list (list text) :=
  match fuel with
  | 0 => []
  | S fuel' =>
      match texts with
      | [] => []
      | _ :: _ => take n texts :: batches_fuel fuel' n (drop n texts)
      end
  end.

Definition batches (n : nat) (texts : list text) : list (list text) :=
  batches_fuel (length texts) n texts.

Section Pipeline.

(** Whether [deep_translator] could be imported. *)
Variable TRANSLATOR_AVAILABLE : bool.

(** The translation service: [GoogleTranslator(source="en", target=dest)]
    and its [translate_batch], with the translators the manager caches
    and whatever else the service remembers as a state of type [Service].
    A call answers with a list of results, each [None] or a string (one
    per text when the service keeps its contract), or raises ([None]). *)
Variable Service : Type.
Variable service_translate :
  Service -> text -> list text -> Service * option (list (option text)).

Definition translate_batch (texts : list text) (target_lang : text)
    (svc : Service) : list (option text) * Service :=
  if negb TRANSLATOR_AVAILABLE || bool_decide (texts = [])
  then (replicate (length texts) None, svc)
  else
    let protected := _protect_format_specifiers <$> texts in
    let protected_texts := fst <$> protected in
    let all_placeholders := snd <$> protected in
    match service_translate svc (translator_language target_lang)
                            protected_texts with
    | (svc', Some results) =>
        match mapM (restore_result all_placeholders) (enumerate results) with
        | Some final_results => (final_results, svc')
        | None => (replicate (length texts) None, svc')
        end
    | (svc', None) => (replicate (length texts) None, svc')
    end.

(** The collection loop of one language, on [stats[lang]] and the task
    list. *)
Definition collect_step (lang : text)
    (acc : LocalizationStats * list TranslationTask)
    (item : nat * (text * StringData))
    : LocalizationStats * list TranslationTask :=
  let '(st, tasks) := acc in
  let '(idx, (k, sd)) := item in
  if is_blank k then acc
  else
    let st := incr_total_keys st in
    if is_translated sd lang then (incr_translated st, tasks)
    else
      let src := get_source_value k sd in
      (incr_missing st,
       tasks ++ [ {| key := k;
                     source_value := src;
                     is_pattern := is_pattern_only src;
                     has_specifiers := has_format_specifiers src;
                     string_data := idx |} ]).

Definition collect_tasks (lang : text) (st : LocalizationStats)
    (entries : list (text * StringData))
    : LocalizationStats * list TranslationTask :=
  foldl (collect_step lang) (st, []) (enumerate entries).

(** Copy as is: the loop over [patterns], and the loop over
    [to_translate] when no translator is available. *)
Definition copy_step (dry_run : bool) (lang : text)
    (acc : LocalizationStats * list (text * StringData))
    (task : TranslationTask)
    : LocalizationStats * list (text * StringData) :=
  let '(st, entries) := acc in
  (incr_patterns_copied st,
   if dry_run then entries
   else apply_at (string_data task) lang (source_value task) entries).

(** The loop over [range(0, len(texts_to_translate), BATCH_SIZE)]. *)
Definition translate_all (lang : text) (texts_to_translate : list text)
    (svc : Service) : list (option text) * Service :=
  foldl (fun '(all_translations, svc) batch =>
           let '(translations, svc') := translate_batch batch lang svc in
           (all_translations ++ translations, svc'))
        ([], svc)
        (batches BATCH_SIZE texts_to_translate).

(** The loop over [zip(to_translate, all_translations)]. *)
Definition merge_step (dry_run : bool) (lang : text)
    (acc : LocalizationStats * list (text * StringData))
    (pair : TranslationTask * option text)
    : LocalizationStats * list (text * StringData) :=
  let '(st, entries) := acc in
  let '(task, translation) := pair in
  match translation with
  | Some (c :: t) =>
      (incr_texts_translated st,
       if dry_run then entries
       else apply_at (string_data task) lang (c :: t) entries)
  | _ =>
      (incr_patterns_copied (incr_errors st),
       if dry_run then entries
       else apply_at (string_data task) lang (source_value task) entries)
  end.

(** The body of the loop over [target_langs], on [stats[lang]]. *)
Definition process_language (dry_run : bool) (lang : text)
    (st : LocalizationStats) (entries : list (text * StringData))
    (svc : Service)
    : LocalizationStats * list (text * StringData) * Service :=
  let '(st, tasks) := collect_tasks lang st entries in
  match tasks with
  | [] => (st, entries, svc)
  | _ :: _ =>
      let patterns := filter (fun t => is_pattern t = true) tasks in
      let to_translate := filter (fun t => ~ is_pattern t = true) tasks in
      let '(st, entries) :=
        foldl (copy_step dry_run lang) (st, entries) patterns in
      match to_translate with
      | [] => (st, entries, svc)
      | _ :: _ =>
          if TRANSLATOR_AVAILABLE
          then
            let texts_to_translate := source_value <$> to_translate in
            let '(all_translations, svc) :=
              translate_all lang texts_to_translate svc in
            let '(st, entries) :=
              foldl (merge_step dry_run lang) (st, entries)
                    (zip to_translate all_translations) in
            (st, entries, svc)
          else
            let '(st, entries) :=
              foldl (copy_step dry_run lang) (st, entries) to_translate in
            (st, entries, svc)
      end
  end.

(** One round of the loop over [target_langs]: [stats[lang]] is there
    for every target language, so the lookup never fails. *)
Definition language_step (dry_run : bool)
    (acc : gmap text LocalizationStats * list (text * StringData) * Service)
    (lang : text)
    : gmap text LocalizationStats * list (text * StringData) * Service :=
  let '(stats, entries, svc) := acc in
  match stats !! lang with
  | Some st =>
      let '(st', entries', svc') :=
        process_language dry_run lang st entries svc in
      (<[lang := st']> stats, entries', svc')
  | None => acc
  end.

(** [process_missing_translations]: the statistics it returns, with the
    data and the service as it leaves them.  ([verbose] only chooses
    what is logged.) *)
Definition process_missing_translations (data : Data)
    (languages : option (list text)) (dry_run : bool) (svc : Service)
    : gmap text LocalizationStats * Data * Service :=
  if data_is_empty data then (∅, data, svc)
  else
    let langs := target_langs languages in
    let '(stats, entries, svc') :=
      foldl (language_step dry_run)
            (initial_stats langs, default [] (strings data), svc) langs in
    (stats,
     {| strings := (fun _ => entries) <$> strings data;
        data_extra := data_extra data |},
     svc').

End Pipeline.

(** * Vocabulary of the properties *)

(** ** Catalog and statistics *)

(** The value stored for a language, when there is one. *)
Definition stored_value (sd : StringData) (lang : text) : option text :=
  match localizations_of sd !! lang with
  | Some lang_data =>
      match stringUnit lang_data with
      | Some string_unit => unit_value string_unit
      | None => None
      end
  | None => None
  end.

(** [f] applied to the entries of ["strings"]. *)
Definition map_entries
    (f : list (text * StringData) -> list (text * StringData))
    (data : Data) : Data :=
  {| strings := f <$> strings data; data_extra := data_extra data |}.

(** The counters of one language add up. *)
Definition totals_add_up (st : LocalizationStats) : Prop :=
  total_keys st = translated st + missing st.

(** The counters of a finished run, language by language: what was
    translated and what was copied add up to what was missing, and the
    errors are among the copies. *)
Definition accounted (st : LocalizationStats) : Prop :=
  texts_translated st + patterns_copied st = missing st /\
  errors st <= patterns_copied st.

(** ** What a match is

    [matches r i s j s']: in a string whose part from position [i] on is
    [s], the pattern [r] can match from [i] to [j], leaving [s']. *)

Inductive matches : regex -> nat -> text -> nat -> text -> Prop :=
| M_bol s : matches RBol 0 s 0 s
| M_eol i s : s = [] \/ s = [10%N] -> matches REol i s i s
| M_set cs c i s :
    in_cset cs c = true -> matches (RSet cs) i (c :: s) (S i) s
| M_rep cs lo hi i w s :
    Forall (fun c => in_cset cs c = true) w ->
    lo <= length w ->
    (forall h, hi = Some h -> length w <= h) ->
    matches (RRep cs lo hi) i (w ++ s) (i + length w) s
| M_opt_some r i s j s' : matches r i s j s' -> matches (ROpt r) i s j s'
| M_opt_none r i s : matches (ROpt r) i s i s
| M_seq r1 r2 i s j s' k s'' :
    matches r1 i s j s' -> matches r2 j s' k s'' ->
    matches (RSeq r1 r2) i s k s''
| M_alt_l r1 r2 i s j s' : matches r1 i s j s' -> matches (RAlt r1 r2) i s j s'
| M_alt_r r1 r2 i s j s' : matches r2 i s j s' -> matches (RAlt r1 r2) i s j s'
| M_eps i s : matches REps i s i s.

(** A character no set of the pattern contains. *)
Fixpoint avoids (x : N) (r : regex) : bool :=
  match r with
  | RSet cs | RRep cs _ _ => negb (in_cset cs x)
  | ROpt r1 => avoids x r1
  | RSeq r1 r2 | RAlt r1 r2 => avoids x r1 && avoids x r2
  | RBol | REol | REps => true
  end.

(** ** Specifiers and markers *)

(** What [_protect_format_specifiers] takes for a specifier: a text
    that starts with a percent sign and holds no opening marker bracket. *)
Definition specifier_like (x : text) : Prop :=
  head x = Some 37%N /\ MARKER_OPEN ∉ x.

(** None of the markers that [_protect_format_specifiers] would write
    for [t] (one per specifier it finds, numbered from 0) occurs in [t]. *)
Definition markers_free (t : text) : bool :=
  forallb (fun i => negb (str_contains (placeholder_of i) t))
          (seq 0 (length (re_findall specifier_pattern t))).

(** A text that already holds the first marker. *)
Definition text_with_marker : text := placeholder_of 0 ++ str " %d".

(** ** The pipeline, loop by loop *)

(** The three counters of a run moved by [dp], [dt] and [de]. *)
Definition bump (dp dt de : nat) (st : LocalizationStats) : LocalizationStats :=
  {| language := language st; total_keys := total_keys st;
     translated := translated st; missing := missing st;
     patterns_copied := patterns_copied st + dp;
     texts_translated := texts_translated st + dt;
     errors := errors st + de;
     missing_keys := missing_keys st |}.

(** The translations that count as failed, and those that do not. *)
Definition failed_of (pairs : list (TranslationTask * option text))
    : list (TranslationTask * option text) :=
  filter (fun p => truthy p.2 = false) pairs.

Definition succeeded_of (pairs : list (TranslationTask * option text))
    : list (TranslationTask * option text) :=
  filter (fun p => truthy p.2 = true) pairs.

(** The writes of a loop: which entry gets which value. *)
Definition apply_writes (lang : text) (writes : list (nat * text))
    (entries : list (text * StringData)) : list (text * StringData) :=
  foldl (fun es w => apply_at w.1 lang w.2 es) entries writes.

Definition copy_write (task : TranslationTask) : nat * text :=
  (string_data task, source_value task).

Definition merge_write (pair : TranslationTask * option text) : nat * text :=
  (string_data pair.1,
   match pair.2 with
   | Some (c :: t) => c :: t
   | _ => source_value pair.1
   end).



(** The keys that are missing for a language: not blank, not translated. *)
Definition missing_entries (lang : text) (entries : list (text * StringData))
    : list (text * StringData) :=
  filter (fun e => is_blank e.1 = false /\ is_translated e.2 lang = false)
         entries.

(** The tasks of a language, split as the pipeline splits them, and the
    translations the service gives for the second part. *)
Definition tasks_of (lang : text) (st : LocalizationStats)
    (entries : list (text * StringData)) : list TranslationTask :=
  (collect_tasks lang st entries).2.

Definition patterns_of (lang : text) (st : LocalizationStats)
    (entries : list (text * StringData)) : list TranslationTask :=
  filter (fun t => is_pattern t = true) (tasks_of lang st entries).

Definition to_translate_of (lang : text) (st : LocalizationStats)
    (entries : list (text * StringData)) : list TranslationTask :=
  filter (fun t => ~ is_pattern t = true) (tasks_of lang st entries).

Section PipelineOutcome.

Variable TRANSLATOR_AVAILABLE : bool.
Variable Service : Type.
Variable service_translate :
  Service -> text -> list text -> Service * option (list (option text)).

#[local] Abbreviation translate_all :=
  (translate_all TRANSLATOR_AVAILABLE Service service_translate).

(** [all_translations] with the service after the last chunk, and
    [zip(to_translate, all_translations)]. *)
Definition translations_of (lang : text) (st : LocalizationStats)
    (entries : list (text * StringData)) (svc : Service)
    : list (option text) * Service :=
  translate_all lang (source_value <$> to_translate_of lang st entries) svc.

Definition merged_of (lang : text) (st : LocalizationStats)
    (entries : list (text * StringData)) (svc : Service)
    : list (TranslationTask * option text) :=
  zip (to_translate_of lang st entries) (translations_of lang st entries svc).1.

(** The statistics and the service after one language. *)
Definition language_outcome (lang : text) (st : LocalizationStats)
    (entries : list (text * StringData)) (svc : Service)
    : LocalizationStats * Service :=
  let st1 := (collect_tasks lang st entries).1 in
  let patterns := patterns_of lang st entries in
  let to_translate := to_translate_of lang st entries in
  match to_translate with
  | [] => (bump (length patterns) 0 0 st1, svc)
  | _ :: _ =>
      if TRANSLATOR_AVAILABLE
      then
        let pairs := merged_of lang st entries svc in
        (bump (length patterns + length (failed_of pairs))
              (length (succeeded_of pairs))
              (length (failed_of pairs)) st1,
         (translations_of lang st entries svc).2)
      else (bump (length patterns + length to_translate) 0 0 st1, svc)
  end.

(** The writes of one language when the run is not a dry run. *)
Definition language_writes (lang : text) (st : LocalizationStats)
    (entries : list (text * StringData)) (svc : Service)
    : list (nat * text) :=
  let patterns := patterns_of lang st entries in
  let to_translate := to_translate_of lang st entries in
  (copy_write <$> patterns) ++
  if TRANSLATOR_AVAILABLE
  then merge_write <$> merged_of lang st entries svc
  else copy_write <$> to_translate.

(** The contract of the service: when it answers, it answers with one
    result for every text it was given. *)
Definition answers_every_text : Prop :=
  forall svc lang texts svc' results,
    service_translate svc lang texts = (svc', Some results) ->
    length results = length texts.

End PipelineOutcome.

(** ** A small catalog and two services *)

(** A service that raises on every call, and one that translates every
    text to ["Bonjour"]. *)
Definition raising_service (svc : unit) (lang : text) (texts : list text)
    : unit * option (list (option text)) :=
  (tt, None).

Definition bonjour_service (svc : unit) (lang : text) (texts : list text)
    : unit * option (list (option text)) :=
  (tt, Some ((fun _ => Some (str "Bonjour")) <$> texts)).

(** A catalog with the one key ["Hello"], no localization yet. *)
Definition hello_entry : StringData :=
  {| localizations := None; entry_extra := [] |}.

Definition hello_entries : list (text * StringData) :=
  [(str "Hello", hello_entry)].

Definition hello_catalog : Data :=
  {| strings := Some hello_entries; data_extra := [] |}.

Definition stats_of (lang : text) (total done miss copied texts errs : nat)
    : LocalizationStats :=
  {| language := lang; total_keys := total; translated := done;
     missing := miss; patterns_copied := copied;
     texts_translated := texts; errors := errs; missing_keys := [] |}.

(** The task the collection loop makes of an entry, when it makes one. *)
Definition task_for (lang : text) (item : nat * (text * StringData))
    : option TranslationTask :=
  let '(idx, (k, sd)) := item in
  if is_blank k then None
  else if is_translated sd lang then None
  else
    let src := get_source_value k sd in
    Some {| key := k;
            source_value := src;
            is_pattern := is_pattern_only src;
            has_specifiers := has_format_specifiers src;
            string_data := idx |}.

(** The keys that count: those that are not blank. *)
Definition counted_entries (entries : list (text * StringData))
    : list (text * StringData) :=
  filter (fun e => is_blank e.1 = false) entries.

Definition translated_entries (lang : text)
    (entries : list (text * StringData)) : list (text * StringData) :=
  filter (fun e => is_blank e.1 = false /\ is_translated e.2 lang = true)
         entries.

(** [st] with the three counters of the collection moved. *)
Definition count_keys (dk dt dm : nat) (st : LocalizationStats)
    : LocalizationStats :=
  {| language := language st; total_keys := total_keys st + dk;
     translated := translated st + dt; missing := missing st + dm;
     patterns_copied := patterns_copied st;
     texts_translated := texts_translated st;
     errors := errors st;
     missing_keys := missing_keys st |}.

(** How many times a language comes in a request. *)
Definition times_requested (lang : text) (langs : list text) : nat :=
  length (filter (fun l => l = lang) langs).

(** [st] after [n] rounds of the analysis for [lang] on every entry. *)
Definition tally (n : nat) (lang : text) (entries : list (text * StringData))
    (st : LocalizationStats) : LocalizationStats :=
  {| language := language st;
     total_keys := total_keys st + n * length (counted_entries entries);
     translated :=
       translated st + n * length (translated_entries lang entries);
     missing := missing st + n * length (missing_entries lang entries);
     patterns_copied := patterns_copied st;
     texts_translated := texts_translated st;
     errors := errors st;
     missing_keys :=
       missing_keys st ++
       concat (replicate n <$> (missing_entries lang entries).*1) |}.

(** A catalog with a text, a pattern, a blank key and a key that is
    translated to French already. *)
Definition sample_entries : list (text * StringData) :=
  [ (str "Hello", hello_entry);
    (str "%lld", hello_entry);
    (str " ", hello_entry);
    (str "Bye", _apply_translation hello_entry (str "fr") (str "Au revoir")) ].

Definition sample_catalog : Data :=
  {| strings := Some sample_entries; data_extra := [] |}.

(** The counters of what a run did are all zero. *)
Definition nothing_done (st : LocalizationStats) : Prop :=
  missing st = 0 /\ patterns_copied st = 0 /\ texts_translated st = 0 /\
  errors st = 0.

(** A pattern without [$], and one without [^]. *)
Fixpoint no_eol (r : regex) : bool :=
  match r with
  | REol => false
  | ROpt r1 => no_eol r1
  | RSeq r1 r2 | RAlt r1 r2 => no_eol r1 && no_eol r2
  | RBol | RSet _ | RRep _ _ _ | REps => true
  end.

Fixpoint no_bol (r : regex) : bool :=
  match r with
  | RBol => false
  | ROpt r1 => no_bol r1
  | RSeq r1 r2 | RAlt r1 r2 => no_bol r1 && no_bol r2
  | REol | RSet _ | RRep _ _ _ | REps => true
  end.

(** A service that gives every text back as it got it. *)
Definition echo_service (svc : unit) (lang : text) (texts : list text)
    : unit * option (list (option text)) :=
  (tt, Some (Some <$> texts)).

(** ** Translator cache *)

Section Translators.

(** The translator objects, and the constructor
    [GoogleTranslator(source=..., target=...)]: the translator it makes,
    or [None] when it raises. *)
Variable Translator : Type.
Variable GoogleTranslator : text -> text -> option Translator.

(** [_get_translator]: [self.translators] as the call leaves it, and
    the translator returned ([None]: the constructor raised). *)
Definition _get_translator (translators : gmap text Translator)
    (target_lang : text) : gmap text Translator * option Translator :=
  let dest := translator_language target_lang in
  match translators !! dest with
  | Some translator => (translators, Some translator)
  | None =>
      match GoogleTranslator (str "en") dest with
      | Some translator => (<[dest := translator]> translators, Some translator)
      | None => (translators, None)
      end
  end.

End Translators.

(** A constructor that knows French and German only; a translator is
    its target language. *)
Definition two_language_translator (source target : text) : option text :=
  if bool_decide (target = str "fr") || bool_decide (target = str "de")
  then Some target else None.

(** ** Processing summary *)

(** The three totals [print_processing_summary] adds up over
    [stats.items()] and prints: [total_processed], [total_translated]
    and [total_errors]. *)
Definition summary_step (totals : nat * nat * nat)
    (item : text * LocalizationStats) : nat * nat * nat :=
  let '(total_processed, total_translated, total_errors) := totals in
  let stat := item.2 in
  let processed := patterns_copied stat + texts_translated stat in
  (total_processed + processed,
   total_translated + texts_translated stat,
   total_errors + errors stat).

Definition summary_totals (stats : gmap text LocalizationStats)
    : nat * nat * nat :=
  foldl summary_step (0, 0, 0) (map_to_list stats).

(** The strings a run found missing, all languages together. *)
Definition total_missing (stats : gmap text LocalizationStats) : nat :=
  foldl (fun n item => n + missing item.2) 0 (map_to_list stats).

(** ** Export of the missing keys *)

(** One object of an exported ["missing_keys"] list. *)
Record MissingKey := {
  missing_key : text;                      (* "key" *)
  missing_source_value : text;             (* "source_value" *)
  missing_is_pattern : bool;               (* "is_pattern" *)
  missing_has_format_specifiers : bool     (* "has_format_specifiers" *)
}.

(** ["percentage"]: the float [round(translated / total_keys * 100, 1)]
    when there are keys, kept as the two integers it is computed from,
    and the integer [0] when there are none. *)
Inductive Percentage :=
| RoundedPercentage (translated total_keys : nat)
| ZeroPercentage.

(** The object exported for one language: its ["stats"] and its
    ["missing_keys"]. *)
Record ExportedLanguage := {
  export_total : nat;                      (* "total" *)
  export_translated : nat;                 (* "translated" *)
  export_missing : nat;                    (* "missing" *)
  export_percentage : Percentage;          (* "percentage" *)
  export_missing_keys_list : list MissingKey
}.

(** [self.data["strings"].get(key, {})]; [None] stands for the
    [KeyError] of a document without ["strings"]. *)
Definition strings_get (data : Data) (key : text) : option StringData :=
  entries ← strings data;
  Some (default {| localizations := None; entry_extra := [] |}
                (snd ∘ snd <$> list_find (fun e => e.1 = key) entries)).

(** The loop over [stat.missing_keys]. *)
Definition export_key (data : Data) (key : text) : option MissingKey :=
  string_data ← strings_get data key;
  let source_value := get_source_value key string_data in
  Some {| missing_key := key;
          missing_source_value := source_value;
          missing_is_pattern := is_pattern_only source_value;
          missing_has_format_specifiers :=
            has_format_specifiers source_value |}.

(** The body of the loop over [stats.items()]. *)
Definition export_language (data : Data) (stat : LocalizationStats)
    : option ExportedLanguage :=
  keys ← mapM (export_key data) (missing_keys stat);
  Some {| export_total := total_keys stat;
          export_translated := translated stat;
          export_missing := missing stat;
          export_percentage :=
            if bool_decide (0 < total_keys stat)
            then RoundedPercentage (translated stat) (total_keys stat)
            else ZeroPercentage;
          export_missing_keys_list := keys |}.

(** [export_missing_keys]: the [export_data] it writes to the output
    file, or [None] when it raises before it writes. *)
Definition export_missing_keys (data : Data)
    (languages : option (list text)) : option (gmap text ExportedLanguage) :=
  let stats := analyze data languages in
  list_to_map <$>
    mapM (fun '(lang, stat) => pair lang <$> export_language data stat)
         (map_to_list stats).

(** What the export says of a task of the run. *)
Definition exported_task (task : TranslationTask) : MissingKey :=
  {| missing_key := key task;
     missing_source_value := source_value task;
     missing_is_pattern := is_pattern task;
     missing_has_format_specifiers := has_specifiers task |}.

(** ** Command line *)

(** The parsed arguments ([args] of [main]). *)
Record Args := {
  arg_analyze : bool;                 (* --analyze *)
  arg_translate : bool;               (* --translate *)
  arg_dry_run : bool;                 (* --dry-run *)
  arg_verbose : bool;                 (* --verbose *)
  arg_language : option text;         (* --language *)
  arg_export : option text;           (* --export *)
  arg_file : option text;             (* --file *)
  arg_log : option text               (* --log *)
}.

Inductive Level := DEBUG | INFO.

Inductive Handler :=
| StreamHandler                       (* to sys.stdout *)
| FileHandler (log_file : text).

(** [setup_logging]: the level and the handlers it configures. *)
Definition setup_logging (log_file : option text) (verbose : bool)
    : Level * list Handler :=
  let level := if verbose then DEBUG else INFO in
  let handlers := [StreamHandler] in
  let handlers :=
    if truthy log_file
    then handlers ++ [FileHandler (default [] log_file)]
    else handlers in
  (level, handlers).

(** What [main] does that can be seen from outside, apart from the
    lines it logs. *)
Inductive Event :=
| SetupLogging (config : Level * list Handler)
| PrintAnalysis (stats : gmap text LocalizationStats) (verbose : bool)
| WriteExport (output_path : text) (export_data : gmap text ExportedLanguage)
| PrintProcessingSummary (stats : gmap text LocalizationStats)
| Save (xcstrings_path : text) (data : Data)
| PrintHelp.

(** How [main] ends: it returns, it leaves with [sys.exit(code)], or an
    exception escapes. *)
Inductive Outcome :=
| Returned
| Exited (code : nat)
| Raised.

Section Main.

Variable TRANSLATOR_AVAILABLE : bool.
Variable Service : Type.
Variable service_translate :
  Service -> text -> list text -> Service * option (list (option text)).

(** The environment: [datetime.now().strftime('%Y%m%d_%H%M%S')], the
    three places where the catalog is looked for, the files that are
    there, and what [load] makes of a path ([None] when it returns
    [False]). *)
Variable now : text.
Variable possible_paths : list text.
Variable path_exists : text -> bool.
Variable load : text -> option Data.

(** [args.log or (f"localization_{now}.log" if args.translate else None)]. *)
Definition log_file_of (args : Args) : option text :=
  if truthy (arg_log args) then arg_log args
  else if arg_translate args
       then Some (str "localization_" ++ now ++ str ".log")
       else None.

(** The path of the catalog: [args.file], or the first of the possible
    paths that exists. *)
Definition xcstrings_path_of (args : Args) : option text :=
  if truthy (arg_file args) then arg_file args
  else head (filter (fun path => path_exists path = true) possible_paths).

(** [[args.language] if args.language else None]. *)
Definition languages_of (args : Args) : option (list text) :=
  match arg_language args with
  | Some (c :: l) => Some [c :: l]
  | _ => None
  end.

(** The actions of [main] on a loaded catalog. *)
Definition run_actions (args : Args) (xcstrings_path : text) (data : Data)
    (svc : Service) : list Event * Outcome * Service :=
  let languages := languages_of args in
  let analysis :=
    if arg_analyze args
    then [PrintAnalysis (analyze data languages) (arg_verbose args)]
    else [] in
  let export :=
    if truthy (arg_export args)
    then (fun export_data =>
            [WriteExport (default [] (arg_export args)) export_data])
           <$> export_missing_keys data languages
    else Some [] in
  match export with
  | None => (analysis, Raised, svc)
  | Some exported =>
      let help :=
        if negb (arg_analyze args || arg_translate args ||
                 truthy (arg_export args))
        then [PrintHelp] else [] in
      if arg_translate args
      then
        if negb TRANSLATOR_AVAILABLE
        then (analysis ++ exported, Exited 1, svc)
        else
          let '(stats, data', svc') :=
            process_missing_translations TRANSLATOR_AVAILABLE Service
              service_translate data languages (arg_dry_run args) svc in
          let saving :=
            if negb (arg_dry_run args) then [Save xcstrings_path data']
            else [] in
          (analysis ++ exported ++ [PrintProcessingSummary stats] ++ saving
             ++ help,
           Returned, svc')
      else (analysis ++ exported ++ help, Returned, svc)
  end.

Definition main (args : Args) (svc : Service)
    : list Event * Outcome * Service :=
  let log_file := log_file_of args in
  let logging := [SetupLogging (setup_logging log_file (arg_verbose args))] in
  match xcstrings_path_of args with
  | Some (c :: p) =>
      let xcstrings_path := c :: p in
      match load xcstrings_path with
      | None => (logging, Exited 1, svc)
      | Some data =>
          let '(events, outcome, svc') :=
            run_actions args xcstrings_path data svc in
          (logging ++ events, outcome, svc')
      end
  | _ => (logging, Exited 1, svc)
  end.

End Main.

(** A command line that asks for a translation to French, and an
    environment where the catalog of the working directory is the
    sample catalog. *)
Definition translate_to_french : Args :=
  {| arg_analyze := false; arg_translate := true; arg_dry_run := false;
     arg_verbose := false; arg_language := Some (str "fr");
     arg_export := None; arg_file := None; arg_log := None |}.

Definition sample_main (args : Args) : list Event * Outcome * unit :=
  main true unit bonjour_service (str "20241224_180000")
       [str "Localizable.xcstrings"] (fun _ => true)
       (fun _ => Some sample_catalog) args tt.

(** [total_batches] of [process_missing_translations]: the number of
    batches it announces. *)
Definition total_batches (texts_to_translate : list text) : nat :=
  (length texts_to_translate + BATCH_SIZE - 1) / BATCH_SIZE.




(** * Properties *)

(** ** The embedding on the examples of the interpreter

    Values the interpreter gives for the same calls. *)

Example is_pattern_only_blank :
  is_pattern_only (str "") = true /\ is_pattern_only (str "   ") = true.
Proof. split; reflexivity. Qed.

Example is_pattern_only_prose :
  is_pattern_only (str "Welcome back!") = false /\
  is_pattern_only (str "12 items") = false /\
  is_pattern_only (str "%d items") = false.
Proof. split_and!; reflexivity. Qed.

Example is_pattern_only_trailing_newline :
  is_pattern_only (str "OK" ++ [10%N]) = true /\
  is_pattern_only (str "ABCD") = false.
Proof. split; reflexivity. Qed.

Example has_format_specifiers_examples :
  has_format_specifiers (str "You have %d items") = true /\
  has_format_specifiers (str "Hello world") = false /\
  has_format_specifiers (str "%f") = true.
Proof. split_and!; reflexivity. Qed.

Example str_replace_examples :
  str_replace (str "aa") (str "b") None (str "aaa") = str "ba" /\
  str_replace (str "a") (str "b") (Some 1) (str "aaa") = str "baa" /\
  str_replace (str "") (str "-") None (str "abc") = str "-a-b-c-" /\
  str_replace (str "") (str "-") (Some 1) (str "abc") = str "-abc".
Proof. split_and!; reflexivity. Qed.

Example protect_two_specifiers :
  _protect_format_specifiers (str "Hello %@, you have %d new messages") =
  (str "Hello " ++ placeholder_of 0 ++ str ", you have " ++
   placeholder_of 1 ++ str " new messages",
   [(placeholder_of 0, str "%@"); (placeholder_of 1, str "%d")]).
Proof. reflexivity. Qed.

Example protect_greedy_class :
  _protect_format_specifiers (str "%d %dd") =
  (placeholder_of 0 ++ str " " ++ placeholder_of 1,
   [(placeholder_of 0, str "%d"); (placeholder_of 1, str "%dd")]).
Proof. reflexivity. Qed.

Example placeholder_of_twelve :
  placeholder_of 12 = [MARKER_OPEN; 49%N; 50%N; MARKER_CLOSE].
Proof. reflexivity. Qed.

(** ** Generic facts on loops *)

Lemma foldl_invariant {A B} (P : A -> Prop) (f : A -> B -> A) (l : list B) :
  forall a, P a -> (forall a b, P a -> P (f a b)) -> P (foldl f a l).
Proof.
  induction l as [|b l IH]; intros a Ha Hstep; simpl; [done|].
  apply IH; [by apply Hstep | done].
Qed.

Lemma foldl_step {A B} (f : A -> B -> A) (a : A) (b : B) (l : list B) :
  foldl f a (b :: l) = foldl f (f a b) l.
Proof. reflexivity. Qed.

(** ** Catalog store *)

Lemma translated_state_eq (o : option text) :
  default [] o = str "translated" <-> o = Some (str "translated").
Proof.
  destruct o as [s|]; simpl; split; intros H;
    congruence || discriminate H.
Qed.

(** C4: a string is translated for a language exactly when the entry
    has a [stringUnit] for that language whose state is ["translated"];
    a missing language, a language object without its [stringUnit], and
    any other state all count as missing. *)
Theorem is_translated_iff (sd : StringData) (lang : text) :
  (is_translated sd lang = true <->
   exists lang_data string_unit,
     localizations_of sd !! lang = Some lang_data /\
     stringUnit lang_data = Some string_unit /\
     unit_state string_unit = Some (str "translated")) /\
  (localizations_of sd !! lang = None -> is_translated sd lang = false) /\
  (forall lang_data,
     localizations_of sd !! lang = Some lang_data ->
     stringUnit lang_data = None -> is_translated sd lang = false) /\
  (forall lang_data string_unit,
     localizations_of sd !! lang = Some lang_data ->
     stringUnit lang_data = Some string_unit ->
     unit_state string_unit <> Some (str "translated") ->
     is_translated sd lang = false).
Proof.
  unfold is_translated. repeat split.
  - destruct (localizations_of sd !! lang) as [ld|]; [|done].
    destruct (stringUnit ld) as [u|] eqn:Hu; [|done].
    intros H. apply bool_decide_eq_true in H.
    exists ld, u. by rewrite <- translated_state_eq.
  - intros (ld & u & -> & -> & Hst).
    apply bool_decide_eq_true. by apply translated_state_eq.
  - by intros ->.
  - by intros ld -> ->.
  - intros ld u -> -> Hst. apply bool_decide_eq_false.
    by rewrite translated_state_eq.
Qed.

Lemma localizations_of_apply (sd : StringData) (lang value : text) :
  localizations_of (_apply_translation sd lang value) =
  <[lang := translated_unit value]> (localizations_of sd).
Proof. reflexivity. Qed.

Lemma is_translated_apply (sd : StringData) (lang value : text) :
  is_translated (_apply_translation sd lang value) lang = true.
Proof.
  unfold is_translated. rewrite localizations_of_apply, lookup_insert_eq.
  reflexivity.
Qed.

Lemma is_translated_apply_ne (sd : StringData) (lang lang' value : text) :
  lang <> lang' ->
  is_translated (_apply_translation sd lang value) lang' =
  is_translated sd lang'.
Proof.
  intros Hne. unfold is_translated.
  by rewrite localizations_of_apply, lookup_insert_ne.
Qed.

Lemma apply_translation_twice (sd : StringData) (lang value : text) :
  _apply_translation (_apply_translation sd lang value) lang value =
  _apply_translation sd lang value.
Proof.
  unfold _apply_translation at 1 3. f_equal.
  by rewrite localizations_of_apply, insert_insert_eq.
Qed.

Lemma apply_at_twice (idx : nat) (lang value : text)
    (entries : list (text * StringData)) :
  apply_at idx lang value (apply_at idx lang value entries) =
  apply_at idx lang value entries.
Proof.
  unfold apply_at. revert idx.
  induction entries as [|e entries IH]; intros [|idx]; simpl; try done.
  - by rewrite apply_translation_twice.
  - f_equal. apply IH.
Qed.

(** C8: applying the same translation a second time changes nothing,
    on the entry and on the whole catalog; after one call or two the
    string is translated for the language and the stored value is the
    one given. *)
Theorem apply_translation_idempotent (sd : StringData) (lang value : text)
    (idx : nat) (entries : list (text * StringData)) :
  _apply_translation (_apply_translation sd lang value) lang value =
    _apply_translation sd lang value /\
  apply_at idx lang value (apply_at idx lang value entries) =
    apply_at idx lang value entries /\
  is_translated (_apply_translation sd lang value) lang = true /\
  stored_value (_apply_translation sd lang value) lang = Some value /\
  is_translated
    (_apply_translation (_apply_translation sd lang value) lang value) lang
    = true /\
  stored_value
    (_apply_translation (_apply_translation sd lang value) lang value) lang
    = Some value.
Proof.
  rewrite apply_translation_twice, is_translated_apply.
  split_and!; try done.
  - apply apply_at_twice.
  - unfold stored_value. by rewrite localizations_of_apply, lookup_insert_eq.
  - unfold stored_value. by rewrite localizations_of_apply, lookup_insert_eq.
Qed.

(** C10: a translation applied for [lang] leaves the objects of every
    other language and every member of the entry outside
    ["localizations"] as they were, stores exactly
    [{"stringUnit": {"state": "translated", "value": value}}] for [lang]
    whatever was stored there before, and in the catalog touches the
    targeted entry only, whose key stays. *)
Theorem apply_translation_frame (sd : StringData) (lang value : text)
    (idx : nat) (entries : list (text * StringData)) :
  (forall lang', lang' <> lang ->
     localizations_of (_apply_translation sd lang value) !! lang' =
     localizations_of sd !! lang') /\
  entry_extra (_apply_translation sd lang value) = entry_extra sd /\
  localizations_of (_apply_translation sd lang value) !! lang =
    Some {| stringUnit := Some {| unit_state := Some (str "translated");
                                  unit_value := Some value;
                                  unit_extra := [] |};
            localization_extra := [] |} /\
  (forall j, j <> idx ->
     apply_at idx lang value entries !! j = entries !! j) /\
  apply_at idx lang value entries !! idx =
    (fun e => (e.1, _apply_translation e.2 lang value)) <$> entries !! idx /\
  length (apply_at idx lang value entries) = length entries.
Proof.
  repeat split.
  - intros lang' Hne. by rewrite localizations_of_apply, lookup_insert_ne.
  - by rewrite localizations_of_apply, lookup_insert_eq.
  - intros j Hne. unfold apply_at. by rewrite list_lookup_alter_ne.
  - unfold apply_at. by rewrite list_lookup_alter_eq.
  - unfold apply_at. by rewrite length_alter.
Qed.

(** ** Diff analyzer *)

Lemma initial_stats_lookup (langs : list text) (lang : text)
    (st : LocalizationStats) :
  initial_stats langs !! lang = Some st -> st = new_stats lang.
Proof.
  unfold initial_stats. intros H.
  apply elem_of_list_to_map_2 in H.
  apply list_elem_of_fmap in H as (l & Heq & _).
  by inversion Heq.
Qed.

Lemma initial_stats_is_Some (langs : list text) (lang : text) :
  lang ∈ langs -> initial_stats langs !! lang = Some (new_stats lang).
Proof.
  intros Hin. unfold initial_stats.
  destruct (list_to_map ((fun l => (l, new_stats l)) <$> langs) !! lang)
    as [st|] eqn:E.
  - by rewrite (initial_stats_lookup langs lang st E).
  - apply not_elem_of_list_to_map_2 in E. exfalso. apply E.
    rewrite <- list_fmap_compose. simpl.
    apply list_elem_of_fmap. by exists lang.
Qed.

Lemma analyze_entry_adds_up (k : text) (sd : StringData) (lang : text)
    (st : LocalizationStats) :
  totals_add_up st -> totals_add_up (analyze_entry k sd lang st).
Proof.
  unfold totals_add_up, analyze_entry.
  destruct (is_translated sd lang); simpl; lia.
Qed.

(** Every language of an analysis has counters that add up, and a
    language of the request is never lost. *)
Lemma analyze_adds_up (data : Data) (languages : option (list text))
    (lang : text) (st : LocalizationStats) :
  analyze data languages !! lang = Some st -> totals_add_up st.
Proof.
  unfold analyze. destruct (data_is_empty data); [by rewrite lookup_empty|].
  revert lang st.
  apply (foldl_invariant
           (fun stats : gmap text LocalizationStats =>
              forall lang st, stats !! lang = Some st -> totals_add_up st)).
  - intros lang st H. apply initial_stats_lookup in H as ->.
    reflexivity.
  - intros stats [k sd] Hinv. destruct (is_blank k); [done|].
    apply (foldl_invariant
             (fun stats : gmap text LocalizationStats =>
                forall lang st, stats !! lang = Some st -> totals_add_up st));
      [done|].
    intros stats' l Hinv' lang st. rewrite lookup_alter.
    case_decide as Heq; [|by apply Hinv'].
    subst l. destruct (stats' !! lang) as [st0|] eqn:E; simpl; [|done].
    intros [= <-]. apply analyze_entry_adds_up. by apply (Hinv' lang).
Qed.

Lemma analyze_is_Some (data : Data) (languages : option (list text))
    (lang : text) :
  data_is_empty data = false ->
  lang ∈ target_langs languages ->
  is_Some (analyze data languages !! lang).
Proof.
  intros Hne Hin. unfold analyze. rewrite Hne.
  apply (foldl_invariant
           (fun stats : gmap text LocalizationStats =>
              is_Some (stats !! lang))).
  - by rewrite initial_stats_is_Some.
  - intros stats [k sd] Hinv. destruct (is_blank k); [done|].
    apply (foldl_invariant
             (fun stats : gmap text LocalizationStats =>
                is_Some (stats !! lang))); [done|].
    intros stats' l Hinv'. rewrite lookup_alter.
    case_decide as Heq; [|done]. subst l.
    destruct Hinv' as [st0 ->]. by eexists.
Qed.

(** C7: in the analysis of a loaded catalog for one language the
    language has its statistics, [total_keys] is [translated] plus
    [missing] there, and the same holds for the catalog after any
    translation was applied to any entry for any language. *)
Theorem analyze_total_is_translated_plus_missing (data : Data) (L : text) :
  (forall st, analyze data (Some [L]) !! L = Some st ->
     total_keys st = translated st + missing st) /\
  (forall idx lang value st,
     analyze (map_entries (apply_at idx lang value) data) (Some [L]) !! L
       = Some st ->
     total_keys st = translated st + missing st) /\
  (data_is_empty data = false ->
     is_Some (analyze data (Some [L]) !! L) /\
     forall idx lang value,
       is_Some (analyze (map_entries (apply_at idx lang value) data)
                        (Some [L]) !! L)).
Proof.
  split_and!.
  - intros st. apply analyze_adds_up.
  - intros idx lang value st. apply analyze_adds_up.
  - intros Hne. split.
    + apply analyze_is_Some; [done|]. simpl. apply list_elem_of_here.
    + intros idx lang value. apply analyze_is_Some.
      * unfold data_is_empty, map_entries in *. simpl.
        destruct (strings data); simpl; [done|].
        by destruct (data_extra data).
      * simpl. apply list_elem_of_here.
Qed.

(** ** Regular expressions: the matcher against what a match is *)

(** A match consumes a prefix of the input, made of characters of the
    pattern's sets. *)
Lemma matches_prefix r i s j s' :
  matches r i s j s' ->
  exists w, s = w ++ s' /\ j = i + length w /\
            forall x, avoids x r = true -> x ∉ w.
Proof.
  induction 1 as [s|i s Hs|cs c i s Hc|cs lo hi i w s Hall Hlo Hb
                 |r i s j s' Hm IH|r i s
                 |r1 r2 i s j s' j' s'' Hm1 IH1 Hm2 IH2
                 |r1 r2 i s j s' Hm IH|r1 r2 i s j s' Hm IH|i s].
  - exists []. split_and!; [done | done | intros; apply not_elem_of_nil].
  - exists []. split_and!; [done | simpl; lia | intros; apply not_elem_of_nil].
  - exists [c]. split_and!; [done | simpl; lia |].
    intros x Hx. simpl in Hx. apply negb_true_iff in Hx.
    rewrite list_elem_of_singleton. intros ->. congruence.
  - exists w. split_and!; [done | done |].
    intros x Hx Hin. simpl in Hx. apply negb_true_iff in Hx.
    rewrite Forall_forall in Hall. specialize (Hall x Hin). congruence.
  - done.
  - exists []. split_and!; [done | simpl; lia | intros; apply not_elem_of_nil].
  - destruct IH1 as (w1 & -> & -> & H1).
    destruct IH2 as (w2 & -> & -> & H2).
    exists (w1 ++ w2). rewrite length_app, <- app_assoc.
    split_and!; [done | lia |].
    intros x Hx. simpl in Hx. apply andb_true_iff in Hx as [Hx1 Hx2].
    rewrite elem_of_app. intros [?|?]; [by apply (H1 x) | by apply (H2 x)].
  - destruct IH as (w & -> & -> & H1). exists w. split_and!; [done..|].
    intros x Hx. simpl in Hx. apply andb_true_iff in Hx as [Hx1 Hx2]. auto.
  - destruct IH as (w & -> & -> & H1). exists w. split_and!; [done..|].
    intros x Hx. simpl in Hx. apply andb_true_iff in Hx as [Hx1 Hx2]. auto.
  - exists []. split_and!; [done | simpl; lia | intros; apply not_elem_of_nil].
Qed.

Lemma matches_consumes r i s j s' :
  matches r i s j s' -> exists w, s = w ++ s' /\ j = i + length w.
Proof.
  intros H. destruct (matches_prefix _ _ _ _ _ H) as (w & ? & ? & _).
  by exists w.
Qed.

Lemma or_else_Some {A} (x y : option A) (a : A) :
  or_else x y = Some a -> x = Some a \/ y = Some a.
Proof. destruct x; simpl; auto. Qed.

Lemma or_else_is_Some {A} (x y : option A) :
  is_Some x \/ is_Some y -> is_Some (or_else x y).
Proof. destruct x; simpl; [by eexists | by intros [[? [=]]|?]]. Qed.

Section MatcherSpec.
Context {A : Type}.
Implicit Types (k : nat -> text -> option A) (a : A).

Lemma rep_match_sound cs s : forall lo hi i k a,
  rep_match cs lo hi i s k = Some a ->
  exists w s', s = w ++ s' /\
    Forall (fun c => in_cset cs c = true) w /\
    lo <= length w /\ (forall h, hi = Some h -> length w <= h) /\
    k (i + length w) s' = Some a.
Proof.
  assert (Hstop : forall lo hi i (t : text) k a,
    match lo with 0 => k i t | S _ => None end = Some a ->
    exists w s', t = w ++ s' /\
      Forall (fun c => in_cset cs c = true) w /\
      lo <= length w /\ (forall h, hi = Some h -> length w <= h) /\
      k (i + length w) s' = Some a).
  { intros lo hi i t k a H. destruct lo; [|done].
    exists [], t. simpl. rewrite Nat.add_0_r.
    split_and!; auto with lia. }
  induction s as [|c s IH]; intros lo hi i k a H; simpl in H.
  - by apply Hstop.
  - destruct (in_cset cs c && may_repeat hi) eqn:E; [|by apply Hstop].
    apply andb_true_iff in E as [Hc Hhi].
    apply or_else_Some in H as [H|H]; [|by apply Hstop].
    apply IH in H as (w & s' & -> & Hall & Hlo & Hbound & Hk).
    exists (c :: w), s'. simpl.
    replace (i + S (length w)) with (S i + length w) by lia.
    split_and!; auto with lia.
    intros h ->. destruct h; [done|]. simpl in Hbound.
    specialize (Hbound h eq_refl). lia.
Qed.

Lemma rep_match_complete cs w : forall lo hi i s' k,
  Forall (fun c => in_cset cs c = true) w ->
  lo <= length w -> (forall h, hi = Some h -> length w <= h) ->
  is_Some (k (i + length w) s') ->
  is_Some (rep_match cs lo hi i (w ++ s') k).
Proof.
  induction w as [|c w IH]; intros lo hi i s' k Hall Hlo Hbound Hk.
  - simpl in *. assert (lo = 0) as -> by lia.
    rewrite Nat.add_0_r in Hk.
    destruct s' as [|c s']; simpl; [done|].
    destruct (in_cset cs c && may_repeat hi); [|done].
    apply or_else_is_Some. by right.
  - inversion Hall as [|? ? Hc Hall']; subst. simpl.
    rewrite Hc. simpl.
    assert (may_repeat hi = true) as ->.
    { destruct hi as [[|h]|]; try done.
      specialize (Hbound 0 eq_refl). simpl in Hbound. lia. }
    apply or_else_is_Some. left. apply IH; auto.
    + simpl in Hlo. lia.
    + intros h Hh. destruct hi as [h0|]; [|done]. simpl in Hh.
      injection Hh as <-. specialize (Hbound h0 eq_refl). simpl in Hbound. lia.
    + by replace (S i + length w) with (i + length (c :: w)) by (simpl; lia).
Qed.

(** The matcher finds only matches ... *)
Lemma re_run_sound r : forall i s k a,
  re_run r i s k = Some a ->
  exists j s', matches r i s j s' /\ k j s' = Some a.
Proof.
  induction r as [| |cs|cs lo hi|r IH|r1 IH1 r2 IH2|r1 IH1 r2 IH2|];
    intros i s k a H; simpl in H.
  - destruct i; [|done]. exists 0, s. split; [constructor | done].
  - destruct s as [|c [|c' s]]; simpl in H; [ | |done].
    + exists i, []. split; [constructor; auto | done].
    + destruct (N.eqb_spec c 10); [|done]. subst c.
      exists i, [10%N]. split; [constructor; auto | done].
  - destruct s as [|c s]; [done|].
    destruct (in_cset cs c) eqn:E; [|done].
    exists (S i), s. split; [by constructor | done].
  - apply rep_match_sound in H as (w & s' & -> & Hall & Hlo & Hb & Hk).
    exists (i + length w), s'. split; [by constructor | done].
  - apply or_else_Some in H as [H|H].
    + apply IH in H as (j & s' & Hm & Hk).
      exists j, s'. split; [by constructor | done].
    + exists i, s. split; [apply M_opt_none | done].
  - apply IH1 in H as (j & s' & Hm1 & H).
    apply IH2 in H as (j' & s'' & Hm2 & Hk).
    exists j', s''. split; [by econstructor | done].
  - apply or_else_Some in H as [H|H].
    + apply IH1 in H as (j & s' & Hm & Hk).
      exists j, s'. split; [by apply M_alt_l | done].
    + apply IH2 in H as (j & s' & Hm & Hk).
      exists j, s'. split; [by apply M_alt_r | done].
  - exists i, s. split; [constructor | done].
Qed.

(** ... and finds one whenever there is one the continuation accepts. *)
Lemma re_run_complete r i s j s' :
  matches r i s j s' ->
  forall k, is_Some (k j s') -> is_Some (re_run r i s k).
Proof.
  induction 1 as [s|i s Hs|cs c i s Hc|cs lo hi i w s Hall Hlo Hb
                 |r i s j s' Hm IH|r i s
                 |r1 r2 i s j s' j' s'' Hm1 IH1 Hm2 IH2
                 |r1 r2 i s j s' Hm IH|r1 r2 i s j s' Hm IH|i s];
    intros k Hk; simpl.
  - done.
  - by destruct Hs as [->| ->].
  - by rewrite Hc.
  - by apply rep_match_complete.
  - apply or_else_is_Some. left. by apply IH.
  - apply or_else_is_Some. by right.
  - apply IH1. by apply IH2.
  - apply or_else_is_Some. left. by apply IH.
  - apply or_else_is_Some. right. by apply IH.
  - done.
Qed.

End MatcherSpec.

Lemma match_at_matches (r : regex) (i : nat) (s : text) (j : nat) :
  match_at r i s = Some j ->
  i <= j /\ j - i <= length s /\ matches r i s j (drop (j - i) s).
Proof.
  unfold match_at. intros H.
  apply re_run_sound in H as (j' & s' & Hm & [= ->]).
  destruct (matches_consumes _ _ _ _ _ Hm) as (w & -> & ->).
  replace (i + length w - i) with (length w) by lia.
  rewrite drop_app_length, length_app. split_and!; [lia | lia | done].
Qed.

(** [re.match] succeeds exactly when the pattern matches some prefix
    of the string; what follows the prefix is not looked at. *)
Lemma re_match_spec (r : regex) (s : text) :
  re_match r s = true <->
  exists w rest, s = w ++ rest /\ matches r 0 s (length w) rest.
Proof.
  unfold re_match, match_at. rewrite bool_decide_eq_true. split.
  - intros [j H]. apply re_run_sound in H as (j' & s' & Hm & _).
    destruct (matches_consumes _ _ _ _ _ Hm) as (w & -> & ->).
    by exists w, s'.
  - intros (w & rest & -> & Hm).
    by apply (re_run_complete _ _ _ _ _ Hm).
Qed.

(** C5: a string is a pattern exactly when one of the recognizers
    matches a prefix of it, whatever follows the prefix; and
    ["https://example.com"] is a pattern through a recognizer that
    matches its first eight characters only, while no recognizer matches
    the string as a whole. *)
Theorem is_pattern_only_prefix_match :
  (forall key,
     is_pattern_only key = true <->
     exists pattern w rest,
       pattern ∈ COPY_PATTERNS /\ key = w ++ rest /\
       matches pattern 0 key (length w) rest) /\
  (forall pattern w rest,
     pattern ∈ COPY_PATTERNS ->
     matches pattern 0 (w ++ rest) (length w) rest ->
     is_pattern_only (w ++ rest) = true) /\
  (exists pattern,
     pattern ∈ COPY_PATTERNS /\
     matches pattern 0 (str "https://example.com") 8 (str "example.com")) /\
  is_pattern_only (str "https://example.com") = true /\
  (forall pattern,
     pattern ∈ COPY_PATTERNS ->
     ~ matches pattern 0 (str "https://example.com")
         (length (str "https://example.com")) []).
Proof.
  assert (Hiff : forall key,
     is_pattern_only key = true <->
     exists pattern w rest,
       pattern ∈ COPY_PATTERNS /\ key = w ++ rest /\
       matches pattern 0 key (length w) rest).
  { intros key. unfold is_pattern_only. rewrite existsb_exists. split.
    - intros (r & Hin & Hm). apply re_match_spec in Hm as (w & rest & ? & ?).
      exists r, w, rest. by rewrite list_elem_of_In.
    - intros (r & w & rest & Hin & Heq & Hm). exists r.
      rewrite <- list_elem_of_In. split; [done|].
      apply re_match_spec. by exists w, rest. }
  split_and!.
  - exact Hiff.
  - intros r w rest Hin Hm. apply Hiff. by exists r, w, rest.
  - eexists. split.
    + unfold COPY_PATTERNS. do 7 apply list_elem_of_further.
      apply list_elem_of_here.
    + assert (Hm : match_at
                     (rseq [RBol; lit "http"; ROpt (lit "s"); lit "://"])
                     0 (str "https://example.com") = Some 8) by reflexivity.
      apply match_at_matches in Hm as (_ & _ & Hm). exact Hm.
  - reflexivity.
  - intros r Hin Hm.
    pose (k := fun (j : nat) (s' : text) =>
                 match s' with [] => Some j | _ => None end).
    assert (Hk : is_Some (re_run r 0 (str "https://example.com") k)).
    { by apply (re_run_complete _ _ _ _ _ Hm). }
    revert Hk. unfold COPY_PATTERNS in Hin.
    repeat (apply elem_of_cons in Hin as [->|Hin];
            [vm_compute; by intros [? [=]]|]).
    by apply elem_of_nil in Hin.
Qed.

(** ** String operations *)

Arguments str_replace : simpl never.

Lemma starts_with_spec (p s : text) :
  starts_with p s = true <-> exists rest, s = p ++ rest.
Proof.
  revert s. induction p as [|a p IH]; intros s; simpl.
  - split; [by exists s | done].
  - destruct s as [|b s]; [split; [done | by intros [? [=]]]|].
    rewrite andb_true_iff, IH, N.eqb_eq. split.
    + intros [-> [rest ->]]. by exists rest.
    + intros [rest [= -> ->]]. split; [done | by exists rest].
Qed.

Lemma starts_with_app (p rest : text) : starts_with p (p ++ rest) = true.
Proof. apply starts_with_spec. by exists rest. Qed.

Lemma str_contains_spec (p s : text) :
  str_contains p s = true <-> exists u v, s = u ++ p ++ v.
Proof.
  induction s as [|c s IH]; simpl.
  - rewrite orb_false_r, starts_with_spec. split.
    + intros [rest H]. by exists [], rest.
    + intros (u & v & H). destruct u; [by exists v|done].
  - rewrite orb_true_iff, starts_with_spec, IH. split.
    + intros [[rest H]|(u & v & H)].
      * by exists [], rest.
      * exists (c :: u), v. by rewrite H.
    + intros (u & v & H). destruct u as [|c' u]; simpl in H.
      * left. by exists v.
      * injection H as -> ->. right. by exists u, v.
Qed.

Lemma str_contains_false_app (p a m b : text) :
  str_contains p (a ++ m ++ b) = false ->
  str_contains p a = false /\ str_contains p b = false.
Proof.
  intros H. split; apply not_true_is_false; intros Hc;
    apply str_contains_spec in Hc as (u & v & ->);
    apply not_true_iff_false in H; apply H, str_contains_spec.
  - exists u, (v ++ m ++ b). by rewrite <- !app_assoc.
  - exists (a ++ m ++ u), v. by rewrite <- !app_assoc.
Qed.

Lemma replace_scan_skip (old new : text) (count : option nat) (s : text) :
  forall n, replace_scan old new count n s =
            replace_scan old new count 0 (drop n s).
Proof.
  induction s as [|c s IH]; intros n.
  - by rewrite drop_nil.
  - destruct n as [|n]; [done|]. simpl. apply IH.
Qed.

(** The three equations of [str.replace] for a non-empty [old]. *)
Lemma str_replace_nil (old new : text) (count : option nat) :
  old <> [] -> str_replace old new count [] = [].
Proof. by destruct old. Qed.

Lemma str_replace_here (old new : text) (count : option nat) (rest : text) :
  old <> [] -> count_allows count = true ->
  str_replace old new count (old ++ rest) =
  new ++ str_replace old new (pred <$> count) rest.
Proof.
  destruct old as [|o old]; [done|]. intros _ Hc. unfold str_replace.
  change ((o :: old) ++ rest) with (o :: (old ++ rest)).
  cbn [replace_scan]. rewrite Hc.
  change (o :: (old ++ rest)) with ((o :: old) ++ rest).
  rewrite starts_with_app. simpl. f_equal.
  rewrite replace_scan_skip. by rewrite Nat.sub_0_r, drop_app_length.
Qed.

Lemma str_replace_next (old new : text) (count : option nat) (c : N)
    (s : text) :
  old <> [] -> count_allows count && starts_with old (c :: s) = false ->
  str_replace old new count (c :: s) = c :: str_replace old new count s.
Proof.
  destruct old as [|o old]; [done|]. intros _ H. unfold str_replace.
  cbn [replace_scan]. by rewrite H.
Qed.

Lemma str_replace_exhausted (old new : text) (s : text) :
  old <> [] -> str_replace old new (Some 0) s = s.
Proof.
  intros Hne. induction s as [|c s IH].
  - by apply str_replace_nil.
  - rewrite str_replace_next; [by rewrite IH | done | done].
Qed.

(** [s.replace(old, new, 1)] either finds nothing or swaps one
    occurrence of [old] for [new]. *)
Lemma str_replace_first (old new s : text) :
  old <> [] ->
  str_replace old new (Some 1) s = s \/
  exists a b, s = a ++ old ++ b /\
              str_replace old new (Some 1) s = a ++ new ++ b.
Proof.
  intros Hne. induction s as [|c s IH].
  - left. by apply str_replace_nil.
  - destruct (starts_with old (c :: s)) eqn:E.
    + apply starts_with_spec in E as [rest E]. right. exists [], rest.
      rewrite E. split; [done|].
      rewrite str_replace_here by done. simpl.
      by rewrite str_replace_exhausted.
    + rewrite str_replace_next by (by rewrite ?E). 
      destruct IH as [->|(a & b & -> & ->)]; [by left|].
      right. by exists (c :: a), b.
Qed.

(** [s.replace(old, new)] finds nothing where [old] does not occur. *)
Lemma str_replace_absent (old new s : text) :
  old <> [] -> str_contains old s = false ->
  str_replace old new None s = s.
Proof.
  intros Hne. induction s as [|c s IH]; intros H.
  - by apply str_replace_nil.
  - simpl in H. apply orb_false_iff in H as [H1 H2].
    rewrite str_replace_next by (by rewrite ?H1).
    by rewrite IH.
Qed.

(** *** Replacing a pattern around a piece it cannot overlap *)

Lemma str_replace_literal (o : N) (body new a rest : text) :
  o ∉ a ->
  str_replace (o :: body) new None (a ++ rest) =
  a ++ str_replace (o :: body) new None rest.
Proof.
  induction a as [|c a IH]; intros Ha; [done|].
  apply not_elem_of_cons in Ha as [Hc Ha]. simpl.
  rewrite str_replace_next; [by rewrite IH | done |].
  simpl. destruct (N.eqb_spec o c); [congruence | done].
Qed.

(** A pattern that starts inside [a] cannot reach into a piece whose
    first character the pattern has nowhere after its own first one. *)
Lemma starts_with_no_straddle (p a m u : text) (c : N) :
  head m = Some c -> c ∉ tail p -> a <> [] ->
  starts_with p (a ++ m ++ u) = true ->
  exists a', a = p ++ a'.
Proof.
  intros Hm Hc Ha H. apply starts_with_spec in H as [rest H].
  apply app_eq_inv in H as [(k & Hk & _)|(k & Hk & Hk')]; [by exists k|].
  destruct k as [|x k]; [exists []; rewrite app_nil_r in *; by subst |].
  exfalso. apply Hc.
  destruct m as [|c' m]; [done|]. simpl in Hm. injection Hm as ->.
  simpl in Hk'. injection Hk' as <- _.
  destruct a as [|a0 a]; [done|]. subst p. simpl.
  apply elem_of_app. right. apply list_elem_of_here.
Qed.

Lemma str_replace_split (p new X a m b : text) (c : N) :
  p <> [] -> head m = Some c -> c ∉ tail p ->
  (forall b', str_replace p new None (m ++ b') =
              X ++ str_replace p new None b') ->
  str_replace p new None (a ++ m ++ b) =
  str_replace p new None a ++ X ++ str_replace p new None b.
Proof.
  intros Hp Hm Hc HX.
  remember (length a) as n eqn:Hn. revert a Hn.
  induction n as [n IH] using lt_wf_ind. intros a Hn.
  destruct a as [|a0 a].
  - simpl. by rewrite HX, str_replace_nil.
  - destruct (starts_with p ((a0 :: a) ++ m ++ b)) eqn:E.
    + destruct (starts_with_no_straddle p (a0 :: a) m b c) as [a' Ha'];
        [done..|].
      rewrite Ha', <- app_assoc.
      rewrite !str_replace_here by done. rewrite <- app_assoc. f_equal.
      apply (IH (length a')); [|done].
      rewrite Hn, Ha', length_app. destruct p; [done|]. simpl. lia.
    + assert (E' : starts_with p (a0 :: a) = false).
      { apply not_true_is_false. intros H.
        apply starts_with_spec in H as [rest H].
        apply not_true_iff_false in E. apply E, starts_with_spec.
        exists (rest ++ m ++ b). by rewrite H, <- app_assoc. }
      change ((a0 :: a) ++ m ++ b) with (a0 :: (a ++ m ++ b)) in *.
      rewrite !str_replace_next by (by rewrite ?E, ?E').
      simpl. f_equal. apply (IH (length a)); [|done].
      rewrite Hn. simpl. lia.
Qed.

(** Restoring passes around a piece [m] that every placeholder of the
    list leaves alone. *)
Lemma restore_split (placeholders : list (text * text)) (m : text) (c : N) :
  head m = Some c ->
  (forall p spec, (p, spec) ∈ placeholders ->
     p <> [] /\ (c ∉ tail p) /\
     (forall b, str_replace p spec None (m ++ b) =
                m ++ str_replace p spec None b)) ->
  forall a b,
    _restore_format_specifiers (a ++ m ++ b) placeholders =
    _restore_format_specifiers a placeholders ++ m ++
    _restore_format_specifiers b placeholders.
Proof.
  intros Hm. unfold _restore_format_specifiers.
  induction placeholders as [|[p spec] pls IH]; intros Hpls a b; [done|].
  simpl. destruct (Hpls p spec) as (Hp & Hc & HX); [apply list_elem_of_here|].
  rewrite (str_replace_split p spec m a m b c) by done.
  apply IH. intros p' spec' Hin. apply Hpls. by apply list_elem_of_further.
Qed.

(** *** Markers *)

Lemma uint_codes_digits (d : Decimal.uint) :
  Forall (fun c => (48 <= c <= 57)%N) (uint_codes d).
Proof. induction d; simpl; constructor; (lia || done). Qed.

Lemma uint_codes_inj (d1 d2 : Decimal.uint) :
  uint_codes d1 = uint_codes d2 -> d1 = d2.
Proof.
  revert d2. induction d1; intros []; simpl; intros [=]; try done;
    f_equal; auto.
Qed.

Lemma format_int_inj (i j : nat) : format_int i = format_int j -> i = j.
Proof.
  unfold format_int. intros H. apply uint_codes_inj in H.
  by rewrite <- (Unsigned.of_to i), <- (Unsigned.of_to j), H.
Qed.

Lemma format_int_digits (i : nat) (c : N) :
  c ∈ format_int i -> (48 <= c <= 57)%N.
Proof.
  intros Hin. pose proof (uint_codes_digits (Nat.to_uint i)) as H.
  rewrite Forall_forall in H. by apply H.
Qed.

Lemma placeholder_tail (i : nat) (c : N) :
  c ∈ tail (placeholder_of i) -> (48 <= c <= 57)%N \/ c = MARKER_CLOSE.
Proof.
  unfold placeholder_of. simpl. rewrite elem_of_app, list_elem_of_singleton.
  intros [H| ->]; [left; by apply (format_int_digits i) | by right].
Qed.

Lemma placeholder_nonempty (i : nat) : placeholder_of i <> [].
Proof. done. Qed.

Lemma digits_close_prefix (d1 d2 x y : text) :
  MARKER_CLOSE ∉ d1 -> MARKER_CLOSE ∉ d2 ->
  d1 ++ MARKER_CLOSE :: x = d2 ++ MARKER_CLOSE :: y -> d1 = d2.
Proof.
  revert d2. induction d1 as [|a d1 IH]; intros [|b d2] H1 H2 H;
    simpl in H.
  - done.
  - injection H as <- _. exfalso. apply H2, list_elem_of_here.
  - injection H as -> _. exfalso. apply H1, list_elem_of_here.
  - injection H as -> H. f_equal.
    apply not_elem_of_cons in H1 as [_ H1].
    apply not_elem_of_cons in H2 as [_ H2]. by apply IH.
Qed.

Lemma format_int_no_close (i : nat) : MARKER_CLOSE ∉ format_int i.
Proof.
  intros H. apply format_int_digits in H. unfold MARKER_CLOSE in H. lia.
Qed.

Lemma format_int_no_open (i : nat) : MARKER_OPEN ∉ format_int i.
Proof.
  intros H. apply format_int_digits in H. unfold MARKER_OPEN in H. lia.
Qed.

(** Two different markers: one is no prefix of the other followed by
    anything. *)
Lemma placeholder_distinct (i j : nat) (rest : text) :
  i <> j -> starts_with (placeholder_of i) (placeholder_of j ++ rest) = false.
Proof.
  intros Hne. apply not_true_is_false. intros H.
  apply starts_with_spec in H as [u H]. apply Hne. symmetry.
  apply format_int_inj. unfold placeholder_of in H. simpl in H.
  injection H as H. rewrite <- !app_assoc in H. simpl in H.
  by apply (digits_close_prefix _ _ _ _
              (format_int_no_close j) (format_int_no_close i)) in H.
Qed.

(** A marker other than [i] is left alone by the replacement of marker
    [i]. *)
Lemma str_replace_other_marker (i j : nat) (new b : text) :
  i <> j ->
  str_replace (placeholder_of i) new None (placeholder_of j ++ b) =
  placeholder_of j ++ str_replace (placeholder_of i) new None b.
Proof.
  intros Hne. pose proof (placeholder_distinct i j b Hne) as Hd.
  unfold placeholder_of in *. simpl in *.
  rewrite str_replace_next; [|done|exact Hd].
  f_equal. rewrite <- !app_assoc.
  rewrite str_replace_literal; [|apply format_int_no_open].
  by f_equal.
Qed.

(** ** Specifier codec *)

(** Every element of [re.findall] is the text of a match. *)
Lemma findall_from_elem (r : regex) (s : text) :
  forall i skip x,
    x ∈ findall_from r i s skip ->
    exists i' pre s1 j,
      s = pre ++ s1 /\ match_at r i' s1 = Some j /\ x = take (j - i') s1.
Proof.
  induction s as [|c s IH]; intros i skip x Hx; simpl in Hx.
  - destruct skip; [|by apply elem_of_nil in Hx].
    destruct (match_at r i []) as [j|] eqn:E; [|by apply elem_of_nil in Hx].
    apply list_elem_of_singleton in Hx. by exists i, [], [], j.
  - assert (Hrest : forall i' skip',
              x ∈ findall_from r i' s skip' ->
              exists i'' pre s1 j,
                c :: s = pre ++ s1 /\ match_at r i'' s1 = Some j /\
                x = take (j - i'') s1).
    { intros i' skip' H. apply IH in H as (i'' & pre & s1 & j & -> & ? & ?).
      by exists i'', (c :: pre), s1, j. }
    destruct skip as [|n]; [|by apply Hrest in Hx].
    destruct (match_at r i (c :: s)) as [j|] eqn:E; [|by apply Hrest in Hx].
    apply elem_of_cons in Hx as [->|Hx]; [|by apply Hrest in Hx].
    by exists i, [], (c :: s), j.
Qed.

Lemma match_at_text (r : regex) (i : nat) (s : text) (j : nat) :
  match_at r i s = Some j ->
  matches r i s j (drop (j - i) s) /\
  forall x, avoids x r = true -> x ∉ take (j - i) s.
Proof.
  intros H. apply match_at_matches in H as (_ & _ & Hm). split; [done|].
  destruct (matches_prefix _ _ _ _ _ Hm) as (w & Heq & -> & Hav).
  replace (i + length w - i) with (length w) in * by lia.
  intros x Hx. rewrite Heq, take_app_length. by apply Hav.
Qed.

Lemma matches_seq_inv r1 r2 i s k s'' :
  matches (RSeq r1 r2) i s k s'' ->
  exists j s', matches r1 i s j s' /\ matches r2 j s' k s''.
Proof. inversion 1; subst; eauto. Qed.

Lemma matches_alt_inv r1 r2 i s j s' :
  matches (RAlt r1 r2) i s j s' ->
  matches r1 i s j s' \/ matches r2 i s j s'.
Proof. inversion 1; subst; eauto. Qed.

Lemma matches_set_inv cs i s j s' :
  matches (RSet cs) i s j s' ->
  exists c, s = c :: s' /\ j = S i /\ in_cset cs c = true.
Proof. inversion 1; subst; eauto. Qed.

Lemma matches_eps_inv i s j s' : matches REps i s j s' -> s = s' /\ j = i.
Proof. by inversion 1; subst. Qed.

(** A match of the specifier pattern starts with a percent sign. *)
Lemma specifier_match_head (i : nat) (s : text) (j : nat) (s' : text) :
  matches specifier_pattern i s j s' ->
  exists s0, s = 37%N :: s0 /\ i < j.
Proof.
  assert (Hset : forall i s j s',
            matches (RSet [CChar 37%N]) i s j s' ->
            s = 37%N :: s' /\ j = S i).
  { intros i0 s1 j0 s1' H.
    apply matches_set_inv in H as (c & -> & -> & Hc).
    simpl in Hc. rewrite orb_false_r in Hc. apply N.eqb_eq in Hc. by subst. }
  intros H. unfold specifier_pattern in H.
  apply matches_alt_inv in H as [H|H].
  - apply matches_seq_inv in H as (j1 & s1 & H1 & H2).
    apply matches_seq_inv in H1 as (j2 & s2 & H3 & H4).
    apply Hset in H3 as [-> ->].
    apply matches_eps_inv in H4 as [-> ->].
    apply matches_consumes in H2 as (w & -> & ->).
    eexists. split; [done | lia].
  - apply matches_seq_inv in H as (j1 & s1 & H1 & H2).
    apply Hset in H1 as [-> ->].
    apply matches_consumes in H2 as (w & -> & ->).
    eexists. split; [done | lia].
Qed.

Lemma findall_specifier_like (t x : text) :
  x ∈ re_findall specifier_pattern t -> specifier_like x.
Proof.
  intros Hx. apply findall_from_elem in Hx as (i & pre & s & j & _ & Hm & ->).
  pose proof (match_at_matches _ _ _ _ Hm) as (Hij & _ & _).
  apply match_at_text in Hm as [Hm Hav]. split.
  - apply specifier_match_head in Hm as (s0 & -> & Hlt).
    destruct (j - i) as [|n] eqn:E; [lia | done].
  - by apply Hav.
Qed.

Lemma placeholders_elem (l : list text) (p spec : text) :
  (p, spec) ∈ imap (fun i s => (placeholder_of i, s)) l ->
  exists k, k < length l /\ p = placeholder_of k.
Proof.
  intros H. apply list_elem_of_lookup in H as [k H].
  rewrite list_lookup_imap in H.
  destruct (l !! k) as [s|] eqn:E; simpl in H; [|done].
  injection H as <- _. exists k. split; [|done].
  by apply lookup_lt_Some in E.
Qed.

Lemma enumerate_snoc {A} (l : list A) (x : A) :
  enumerate (l ++ [x]) = enumerate l ++ [(length l, x)].
Proof.
  unfold enumerate. rewrite imap_app. simpl. by rewrite Nat.add_0_r.
Qed.

(** The loop of [_protect_format_specifiers] and the loop of
    [_restore_format_specifiers] undo each other as long as the text
    holds none of the markers the first loop writes. *)
Lemma protect_loop_restore (t : text) (l : list text) :
  Forall specifier_like l ->
  (forall i, i < length l -> str_contains (placeholder_of i) t = false) ->
  (foldl protect_step (t, []) (enumerate l)).2 =
    imap (fun i s => (placeholder_of i, s)) l /\
  _restore_format_specifiers
    (foldl protect_step (t, []) (enumerate l)).1
    (foldl protect_step (t, []) (enumerate l)).2 = t.
Proof.
  induction l as [|x l IH] using rev_ind; intros Hl Hfree; [done|].
  apply Forall_app in Hl as [Hl Hx]. rewrite Forall_singleton in Hx.
  destruct Hx as [Hhead Hopen].
  rewrite length_app in Hfree. simpl in Hfree.
  destruct IH as [IHpls IHrt]; [done | intros i Hi; apply Hfree; lia |].
  rewrite enumerate_snoc, foldl_snoc.
  destruct (foldl protect_step (t, []) (enumerate l)) as [tn pls].
  simpl in IHpls, IHrt. subst pls. simpl.
  set (pls := imap (fun i s => (placeholder_of i, s)) l) in *.
  set (n := length l) in *.
  split.
  { rewrite imap_app. simpl. by rewrite Nat.add_0_r. }
  assert (Hx : x <> []) by (by destruct x).
  (* what restoring the earlier markers does around a specifier ... *)
  assert (Hspec : forall a b,
            _restore_format_specifiers (a ++ x ++ b) pls =
            _restore_format_specifiers a pls ++ x ++
            _restore_format_specifiers b pls).
  { apply (restore_split pls x 37%N Hhead).
    intros p spec Hin. apply placeholders_elem in Hin as (k & Hk & ->).
    split_and!; [done | |].
    - intros Hc. apply placeholder_tail in Hc as [Hc|Hc]; [lia | done].
    - intros b. by apply str_replace_literal. }
  (* ... and around the new marker *)
  assert (Hmark : forall a b,
            _restore_format_specifiers (a ++ placeholder_of n ++ b) pls =
            _restore_format_specifiers a pls ++ placeholder_of n ++
            _restore_format_specifiers b pls).
  { apply (restore_split pls (placeholder_of n) MARKER_OPEN eq_refl).
    intros p spec Hin. apply placeholders_elem in Hin as (k & Hk & ->).
    split_and!; [done | |].
    - intros Hc. apply placeholder_tail in Hc as [Hc|Hc]; [|done].
      unfold MARKER_OPEN in Hc. lia.
    - intros b. apply str_replace_other_marker. unfold n. lia. }
  assert (Hn : str_contains (placeholder_of n) t = false)
    by (apply Hfree; lia).
  unfold _restore_format_specifiers at 1. rewrite foldl_snoc.
  fold (_restore_format_specifiers
          (str_replace x (placeholder_of n) (Some 1) tn) pls).
  destruct (str_replace_first x (placeholder_of n) tn Hx)
    as [->|(a & b & -> & ->)].
  - rewrite IHrt. by apply str_replace_absent.
  - rewrite Hspec in IHrt. rewrite Hmark.
    rewrite (str_replace_split (placeholder_of n) x x _ (placeholder_of n) _
               MARKER_OPEN); [| done | done | |].
    + rewrite <- IHrt in Hn.
      apply str_contains_false_app in Hn as [Ha Hb].
      by rewrite !str_replace_absent.
    + intros Hc. apply placeholder_tail in Hc as [Hc|Hc]; [|done].
      unfold MARKER_OPEN in Hc. lia.
    + intros b'. by apply str_replace_here.
Qed.

Lemma markers_free_spec (t : text) :
  markers_free t = true ->
  forall i, i < length (re_findall specifier_pattern t) ->
            str_contains (placeholder_of i) t = false.
Proof.
  unfold markers_free. rewrite forallb_forall. intros H i Hi.
  apply negb_true_iff, H, in_seq. lia.
Qed.

(** A text without the opening bracket holds no marker at all. *)
Lemma markers_free_no_bracket (t : text) :
  MARKER_OPEN ∉ t -> markers_free t = true.
Proof.
  intros Hopen. unfold markers_free. apply forallb_forall. intros i _.
  apply negb_true_iff, not_true_is_false. intros H.
  apply str_contains_spec in H as (u & v & ->). apply Hopen.
  rewrite elem_of_app. right. apply list_elem_of_here.
Qed.

(** C1: protecting a text and restoring it with the placeholder list
    obtained gives the text back, for every text that holds none of the
    markers the protection writes for it. *)
Theorem protect_restore_roundtrip (t : text) :
  markers_free t = true ->
  _restore_format_specifiers (_protect_format_specifiers t).1
                             (_protect_format_specifiers t).2 = t.
Proof.
  intros Hfree. unfold _protect_format_specifiers.
  pose proof (markers_free_spec t Hfree) as Hm.
  assert (Hl : Forall specifier_like (re_findall specifier_pattern t)).
  { apply Forall_forall. intros x Hx. by apply (findall_specifier_like t). }
  destruct (re_findall specifier_pattern t) as [|x l] eqn:E; [done|].
  by apply protect_loop_restore.
Qed.

Lemma protect_restore_roundtrip_witness :
  markers_free (str "Hello %@, you have %d new messages") = true /\
  _restore_format_specifiers
    (_protect_format_specifiers (str "Hello %@, you have %d new messages")).1
    (_protect_format_specifiers (str "Hello %@, you have %d new messages")).2
  = str "Hello %@, you have %d new messages".
Proof.
  split; [reflexivity | apply protect_restore_roundtrip; reflexivity].
Defined.

(** C1, as stated for every text, fails on a text that holds a marker:
    restoring turns the marker of the text into a specifier too. *)
Lemma roundtrip_fails_on_marker :
  _restore_format_specifiers (_protect_format_specifiers text_with_marker).1
                             (_protect_format_specifiers text_with_marker).2
    = str "%d %d" /\
  str "%d %d" <> text_with_marker.
Proof. split; [reflexivity | discriminate]. Qed.

Lemma protect_nothing_found (t : text) :
  re_findall specifier_pattern t = [] ->
  _protect_format_specifiers t = (t, []).
Proof. unfold _protect_format_specifiers. by intros ->. Qed.

Lemma restore_nothing (t : text) : _restore_format_specifiers t [] = t.
Proof. reflexivity. Qed.

(** What the scan takes for a specifier starts at a percent sign of the
    text: a text without one is returned as it is. *)
Lemma protect_without_percent (t : text) :
  37%N ∉ t -> _protect_format_specifiers t = (t, []).
Proof.
  intros Hp. apply protect_nothing_found.
  destruct (re_findall specifier_pattern t) as [|x l] eqn:E; [done|].
  exfalso. apply Hp.
  assert (Hx : x ∈ re_findall specifier_pattern t)
    by (rewrite E; apply list_elem_of_here).
  apply findall_from_elem in Hx as (i & pre & s & j & -> & Hm & _).
  apply match_at_matches in Hm as (_ & _ & Hm).
  apply specifier_match_head in Hm as (s0 & -> & _).
  rewrite elem_of_app. right. apply list_elem_of_here.
Qed.

(** C6: ["100%left"] holds no format specifier for
    [has_format_specifiers], and yet [_protect_format_specifiers] does
    not return it unchanged with an empty list: the class [[@lld]+] of
    its pattern takes ["%l"] for a specifier. *)
Theorem protect_rewrites_percent_l :
  has_format_specifiers (str "100%left") = false /\
  _protect_format_specifiers (str "100%left") =
    (str "100" ++ placeholder_of 0 ++ str "eft",
     [(placeholder_of 0, str "%l")]) /\
  _protect_format_specifiers (str "100%left") <> (str "100%left", []).
Proof. split_and!; [reflexivity | reflexivity | discriminate]. Qed.

(** ** Batch translation pipeline *)

Lemma bump_0 (st : LocalizationStats) : bump 0 0 0 st = st.
Proof. destruct st. unfold bump. simpl. f_equal; lia. Qed.

Lemma bump_bump (a b c a' b' c' : nat) (st : LocalizationStats) :
  bump a b c (bump a' b' c' st) = bump (a' + a) (b' + b) (c' + c) st.
Proof. unfold bump. simpl. f_equal; lia. Qed.

Lemma failed_succeeded_length (pairs : list (TranslationTask * option text)) :
  length (succeeded_of pairs) + length (failed_of pairs) = length pairs.
Proof.
  induction pairs as [|[t tr] pairs IH]; [done|].
  unfold succeeded_of, failed_of in *. rewrite !filter_cons. simpl.
  destruct (truthy tr) eqn:E; repeat case_decide; try done; simpl; lia.
Qed.

Lemma copy_loop (dry_run : bool) (lang : text) (tasks : list TranslationTask) :
  forall st entries,
    foldl (copy_step dry_run lang) (st, entries) tasks =
    (bump (length tasks) 0 0 st,
     if dry_run then entries
     else apply_writes lang (copy_write <$> tasks) entries).
Proof.
  induction tasks as [|task tasks IH]; intros st entries; simpl.
  - rewrite bump_0. by destruct dry_run.
  - rewrite IH. f_equal.
    + unfold incr_patterns_copied, bump. simpl. f_equal; lia.
    + by destruct dry_run.
Qed.

Lemma merge_loop (dry_run : bool) (lang : text)
    (pairs : list (TranslationTask * option text)) :
  forall st entries,
    foldl (merge_step dry_run lang) (st, entries) pairs =
    (bump (length (failed_of pairs)) (length (succeeded_of pairs))
          (length (failed_of pairs)) st,
     if dry_run then entries
     else apply_writes lang (merge_write <$> pairs) entries).
Proof.
  induction pairs as [|[task tr] pairs IH]; intros st entries.
  - simpl. rewrite bump_0. by destruct dry_run.
  - unfold failed_of, succeeded_of in *. rewrite !filter_cons.
    cbn [foldl merge_step].
    destruct tr as [[|c t]|]; simpl; repeat case_decide; try done;
      rewrite IH; simpl; (f_equal; [|by destruct dry_run]);
      unfold incr_patterns_copied, incr_errors, incr_texts_translated, bump;
      simpl; f_equal; lia.
Qed.

Lemma apply_writes_app (lang : text) (w1 w2 : list (nat * text))
    (entries : list (text * StringData)) :
  apply_writes lang (w1 ++ w2) entries =
  apply_writes lang w2 (apply_writes lang w1 entries).
Proof. unfold apply_writes. by rewrite foldl_app. Qed.

Lemma collect_tasks_snoc (lang : text) (st : LocalizationStats)
    (entries : list (text * StringData)) (e : text * StringData) :
  collect_tasks lang st (entries ++ [e]) =
  collect_step lang (collect_tasks lang st entries) (length entries, e).
Proof. unfold collect_tasks. by rewrite enumerate_snoc, foldl_snoc. Qed.



(** What the collection loop leaves: one task per missing key, each
    pointing at its own entry, and the counters of the run untouched. *)
Lemma collect_tasks_spec (lang : text) (st : LocalizationStats)
    (entries : list (text * StringData)) :
  let r := collect_tasks lang st entries in
  missing r.1 = missing st + length r.2 /\
  patterns_copied r.1 = patterns_copied st /\
  texts_translated r.1 = texts_translated st /\
  errors r.1 = errors st /\
  length r.2 = length (missing_entries lang entries) /\
  NoDup (string_data <$> r.2) /\
  (forall task, task ∈ r.2 ->
     exists sd, entries !! string_data task = Some (key task, sd) /\
                source_value task = get_source_value (key task) sd /\
                is_translated sd lang = false).
Proof.
  induction entries as [|[k sd] entries IH] using rev_ind.
  - simpl. split_and!; try done; try lia.
    + constructor.
    + intros task H. by apply elem_of_nil in H.
  - rewrite collect_tasks_snoc. unfold missing_entries in *.
    rewrite filter_app, length_app, filter_cons, filter_nil.
    destruct (collect_tasks lang st entries) as [st1 tasks].
    simpl in IH. destruct IH as (Hm & Hp & Ht & He & Hlen & Hnd & Htasks).
    assert (Hold : forall task, task ∈ tasks ->
              exists sd0, (entries ++ [(k, sd)]) !! string_data task
                            = Some (key task, sd0) /\
                          source_value task = get_source_value (key task) sd0 /\
                          is_translated sd0 lang = false).
    { intros task Hin. destruct (Htasks task Hin) as (sd0 & Hl & Hs & Hn).
      exists sd0. split_and!; [|done..].
      by apply lookup_app_l_Some. }
    unfold collect_step. simpl.
    destruct (is_blank k) eqn:Eb; simpl.
    { split_and!; try done; lia. }
    destruct (is_translated sd lang) eqn:Et; simpl.
    { split_and!; try done; lia. }
    rewrite length_app. simpl. split_and!; try done; try lia.
    + rewrite fmap_app. simpl. apply NoDup_app. split_and!; [done | |].
      * intros i Hi Hi'. apply list_elem_of_singleton in Hi'. subst i.
        apply list_elem_of_fmap in Hi as (task & Heq & Hin).
        destruct (Htasks task Hin) as (sd0 & Hl & _).
        apply lookup_lt_Some in Hl. lia.
      * apply NoDup_singleton.
    + intros task Hin. apply elem_of_app in Hin as [Hin|Hin]; [by apply Hold|].
      apply list_elem_of_singleton in Hin. subst task. simpl.
      exists sd. split_and!; [|done..].
      rewrite lookup_app_r by lia. by rewrite Nat.sub_diag.
Qed.

Section PipelineProperties.

Variable TRANSLATOR_AVAILABLE : bool.
Variable Service : Type.
Variable service_translate :
  Service -> text -> list text -> Service * option (list (option text)).

#[local] Abbreviation translate_batch :=
  (translate_batch TRANSLATOR_AVAILABLE Service service_translate).
#[local] Abbreviation translate_all :=
  (translate_all TRANSLATOR_AVAILABLE Service service_translate).
#[local] Abbreviation process_language :=
  (process_language TRANSLATOR_AVAILABLE Service service_translate).
#[local] Abbreviation language_step :=
  (language_step TRANSLATOR_AVAILABLE Service service_translate).
#[local] Abbreviation process_missing_translations :=
  (process_missing_translations TRANSLATOR_AVAILABLE Service
                                service_translate).
#[local] Abbreviation translations_of :=
  (translations_of TRANSLATOR_AVAILABLE Service service_translate).
#[local] Abbreviation merged_of :=
  (merged_of TRANSLATOR_AVAILABLE Service service_translate).
#[local] Abbreviation language_outcome :=
  (language_outcome TRANSLATOR_AVAILABLE Service service_translate).
#[local] Abbreviation language_writes :=
  (language_writes TRANSLATOR_AVAILABLE Service service_translate).
#[local] Abbreviation answers_every_text :=
  (answers_every_text Service service_translate).

Lemma process_language_eq (dry_run : bool) (lang : text)
    (st : LocalizationStats) (entries : list (text * StringData))
    (svc : Service) :
  process_language dry_run lang st entries svc =
  ((language_outcome lang st entries svc).1,
   if dry_run then entries
   else apply_writes lang (language_writes lang st entries svc) entries,
   (language_outcome lang st entries svc).2).
Proof.
  unfold process_language, language_outcome, language_writes,
    merged_of, translations_of, patterns_of, to_translate_of, tasks_of.
  destruct (collect_tasks lang st entries) as [st1 tasks]. simpl.
  destruct tasks as [|task tasks].
  { rewrite !filter_nil. simpl. rewrite bump_0.
    destruct dry_run, TRANSLATOR_AVAILABLE; done. }
  set (all := task :: tasks).
  rewrite copy_loop.
  destruct (filter (fun t => ~ is_pattern t = true) all) as [|t0 to_tr] eqn:E.
  { simpl. destruct dry_run; [done|].
    destruct TRANSLATOR_AVAILABLE; simpl; by rewrite app_nil_r. }
  destruct (translate_all lang (source_value <$> t0 :: to_tr) svc)
    as [trs svc'] eqn:Etr.
  destruct TRANSLATOR_AVAILABLE.
  - rewrite merge_loop, bump_bump. simpl.
    replace (0 + length (succeeded_of (zip (t0 :: to_tr) trs)))
      with (length (succeeded_of (zip (t0 :: to_tr) trs))) by lia.
    replace (0 + length (failed_of (zip (t0 :: to_tr) trs)))
      with (length (failed_of (zip (t0 :: to_tr) trs))) by lia.
    destruct dry_run; [done|]. by rewrite apply_writes_app.
  - rewrite copy_loop, bump_bump. simpl.
    replace (0 + 0) with 0 by lia.
    destruct dry_run; [done|]. by rewrite apply_writes_app.
Qed.


(** *** Lengths *)

Lemma batches_fuel_concat (n : nat) : 0 < n ->
  forall fuel (l : list text),
    length l <= fuel -> concat (batches_fuel fuel n l) = l.
Proof.
  intros Hn. induction fuel as [|fuel IH]; intros l Hl.
  - destruct l; [done | simpl in Hl; lia].
  - destruct l as [|x l]; [done|].
    cbn [batches_fuel concat]. rewrite IH.
    + apply take_drop.
    + rewrite length_drop. simpl in *. lia.
Qed.

Lemma batches_concat (n : nat) (l : list text) :
  0 < n -> concat (batches n l) = l.
Proof. intros Hn. by apply batches_fuel_concat. Qed.

Lemma translate_batch_length (texts : list text) (lang : text) (svc : Service) :
  answers_every_text ->
  length (translate_batch texts lang svc).1 = length texts.
Proof.
  intros Hc. unfold translate_batch.
  destruct (negb TRANSLATOR_AVAILABLE || bool_decide (texts = []));
    [simpl; by rewrite length_replicate|].
  destruct (service_translate svc (translator_language lang)
              (_protect_format_specifiers <$> texts).*1)
    as [svc' [results|]] eqn:E; [|simpl; by rewrite length_replicate].
  apply Hc in E. rewrite !length_fmap in E.
  destruct (mapM _ (enumerate results)) as [final|] eqn:Em;
    [|simpl; by rewrite length_replicate].
  apply length_mapM in Em. simpl. unfold enumerate in Em.
  rewrite length_imap in Em. lia.
Qed.

Lemma translate_loop_length (lang : text) (bs : list (list text)) :
  answers_every_text ->
  forall acc svc,
    length
      (foldl (fun '(all_translations, svc) batch =>
                let '(translations, svc') := translate_batch batch lang svc in
                (all_translations ++ translations, svc'))
             (acc, svc) bs).1
    = length acc + length (concat bs).
Proof.
  intros Hc. induction bs as [|b bs IH]; intros acc svc; simpl; [lia|].
  pose proof (translate_batch_length b lang svc Hc) as Hb.
  destruct (translate_batch b lang svc) as [trs svc'].
  rewrite IH, !length_app. simpl in Hb. lia.
Qed.

Lemma translate_all_length (lang : text) (texts : list text) (svc : Service) :
  answers_every_text ->
  length (translate_all lang texts svc).1 = length texts.
Proof.
  intros Hc. unfold translate_all.
  rewrite translate_loop_length by done.
  rewrite batches_concat; [done | unfold BATCH_SIZE; lia].
Qed.

Lemma split_tasks_length (lang : text) (st : LocalizationStats)
    (entries : list (text * StringData)) :
  length (patterns_of lang st entries) +
  length (to_translate_of lang st entries) =
  length (tasks_of lang st entries).
Proof.
  unfold patterns_of, to_translate_of. rewrite <- length_app.
  apply Permutation_length, filter_app_complement.
Qed.

Lemma merged_length (lang : text) (st : LocalizationStats)
    (entries : list (text * StringData)) (svc : Service) :
  answers_every_text ->
  length (merged_of lang st entries svc) =
  length (to_translate_of lang st entries).
Proof.
  intros Hc. unfold merged_of, translations_of.
  rewrite length_zip, translate_all_length, length_fmap by done. lia.
Qed.

(** One language: [missing] grows by the number of tasks, and so does
    the sum of [texts_translated] and [patterns_copied]; every error is
    a copy as well. *)
Lemma language_outcome_counts (lang : text) (st : LocalizationStats)
    (entries : list (text * StringData)) (svc : Service) :
  answers_every_text ->
  let st' := (language_outcome lang st entries svc).1 in
  missing st' = missing st + length (missing_entries lang entries) /\
  texts_translated st' + patterns_copied st' =
    texts_translated st + patterns_copied st +
    length (missing_entries lang entries) /\
  errors st' + patterns_copied st <= errors st + patterns_copied st'.
Proof.
  intros Hc.
  pose proof (collect_tasks_spec lang st entries)
    as (Hm & Hp & Ht & He & Hlen & _).
  pose proof (split_tasks_length lang st entries) as Hsplit.
  pose proof (merged_length lang st entries svc Hc) as Hmerged.
  pose proof (failed_succeeded_length (merged_of lang st entries svc))
    as Hfs.
  unfold tasks_of in Hsplit. rewrite Hlen in *.
  unfold language_outcome.
  destruct (to_translate_of lang st entries) as [|t0 rest] eqn:E.
  - simpl in *. lia.
  - destruct TRANSLATOR_AVAILABLE; simpl in *; lia.
Qed.


(** *** The loop over the languages *)

Lemma language_step_eq (dry_run : bool) (lang : text)
    (stats : gmap text LocalizationStats)
    (entries : list (text * StringData)) (svc : Service) :
  language_step dry_run (stats, entries, svc) lang =
  match stats !! lang with
  | Some st =>
      (<[lang := (language_outcome lang st entries svc).1]> stats,
       if dry_run then entries
       else apply_writes lang (language_writes lang st entries svc) entries,
       (language_outcome lang st entries svc).2)
  | None => (stats, entries, svc)
  end.
Proof.
  unfold language_step. destruct (stats !! lang) as [st|]; [|done].
  by rewrite process_language_eq.
Qed.

(** A property of the statistics that every language keeps holds at the
    end of the loop of every language. *)
Lemma language_loop_stats (P : LocalizationStats -> Prop) (dry_run : bool) :
  (forall lang st entries svc,
     P st -> P (language_outcome lang st entries svc).1) ->
  forall langs stats entries svc,
    (forall l st, stats !! l = Some st -> P st) ->
    forall l st,
      (foldl (language_step dry_run) (stats, entries, svc) langs).1.1 !! l
        = Some st ->
      P st.
Proof.
  intros Hstep langs stats entries svc Hinit.
  apply (foldl_invariant
           (fun acc : gmap text LocalizationStats *
                      list (text * StringData) * Service =>
              forall l st, acc.1.1 !! l = Some st -> P st)); [done|].
  intros [[stats' entries'] svc'] lang Hinv. rewrite language_step_eq.
  destruct (stats' !! lang) as [st0|] eqn:E; [|done]. simpl in *.
  intros l st. rewrite lookup_insert. case_decide as Hl.
  - intros [= <-]. apply Hstep. by apply (Hinv lang).
  - apply Hinv.
Qed.

(** The languages of the request keep their statistics. *)
Lemma language_loop_is_Some (dry_run : bool) (lang : text) :
  forall langs stats entries svc,
    is_Some (stats !! lang) ->
    is_Some
      ((foldl (language_step dry_run) (stats, entries, svc) langs).1.1
         !! lang).
Proof.
  intros langs stats entries svc Hinit.
  apply (foldl_invariant
           (fun acc : gmap text LocalizationStats *
                      list (text * StringData) * Service =>
              is_Some (acc.1.1 !! lang))); [done|].
  intros [[stats' entries'] svc'] l Hinv. rewrite language_step_eq.
  destruct (stats' !! l) as [st0|] eqn:E; [|done]. simpl in *.
  rewrite lookup_insert. case_decide; [by eexists | done].
Qed.

Lemma process_stats_eq (data : Data) (languages : option (list text))
    (dry_run : bool) (svc : Service) :
  data_is_empty data = false ->
  (process_missing_translations data languages dry_run svc).1.1 =
  (foldl (language_step dry_run)
         (initial_stats (target_langs languages),
          default [] (strings data), svc)
         (target_langs languages)).1.1.
Proof.
  intros Hne. unfold process_missing_translations. rewrite Hne.
  by destruct (foldl _ _ _) as [[? ?] ?].
Qed.

(** *** Writes *)

Lemma apply_at_lookup_Some (idx j : nat) (lang value : text)
    (entries : list (text * StringData)) (k : text) (sd : StringData) :
  entries !! j = Some (k, sd) ->
  exists sd', apply_at idx lang value entries !! j = Some (k, sd').
Proof.
  intros H. unfold apply_at. rewrite list_lookup_alter.
  case_decide; [subst j; rewrite H | rewrite H]; by eexists.
Qed.

Lemma apply_writes_lookup_Some (lang : text) (writes : list (nat * text)) :
  forall entries j k sd,
    entries !! j = Some (k, sd) ->
    exists sd', apply_writes lang writes entries !! j = Some (k, sd').
Proof.
  induction writes as [|[i v] writes IH]; intros entries j k sd H.
  - by exists sd.
  - destruct (apply_at_lookup_Some i j lang v entries k sd H) as [sd1 H1].
    by apply (IH _ _ _ sd1).
Qed.

Lemma apply_writes_other (lang : text) (writes : list (nat * text)) :
  forall entries j,
    j ∉ writes.*1 -> apply_writes lang writes entries !! j = entries !! j.
Proof.
  induction writes as [|[i v] writes IH]; intros entries j Hj; [done|].
  simpl in Hj. apply not_elem_of_cons in Hj as [Hne Hj].
  unfold apply_writes in *. simpl. rewrite IH by done.
  unfold apply_at. by rewrite list_lookup_alter_ne.
Qed.

(** With one write per entry, the entry written holds what was written. *)
Lemma apply_writes_written (lang : text) (writes : list (nat * text)) :
  forall entries j v k sd,
    NoDup writes.*1 -> (j, v) ∈ writes ->
    entries !! j = Some (k, sd) ->
    exists sd', apply_writes lang writes entries !! j = Some (k, sd') /\
                localizations_of sd' !! lang = Some (translated_unit v).
Proof.
  induction writes as [|[i w] writes IH]; intros entries j v k sd Hnd Hin Hl.
  - by apply elem_of_nil in Hin.
  - simpl in Hnd. apply NoDup_cons in Hnd as [Hi Hnd].
    apply elem_of_cons in Hin as [[= <- <-]|Hin].
    + exists (_apply_translation sd lang v). split.
      * change (apply_writes lang ((j, v) :: writes) entries)
          with (apply_writes lang writes (apply_at j lang v entries)).
        rewrite apply_writes_other by done.
        unfold apply_at. by rewrite list_lookup_alter_eq, Hl.
      * by rewrite localizations_of_apply, lookup_insert_eq.
    + destruct (apply_at_lookup_Some i j lang w entries k sd Hl) as [sd1 H1].
      by apply (IH _ _ _ _ sd1).
Qed.

Lemma zip_fst_take {A B} (l : list A) (k : list B) :
  (zip l k).*1 = take (length k) l.
Proof.
  revert k. induction l as [|x l IH]; intros [|y k]; simpl; try done.
  by rewrite IH.
Qed.

Lemma to_translate_NoDup (lang : text) (st : LocalizationStats)
    (entries : list (text * StringData)) :
  NoDup (string_data <$> to_translate_of lang st entries).
Proof.
  pose proof (collect_tasks_spec lang st entries) as (_&_&_&_&_& Hnd &_).
  eapply sublist_NoDup; [exact Hnd|].
  apply fmap_sublist, sublist_filter.
Qed.

Lemma to_translate_entry (lang : text) (st : LocalizationStats)
    (entries : list (text * StringData)) (task : TranslationTask) :
  task ∈ to_translate_of lang st entries ->
  exists sd, entries !! string_data task = Some (key task, sd) /\
             source_value task = get_source_value (key task) sd /\
             is_translated sd lang = false.
Proof.
  pose proof (collect_tasks_spec lang st entries) as (_&_&_&_&_&_& H).
  intros Hin. apply H. unfold to_translate_of in Hin.
  by apply list_elem_of_filter in Hin as [_ Hin].
Qed.

Lemma merged_writes_NoDup (lang : text) (st : LocalizationStats)
    (entries : list (text * StringData)) (svc : Service) :
  NoDup (merge_write <$> merged_of lang st entries svc).*1.
Proof.
  rewrite <- list_fmap_compose.
  change (fst ∘ merge_write) with
    (string_data ∘ (fst : TranslationTask * option text -> TranslationTask)).
  rewrite list_fmap_compose. unfold merged_of. rewrite zip_fst_take.
  eapply sublist_NoDup; [apply to_translate_NoDup|].
  apply fmap_sublist, sublist_take.
Qed.

(** A result that counts as false passes through [translate_batch] as
    it is, when the service gave one result per text. *)
Lemma restore_results_keep (all_placeholders : list (list (text * text)))
    (results : list (option text)) (final : list (option text)) :
  mapM (restore_result all_placeholders) (enumerate results) = Some final ->
  forall i r, results !! i = Some r -> truthy r = false ->
              final !! i = Some r.
Proof.
  intros Hm i r Hi Hr. apply mapM_Some in Hm.
  assert (Hl : enumerate results !! i = Some (i, r)).
  { unfold enumerate. by rewrite list_lookup_imap, Hi. }
  destruct (Forall2_lookup_l _ _ _ _ _ Hm Hl) as (y & Hy & Hres).
  rewrite Hy. f_equal. unfold restore_result in Hres.
  destruct r as [[|c t]|]; simpl in Hr; congruence.
Qed.

Lemma restore_results_total (all_placeholders : list (list (text * text)))
    (results : list (option text)) :
  length results <= length all_placeholders ->
  is_Some (mapM (restore_result all_placeholders) (enumerate results)).
Proof.
  intros Hlen. apply mapM_is_Some. apply Forall_forall. simpl.
  intros [i r] Hin. apply list_elem_of_lookup in Hin as [j Hj].
  unfold enumerate in Hj. rewrite list_lookup_imap in Hj.
  destruct (results !! j) as [r'|] eqn:E; simpl in Hj; [|done].
  injection Hj as <- <-. apply lookup_lt_Some in E.
  unfold restore_result. destruct r' as [[|c t]|]; try by eexists.
  destruct (all_placeholders !! j) as [[|p ps]|] eqn:E'; try by eexists.
  apply lookup_ge_None in E'. lia.
Qed.


(** *** Chunk after chunk *)

Lemma batches_fuel_enough (n : nat) : 0 < n ->
  forall fuel fuel' (l : list text),
    length l <= fuel -> length l <= fuel' ->
    batches_fuel fuel n l = batches_fuel fuel' n l.
Proof.
  intros Hn. induction fuel as [|fuel IH]; intros fuel' l Hl Hl'.
  - destruct l; [by destruct fuel' | simpl in Hl; lia].
  - destruct l as [|x l]; [by destruct fuel'|].
    destruct fuel' as [|fuel']; [simpl in Hl'; lia|].
    cbn [batches_fuel]. f_equal.
    apply IH; rewrite length_drop; simpl in *; lia.
Qed.

Lemma batches_first_chunk (n : nat) (chunk rest : list text) :
  0 < n -> length chunk = n ->
  batches n (chunk ++ rest) = chunk :: batches n rest.
Proof.
  intros Hn Hlen. unfold batches.
  destruct chunk as [|x chunk]; [simpl in Hlen; lia|].
  rewrite length_app. subst n.
  change (length (x :: chunk) + length rest)
    with (S (length chunk + length rest)).
  change ((x :: chunk) ++ rest) with (x :: (chunk ++ rest)).
  cbn [batches_fuel].
  change (x :: (chunk ++ rest)) with ((x :: chunk) ++ rest).
  rewrite take_app_length, drop_app_length. f_equal.
  apply batches_fuel_enough; [done | lia | lia].
Qed.

Lemma translate_loop_from (lang : text) (bs : list (list text)) :
  forall acc svc,
    foldl (fun '(all_translations, svc) batch =>
             let '(translations, svc') := translate_batch batch lang svc in
             (all_translations ++ translations, svc'))
          (acc, svc) bs
    = (acc ++ (foldl (fun '(all_translations, svc) batch =>
                        let '(translations, svc') :=
                          translate_batch batch lang svc in
                        (all_translations ++ translations, svc'))
                     ([], svc) bs).1,
       (foldl (fun '(all_translations, svc) batch =>
                 let '(translations, svc') :=
                   translate_batch batch lang svc in
                 (all_translations ++ translations, svc'))
              ([], svc) bs).2).
Proof.
  induction bs as [|b bs IH]; intros acc svc.
  - simpl. by rewrite app_nil_r.
  - rewrite !foldl_step.
    destruct (translate_batch b lang svc) as [trs svc'].
    rewrite (IH (acc ++ trs)), (IH ([] ++ trs)). simpl.
    by rewrite app_assoc.
Qed.

(** Whatever the first chunk comes to, the loop goes on with the rest,
    from the state the first call left the service in. *)
Lemma translate_all_next_chunk (lang : text) (chunk rest : list text)
    (svc : Service) :
  length chunk = BATCH_SIZE ->
  (translate_all lang (chunk ++ rest) svc).1 =
    (translate_batch chunk lang svc).1 ++
    (translate_all lang rest (translate_batch chunk lang svc).2).1 /\
  (translate_all lang (chunk ++ rest) svc).2 =
    (translate_all lang rest (translate_batch chunk lang svc).2).2.
Proof.
  intros Hlen. unfold translate_all.
  rewrite batches_first_chunk by (unfold BATCH_SIZE in *; lia || done).
  rewrite foldl_step.
  destruct (translate_batch chunk lang svc) as [trs svc'].
  by rewrite translate_loop_from.
Qed.

Lemma merged_nil (lang : text) (st : LocalizationStats)
    (entries : list (text * StringData)) (svc : Service) :
  to_translate_of lang st entries = [] -> merged_of lang st entries svc = [].
Proof. unfold merged_of. by intros ->. Qed.

Lemma translated_unit_stored (sd : StringData) (lang value : text) :
  localizations_of sd !! lang = Some (translated_unit value) ->
  is_translated sd lang = true /\ stored_value sd lang = Some value.
Proof.
  intros H. unfold is_translated, stored_value. by rewrite H.
Qed.

(** C3: with a translator available, a service that raises gives
    [None] for every text of the chunk and an empty result stays as it
    is; after a chunk, whatever it came to, the rest of the texts is
    translated from the state the service was left in; an item without
    a translation adds one to [errors] and one to
    [patterns_copied] and nothing to [texts_translated], in the round
    of the loop and in the statistics of the language, whatever happens
    to the other items; and when the run is not a dry run the entry of
    such an item holds its source value, state ["translated"]. *)
Theorem failed_translation_falls_back (dry_run : bool) (lang : text)
    (st : LocalizationStats) (entries : list (text * StringData))
    (svc : Service) :
  TRANSLATOR_AVAILABLE = true ->
  (forall texts svc0 svc1,
     service_translate svc0 (translator_language lang)
                       (_protect_format_specifiers <$> texts).*1
       = (svc1, None) ->
     (translate_batch texts lang svc0).1 = replicate (length texts) None) /\
  (forall texts svc0 svc1 results i r,
     service_translate svc0 (translator_language lang)
                       (_protect_format_specifiers <$> texts).*1
       = (svc1, Some results) ->
     length results = length texts ->
     results !! i = Some r -> truthy r = false ->
     (translate_batch texts lang svc0).1 !! i = Some r) /\
  (forall chunk rest svc0,
     length chunk = BATCH_SIZE ->
     (translate_all lang (chunk ++ rest) svc0).1 =
     (translate_batch chunk lang svc0).1 ++
     (translate_all lang rest (translate_batch chunk lang svc0).2).1) /\
  (forall st0 es task tr,
     truthy tr = false ->
     errors (merge_step dry_run lang (st0, es) (task, tr)).1
       = errors st0 + 1 /\
     patterns_copied (merge_step dry_run lang (st0, es) (task, tr)).1
       = patterns_copied st0 + 1 /\
     texts_translated (merge_step dry_run lang (st0, es) (task, tr)).1
       = texts_translated st0) /\
  errors (process_language dry_run lang st entries svc).1.1
    = errors st + length (failed_of (merged_of lang st entries svc)) /\
  patterns_copied (process_language dry_run lang st entries svc).1.1
    = patterns_copied st + length (patterns_of lang st entries)
      + length (failed_of (merged_of lang st entries svc)) /\
  texts_translated (process_language dry_run lang st entries svc).1.1
    = texts_translated st
      + length (succeeded_of (merged_of lang st entries svc)) /\
  (dry_run = false ->
   forall task tr,
     (task, tr) ∈ failed_of (merged_of lang st entries svc) ->
     exists sd,
       (process_language dry_run lang st entries svc).1.2
         !! string_data task = Some (key task, sd) /\
       is_translated sd lang = true /\
       stored_value sd lang = Some (source_value task)).
Proof.
  intros Havail.
  assert (Hraise : forall texts svc0 svc1,
     service_translate svc0 (translator_language lang)
                       (_protect_format_specifiers <$> texts).*1
       = (svc1, None) ->
     (translate_batch texts lang svc0).1 = replicate (length texts) None).
  { intros texts svc0 svc1 H. unfold translate_batch.
    destruct (negb TRANSLATOR_AVAILABLE || bool_decide (texts = []));
      [done|]. by rewrite H. }
  assert (Hempty : forall texts svc0 svc1 results i r,
     service_translate svc0 (translator_language lang)
                       (_protect_format_specifiers <$> texts).*1
       = (svc1, Some results) ->
     length results = length texts ->
     results !! i = Some r -> truthy r = false ->
     (translate_batch texts lang svc0).1 !! i = Some r).
  { intros texts svc0 svc1 results i r H Hlen Hi Hr. unfold translate_batch.
    rewrite Havail. simpl. case_bool_decide as Ht.
    { subst texts. destruct results; [done | simpl in Hlen; lia]. }
    rewrite H.
    destruct (restore_results_total (_protect_format_specifiers <$> texts).*2
                results) as [final Hf].
    { rewrite !length_fmap. lia. }
    rewrite Hf. simpl. by apply (restore_results_keep _ _ _ Hf). }
  assert (Hround : forall st0 es task tr,
     truthy tr = false ->
     errors (merge_step dry_run lang (st0, es) (task, tr)).1
       = errors st0 + 1 /\
     patterns_copied (merge_step dry_run lang (st0, es) (task, tr)).1
       = patterns_copied st0 + 1 /\
     texts_translated (merge_step dry_run lang (st0, es) (task, tr)).1
       = texts_translated st0).
  { intros st0 es task tr Hr. by destruct tr as [[|c t]|]. }
  split_and!; [done | done | | done | | | |].
  { intros chunk rest svc0 Hlen.
    by apply (proj1 (translate_all_next_chunk lang chunk rest svc0 Hlen)). }
  all: rewrite process_language_eq; simpl.
  all: pose proof (collect_tasks_spec lang st entries)
         as (Hm & Hp & Ht & He & Hlen & Hnd & Htasks).
  1-3: pose proof (merged_nil lang st entries svc) as Hnil;
       unfold language_outcome;
       set (merged := merged_of lang st entries svc) in *;
       set (answers := translations_of lang st entries svc) in *;
       rewrite Havail;
       destruct (to_translate_of lang st entries) as [|t0 rest];
       [rewrite Hnil by done|]; simpl in *; lia.
  intros -> task tr Hin.
  apply list_elem_of_filter in Hin as [Hfalse Hin]. simpl in Hfalse.
  assert (Htask : task ∈ to_translate_of lang st entries).
  { unfold merged_of in Hin. by apply elem_of_zip_l in Hin. }
  destruct (to_translate_entry lang st entries task Htask)
    as (sd & Hl & Hsrc & Hnot).
  unfold language_writes.
  set (merged := merged_of lang st entries svc) in *.
  rewrite Havail, apply_writes_app. subst merged.
  destruct (apply_writes_lookup_Some lang
              (copy_write <$> patterns_of lang st entries)
              entries _ _ _ Hl) as [sd1 Hl1].
  destruct (apply_writes_written lang
              (merge_write <$> merged_of lang st entries svc)
              (apply_writes lang (copy_write <$> patterns_of lang st entries)
                            entries)
              (string_data task) (source_value task) (key task) sd1)
    as (sd' & Hl' & Hunit); [apply merged_writes_NoDup | | done |].
  - apply list_elem_of_fmap. exists (task, tr). split; [|done].
    unfold merge_write. simpl. by destruct tr as [[|c t]|].
  - exists sd'. split; [done|]. by apply translated_unit_stored.
Qed.


(** *** Dry run *)









(** *** The keys missing when the run starts *)

Lemma missing_entries_apply_at (l lang value : text) (idx : nat)
    (entries : list (text * StringData)) :
  l <> lang ->
  length (missing_entries l (apply_at idx lang value entries)) =
  length (missing_entries l entries).
Proof.
  intros Hl. unfold apply_at, missing_entries. revert idx.
  induction entries as [|[k sd] entries IH]; intros [|idx]; simpl;
    try done.
  - rewrite !filter_cons. simpl. rewrite is_translated_apply_ne by done.
    by repeat case_decide.
  - rewrite !filter_cons. simpl.
    case_decide; simpl; [f_equal|]; exact (IH idx).
Qed.

Lemma missing_entries_apply_writes (l lang : text)
    (writes : list (nat * text)) :
  l <> lang ->
  forall entries,
    length (missing_entries l (apply_writes lang writes entries)) =
    length (missing_entries l entries).
Proof.
  intros Hl. induction writes as [|[i v] writes IH]; intros entries; [done|].
  unfold apply_writes in *. simpl. rewrite IH.
  by apply missing_entries_apply_at.
Qed.

Lemma language_outcome_missing (lang : text) (st : LocalizationStats)
    (entries : list (text * StringData)) (svc : Service) :
  missing (language_outcome lang st entries svc).1 =
  missing st + length (missing_entries lang entries).
Proof.
  pose proof (collect_tasks_spec lang st entries)
    as (Hm & _ & _ & _ & Hlen & _).
  unfold language_outcome.
  destruct (to_translate_of lang st entries);
    [|destruct TRANSLATOR_AVAILABLE]; simpl in *; lia.
Qed.

Lemma language_loop_untouched (dry_run : bool) (l : text) (langs : list text) :
  l ∉ langs ->
  forall stats entries svc,
    (foldl (language_step dry_run) (stats, entries, svc) langs).1.1 !! l =
    stats !! l.
Proof.
  induction langs as [|lang langs IH]; intros Hl stats entries svc; [done|].
  apply not_elem_of_cons in Hl as [Hne Hl].
  rewrite foldl_step, language_step_eq.
  destruct (stats !! lang) as [st0|]; rewrite IH by done; [|done].
  by rewrite lookup_insert_ne.
Qed.

(** When no language comes twice, [missing] is the number of keys that
    were missing for the language before the first language was
    processed. *)
Lemma language_loop_missing (dry_run : bool) (langs : list text) :
  NoDup langs ->
  forall stats entries svc,
    (forall l, l ∈ langs ->
       exists st0, stats !! l = Some st0 /\ missing st0 = 0) ->
    forall l st,
      l ∈ langs ->
      (foldl (language_step dry_run) (stats, entries, svc) langs).1.1 !! l
        = Some st ->
      missing st = length (missing_entries l entries).
Proof.
  induction langs as [|lang langs IH];
    intros Hnd stats entries svc Hinit l st Hl Hst.
  { by apply elem_of_nil in Hl. }
  apply NoDup_cons in Hnd as [Hlang Hnd].
  rewrite foldl_step, language_step_eq in Hst.
  destruct (Hinit lang) as (st0 & Hst0 & Hzero); [apply list_elem_of_here|].
  rewrite Hst0 in Hst.
  apply elem_of_cons in Hl as [->|Hl].
  - rewrite language_loop_untouched, lookup_insert_eq in Hst by done.
    injection Hst as <-. rewrite language_outcome_missing. lia.
  - assert (Hne : l <> lang) by (by intros ->).
    apply IH in Hst; [|done| |done].
    + rewrite Hst. destruct dry_run; [done|].
      by apply missing_entries_apply_writes.
    + intros l' Hl'. rewrite lookup_insert_ne by (by intros ->).
      apply Hinit. by apply list_elem_of_further.
Qed.

(** C2: when the service answers with one result per text, every
    language of a run ends with [texts_translated + patterns_copied]
    equal to [missing], the number of keys collected as missing, and
    [errors] counts again items that [patterns_copied] counts; every
    requested language of a loaded catalog has its statistics, and when
    no language is requested twice [missing] is the number of keys of
    the catalog, blank ones apart, that are not translated for the
    language when the run starts. *)
Theorem processed_counters_account_for_missing (data : Data)
    (languages : option (list text)) (dry_run : bool) (svc : Service) :
  answers_every_text ->
  (forall lang st,
     (process_missing_translations data languages dry_run svc).1.1 !! lang
       = Some st ->
     texts_translated st + patterns_copied st = missing st /\
     errors st <= patterns_copied st) /\
  (data_is_empty data = false ->
   forall lang, lang ∈ target_langs languages ->
     is_Some
       ((process_missing_translations data languages dry_run svc).1.1
          !! lang)) /\
  (NoDup (target_langs languages) ->
   forall lang st,
     (process_missing_translations data languages dry_run svc).1.1 !! lang
       = Some st ->
     missing st =
     length (missing_entries lang (default [] (strings data)))).
Proof.
  intros Hc. split_and!.
  - destruct (data_is_empty data) eqn:Hne.
    { unfold process_missing_translations. rewrite Hne. simpl.
      intros lang st. by rewrite lookup_empty. }
    rewrite process_stats_eq by done.
    apply (language_loop_stats accounted).
    + intros lang st entries svc0 [H1 H2].
      pose proof (language_outcome_counts lang st entries svc0 Hc)
        as (Hm & Hs & He).
      unfold accounted. simpl in *. lia.
    + intros l st H. apply initial_stats_lookup in H as ->.
      unfold accounted. simpl. lia.
  - intros Hne lang Hin. rewrite process_stats_eq by done.
    apply language_loop_is_Some. by rewrite initial_stats_is_Some.
  - intros Hnd lang st. destruct (data_is_empty data) eqn:Hne.
    { unfold process_missing_translations. rewrite Hne. simpl.
      by rewrite lookup_empty. }
    rewrite process_stats_eq by done. intros Hst.
    destruct (decide (lang ∈ target_langs languages)) as [Hin|Hout].
    + apply (language_loop_missing dry_run _ Hnd _ _ _) in Hst; [done| |done].
      intros l Hl. exists (new_stats l).
      by rewrite initial_stats_is_Some.
    + rewrite language_loop_untouched in Hst by done.
      unfold initial_stats in Hst. apply elem_of_list_to_map_2 in Hst.
      apply list_elem_of_fmap in Hst as (l & [= -> ->] & Hl). done.
Qed.

End PipelineProperties.

(** ** The pipeline on a small catalog

    In [process_missing_translations true unit service ...] the
    translator is available and the service keeps no state. *)

Lemma bonjour_answers_every_text : answers_every_text unit bonjour_service.
Proof.
  intros svc lang texts svc' results [= _ <-]. by rewrite length_fmap.
Qed.

Lemma processed_counters_witness :
  answers_every_text unit bonjour_service /\
  (process_missing_translations true unit bonjour_service hello_catalog
     (Some [str "fr"]) false tt).1.1 !! str "fr"
    = Some (stats_of (str "fr") 1 0 1 0 1 0) /\
  texts_translated (stats_of (str "fr") 1 0 1 0 1 0) +
  patterns_copied (stats_of (str "fr") 1 0 1 0 1 0) =
  missing (stats_of (str "fr") 1 0 1 0 1 0) /\
  errors (stats_of (str "fr") 1 0 1 0 1 0) <=
  patterns_copied (stats_of (str "fr") 1 0 1 0 1 0).
Proof.
  split; [exact bonjour_answers_every_text|].
  split; [vm_compute; reflexivity|].
  apply (proj1 (processed_counters_account_for_missing
                  true unit bonjour_service hello_catalog
                  (Some [str "fr"]) false tt bonjour_answers_every_text)
               (str "fr")).
  vm_compute. reflexivity.
Defined.

(** C2, as stated with [errors] in the sum, fails when a translation
    fails: the item is counted in [errors] and in [patterns_copied]. *)
Lemma failed_item_is_counted_twice :
  (process_missing_translations true unit raising_service hello_catalog
     (Some [str "fr"]) false tt).1.1 !! str "fr"
    = Some (stats_of (str "fr") 1 0 1 1 0 1) /\
  texts_translated (stats_of (str "fr") 1 0 1 1 0 1) +
  patterns_copied (stats_of (str "fr") 1 0 1 1 0 1) +
  errors (stats_of (str "fr") 1 0 1 1 0 1) = 2 /\
  missing (stats_of (str "fr") 1 0 1 1 0 1) = 1.
Proof. split_and!; vm_compute; reflexivity. Qed.

Lemma failed_translation_witness :
  true = true /\
  errors (process_language true unit raising_service false (str "fr")
            (new_stats (str "fr")) hello_entries tt).1.1 = 1 /\
  exists sd,
    (process_language true unit raising_service false (str "fr")
       (new_stats (str "fr")) hello_entries tt).1.2 !! 0
      = Some (str "Hello", sd) /\
    is_translated sd (str "fr") = true /\
    stored_value sd (str "fr") = Some (str "Hello").
Proof.
  split; [reflexivity|].
  pose proof (failed_translation_falls_back true unit raising_service
                false (str "fr") (new_stats (str "fr")) hello_entries tt
                eq_refl) as (_ & _ & _ & _ & He & _ & _ & Hstored).
  split; [vm_compute; reflexivity|].
  apply (Hstored eq_refl
           {| key := str "Hello"; source_value := str "Hello";
              is_pattern := false; has_specifiers := false;
              string_data := 0 |} None).
  vm_compute. apply list_elem_of_here.
Defined.

(** C3, as stated for every run, fails in a dry run: the failed item is
    counted, and its key is left without a localization. *)
Lemma dry_run_failure_stores_nothing :
  (process_missing_translations true unit raising_service hello_catalog
     (Some [str "fr"]) true tt).1.1 !! str "fr"
    = Some (stats_of (str "fr") 1 0 1 1 0 1) /\
  strings (process_missing_translations true unit raising_service
             hello_catalog (Some [str "fr"]) true tt).1.2
    = Some [(str "Hello", {| localizations := None; entry_extra := [] |})] /\
  is_translated {| localizations := None; entry_extra := [] |} (str "fr")
    = false.
Proof. split_and!; vm_compute; reflexivity. Qed.



(** ** The catalog properties on the small catalog *)

Lemma is_translated_iff_witness :
  is_translated (_apply_translation hello_entry (str "fr") (str "Bonjour"))
                (str "fr") = true /\
  is_translated hello_entry (str "fr") = false.
Proof.
  split.
  - apply (proj2 (proj1 (is_translated_iff
                           (_apply_translation hello_entry (str "fr")
                                               (str "Bonjour"))
                           (str "fr")))).
    exists (translated_unit (str "Bonjour")).
    eexists. split_and!; reflexivity.
  - apply (proj1 (proj2 (is_translated_iff hello_entry (str "fr")))).
    reflexivity.
Defined.

Lemma is_pattern_only_prefix_match_witness :
  rseq [RBol; lit "http"; ROpt (lit "s"); lit "://"] ∈ COPY_PATTERNS /\
  matches (rseq [RBol; lit "http"; ROpt (lit "s"); lit "://"]) 0
          (str "https://" ++ str "cash.app") (length (str "https://"))
          (str "cash.app") /\
  is_pattern_only (str "https://" ++ str "cash.app") = true.
Proof.
  assert (Hin : rseq [RBol; lit "http"; ROpt (lit "s"); lit "://"]
                  ∈ COPY_PATTERNS).
  { unfold COPY_PATTERNS. do 7 apply list_elem_of_further.
    apply list_elem_of_here. }
  assert (Hm : matches (rseq [RBol; lit "http"; ROpt (lit "s"); lit "://"]) 0
                 (str "https://" ++ str "cash.app") (length (str "https://"))
                 (str "cash.app")).
  { assert (H : match_at
                  (rseq [RBol; lit "http"; ROpt (lit "s"); lit "://"])
                  0 (str "https://" ++ str "cash.app") = Some 8)
      by reflexivity.
    apply match_at_matches in H as (_ & _ & H). exact H. }
  split; [exact Hin|]. split; [exact Hm|].
  exact (proj1 (proj2 is_pattern_only_prefix_match) _ _ _ Hin Hm).
Defined.

Lemma analyze_total_witness :
  data_is_empty hello_catalog = false /\
  analyze hello_catalog (Some [str "fr"]) !! str "fr"
    = Some {| language := str "fr"; total_keys := 1; translated := 0;
              missing := 1; patterns_copied := 0; texts_translated := 0;
              errors := 0; missing_keys := [str "Hello"] |} /\
  is_Some (analyze hello_catalog (Some [str "fr"]) !! str "fr") /\
  1 = 0 + 1.
Proof.
  split; [reflexivity|]. split; [vm_compute; reflexivity|].
  split.
  - apply (proj2 (proj2 (analyze_total_is_translated_plus_missing
                           hello_catalog (str "fr")))).
    reflexivity.
  - apply (proj1 (analyze_total_is_translated_plus_missing
                    hello_catalog (str "fr"))
             {| language := str "fr"; total_keys := 1; translated := 0;
                missing := 1; patterns_copied := 0; texts_translated := 0;
                errors := 0; missing_keys := [str "Hello"] |}).
    vm_compute. reflexivity.
Defined.

Lemma apply_translation_frame_witness :
  str "de" <> str "fr" /\
  localizations_of
    (_apply_translation hello_entry (str "fr") (str "Bonjour")) !! str "de"
  = localizations_of hello_entry !! str "de".
Proof.
  assert (Hne : str "de" <> str "fr") by discriminate.
  split; [exact Hne|].
  exact (proj1 (apply_translation_frame hello_entry (str "fr") (str "Bonjour")
                                        0 hello_entries)
               (str "de") Hne).
Defined.

Lemma enumerate_lookup {A} (l : list A) (j : nat) (x : A) :
  (j, x) ∈ enumerate l <-> l !! j = Some x.
Proof.
  unfold enumerate. rewrite elem_of_lookup_imap. split.
  - intros (i & y & [= -> ->] & H). done.
  - intros H. by exists j, x.
Qed.

Lemma count_keys_0 (st : LocalizationStats) : count_keys 0 0 0 st = st.
Proof. destruct st. unfold count_keys. simpl. f_equal; lia. Qed.

Lemma collect_tasks_eq (lang : text) (st : LocalizationStats)
    (entries : list (text * StringData)) :
  collect_tasks lang st entries =
  (count_keys (length (counted_entries entries))
              (length (translated_entries lang entries))
              (length (missing_entries lang entries)) st,
   omap (task_for lang) (enumerate entries)).
Proof.
  induction entries as [|[k sd] entries IH] using rev_ind.
  - simpl. by rewrite count_keys_0.
  - rewrite collect_tasks_snoc, IH, enumerate_snoc, omap_app.
    unfold counted_entries, translated_entries, missing_entries.
    rewrite !filter_app, !length_app, !filter_cons, !filter_nil.
    unfold collect_step, task_for. simpl.
    destruct (is_blank k) eqn:Eb; simpl.
    { repeat case_decide; try naive_solver. simpl.
      rewrite app_nil_r. f_equal. unfold count_keys. f_equal; lia. }
    destruct (is_translated sd lang) eqn:Et; simpl.
    { repeat case_decide; try naive_solver. simpl.
      rewrite app_nil_r. f_equal.
      unfold count_keys, incr_translated, incr_total_keys. simpl.
      f_equal; lia. }
    repeat case_decide; try naive_solver. simpl. f_equal.
    unfold count_keys, incr_missing, incr_total_keys. simpl.
    f_equal; lia.
Qed.

Lemma tasks_of_eq (lang : text) (st : LocalizationStats)
    (entries : list (text * StringData)) :
  tasks_of lang st entries = omap (task_for lang) (enumerate entries).
Proof. unfold tasks_of. by rewrite collect_tasks_eq. Qed.

(** Every missing key has its task. *)
Lemma tasks_cover (lang : text) (st : LocalizationStats)
    (entries : list (text * StringData)) (j : nat) (k : text)
    (sd : StringData) :
  entries !! j = Some (k, sd) ->
  is_blank k = false -> is_translated sd lang = false ->
  exists task, task ∈ tasks_of lang st entries /\
               string_data task = j /\ key task = k /\
               source_value task = get_source_value k sd /\
               is_pattern task = is_pattern_only (get_source_value k sd).
Proof.
  intros Hj Hb Ht. rewrite tasks_of_eq.
  eexists. split.
  - apply list_elem_of_omap. exists (j, (k, sd)). split.
    + by apply enumerate_lookup.
    + unfold task_for. rewrite Hb, Ht. reflexivity.
  - done.
Qed.

(** A task points at a missing key. *)
Lemma tasks_point (lang : text) (st : LocalizationStats)
    (entries : list (text * StringData)) (task : TranslationTask) :
  task ∈ tasks_of lang st entries ->
  exists sd, entries !! string_data task = Some (key task, sd) /\
             is_blank (key task) = false /\
             is_translated sd lang = false /\
             source_value task = get_source_value (key task) sd /\
             is_pattern task = is_pattern_only (source_value task).
Proof.
  rewrite tasks_of_eq. intros H.
  apply list_elem_of_omap in H as ([j [k sd]] & Hin & Htask).
  apply enumerate_lookup in Hin. unfold task_for in Htask.
  destruct (is_blank k) eqn:Eb; [done|].
  destruct (is_translated sd lang) eqn:Et; [done|].
  injection Htask as <-. simpl. by exists sd.
Qed.

(** *** What a write does to an entry *)

Lemma is_translated_same_object (sd sd' : StringData) (l : text) :
  localizations_of sd' !! l = localizations_of sd !! l ->
  is_translated sd' l = is_translated sd l.
Proof. unfold is_translated. by intros ->. Qed.

Lemma get_source_value_same_object (k : text) (sd sd' : StringData) :
  localizations_of sd' !! SOURCE_LANGUAGE =
  localizations_of sd !! SOURCE_LANGUAGE ->
  get_source_value k sd' = get_source_value k sd.
Proof. unfold get_source_value. by intros ->. Qed.

Lemma apply_at_entry (idx j : nat) (lang value : text)
    (entries : list (text * StringData)) (k : text) (sd : StringData) :
  entries !! j = Some (k, sd) ->
  apply_at idx lang value entries !! j =
  Some (k, if decide (idx = j) then _apply_translation sd lang value else sd).
Proof.
  intros H. unfold apply_at. rewrite list_lookup_alter.
  case_decide as E; [subst idx|]; by rewrite H.
Qed.

Lemma apply_writes_length (lang : text) (writes : list (nat * text)) :
  forall entries, length (apply_writes lang writes entries) = length entries.
Proof.
  induction writes as [|[i v] writes IH]; intros entries; [done|].
  unfold apply_writes in *. simpl. rewrite IH. unfold apply_at.
  by rewrite length_alter.
Qed.

(** The entry at [j] after the writes of a loop for [lang]: its key and
    its other members stay, and so does what it holds for the other
    languages; it is the same object as before when no write names it,
    and translated for [lang] when one does. *)
Lemma apply_writes_entry (lang : text) (writes : list (nat * text)) :
  forall entries j k sd,
    entries !! j = Some (k, sd) ->
    exists sd',
      apply_writes lang writes entries !! j = Some (k, sd') /\
      entry_extra sd' = entry_extra sd /\
      (forall l, l <> lang ->
         localizations_of sd' !! l = localizations_of sd !! l) /\
      (j ∉ writes.*1 -> sd' = sd) /\
      (j ∈ writes.*1 -> is_translated sd' lang = true).
Proof.
  induction writes as [|[i v] writes IH]; intros entries j k sd Hj.
  { exists sd. split_and!; try done. intros H. by apply elem_of_nil in H. }
  unfold apply_writes in *. cbn [foldl fst snd].
  pose proof (apply_at_entry i j lang v entries k sd Hj) as H1.
  destruct (IH _ _ _ _ H1) as (sd' & Hl & He & Ho & Hn & Hy).
  exists sd'. split_and!; [done| | | |].
  - rewrite He. by case_decide.
  - intros l Hne. rewrite Ho by done. case_decide; [|done].
    rewrite localizations_of_apply. by rewrite lookup_insert_ne.
  - rewrite fmap_cons. cbn [fst]. intros Hnot.
    apply not_elem_of_cons in Hnot as [Hne Hnot].
    rewrite Hn by done. case_decide; [by subst|done].
  - rewrite fmap_cons. cbn [fst]. intros Hin.
    destruct (decide (j ∈ writes.*1)) as [Hw|Hw]; [by apply Hy|].
    apply elem_of_cons in Hin as [->|Hin]; [|done].
    rewrite Hn by done. rewrite decide_True by done.
    apply is_translated_apply.
Qed.

Lemma missing_entries_nil (l : text) (entries : list (text * StringData)) :
  missing_entries l entries = [] <->
  forall j k sd, entries !! j = Some (k, sd) ->
                 is_blank k = false -> is_translated sd l = true.
Proof.
  unfold missing_entries. split.
  - intros H j k sd Hj Hb.
    destruct (is_translated sd l) eqn:Et; [done|].
    assert (Hin : (k, sd) ∈ filter
              (fun e : text * StringData =>
                 is_blank e.1 = false /\ is_translated e.2 l = false) entries).
    { apply list_elem_of_filter. split; [done|]. by eapply list_elem_of_lookup_2. }
    rewrite H in Hin. by apply elem_of_nil in Hin.
  - intros H. apply elem_of_nil_inv. intros [k sd] Hin.
    apply list_elem_of_filter in Hin as [[Hb Ht] Hin]. simpl in *.
    apply list_elem_of_lookup_1 in Hin as [j Hj].
    rewrite (H j k sd Hj Hb) in Ht. done.
Qed.

Section PipelineWrites.

Variable TRANSLATOR_AVAILABLE : bool.
Variable Service : Type.
Variable service_translate :
  Service -> text -> list text -> Service * option (list (option text)).

#[local] Abbreviation translate_all :=
  (translate_all TRANSLATOR_AVAILABLE Service service_translate).
#[local] Abbreviation language_step :=
  (language_step TRANSLATOR_AVAILABLE Service service_translate).
#[local] Abbreviation process_missing_translations :=
  (process_missing_translations TRANSLATOR_AVAILABLE Service
                                service_translate).
#[local] Abbreviation translations_of :=
  (translations_of TRANSLATOR_AVAILABLE Service service_translate).
#[local] Abbreviation merged_of :=
  (merged_of TRANSLATOR_AVAILABLE Service service_translate).
#[local] Abbreviation language_outcome :=
  (language_outcome TRANSLATOR_AVAILABLE Service service_translate).
#[local] Abbreviation language_writes :=
  (language_writes TRANSLATOR_AVAILABLE Service service_translate).
#[local] Abbreviation answers_every_text :=
  (answers_every_text Service service_translate).

Lemma merge_write_fst (pairs : list (TranslationTask * option text)) :
  (merge_write <$> pairs).*1 = string_data <$> pairs.*1.
Proof. rewrite <- !list_fmap_compose. by apply list_fmap_ext. Qed.

Lemma copy_write_fst (tasks : list TranslationTask) :
  (copy_write <$> tasks).*1 = string_data <$> tasks.
Proof. rewrite <- !list_fmap_compose. by apply list_fmap_ext. Qed.

(** The entries a language writes are entries of its tasks ... *)
Lemma language_writes_tasks (lang : text) (st : LocalizationStats)
    (entries : list (text * StringData)) (svc : Service) (j : nat) :
  j ∈ (language_writes lang st entries svc).*1 ->
  j ∈ string_data <$> tasks_of lang st entries.
Proof.
  unfold language_writes, merged_of, patterns_of, to_translate_of.
  rewrite fmap_app, copy_write_fst. intros H.
  apply elem_of_app in H as [H|H].
  - apply list_elem_of_fmap in H as (t & -> & H).
    apply list_elem_of_filter in H as [_ H]. by apply list_elem_of_fmap_2.
  - destruct TRANSLATOR_AVAILABLE.
    + rewrite merge_write_fst, zip_fst_take in H.
      apply list_elem_of_fmap in H as (t & -> & H).
      apply elem_of_take in H as (i & H & _).
      apply list_elem_of_lookup_2 in H.
      apply list_elem_of_filter in H as [_ H]. by apply list_elem_of_fmap_2.
    + rewrite copy_write_fst in H.
      apply list_elem_of_fmap in H as (t & -> & H).
      apply list_elem_of_filter in H as [_ H]. by apply list_elem_of_fmap_2.
Qed.

(** ... and every task is written, when the service answers every
    text. *)
Lemma tasks_language_writes (lang : text) (st : LocalizationStats)
    (entries : list (text * StringData)) (svc : Service) (j : nat) :
  answers_every_text ->
  j ∈ string_data <$> tasks_of lang st entries ->
  j ∈ (language_writes lang st entries svc).*1.
Proof.
  intros Hc H. apply list_elem_of_fmap in H as (t & -> & H).
  unfold language_writes, merged_of, translations_of, patterns_of,
    to_translate_of.
  rewrite fmap_app, copy_write_fst. apply elem_of_app.
  destruct (is_pattern t) eqn:Ep.
  - left. apply list_elem_of_fmap_2. by apply list_elem_of_filter.
  - right.
    assert (Hin : t ∈ filter (fun t => ~ is_pattern t = true)
                             (tasks_of lang st entries)).
    { apply list_elem_of_filter. split; [|done]. by rewrite Ep. }
    destruct TRANSLATOR_AVAILABLE eqn:Ea.
    + rewrite merge_write_fst, zip_fst_take.
      rewrite take_ge; [by apply list_elem_of_fmap_2|].
      pose proof (translate_all_length true Service service_translate lang
        (source_value <$> filter (fun t => ~ is_pattern t = true)
                                 (tasks_of lang st entries)) svc Hc) as Hlen.
      rewrite length_fmap in Hlen. lia.
    + rewrite copy_write_fst. by apply list_elem_of_fmap_2.
Qed.

(** One language of a run that writes, entry by entry. *)
Lemma language_pass_entry (lang : text) (st : LocalizationStats)
    (entries : list (text * StringData)) (svc : Service) (j : nat)
    (k : text) (sd : StringData) :
  entries !! j = Some (k, sd) ->
  exists sd',
    apply_writes lang (language_writes lang st entries svc) entries !! j
      = Some (k, sd') /\
    entry_extra sd' = entry_extra sd /\
    (forall l, l <> lang ->
       localizations_of sd' !! l = localizations_of sd !! l) /\
    (is_blank k = true \/ is_translated sd lang = true -> sd' = sd) /\
    (answers_every_text -> is_blank k = false ->
     is_translated sd' lang = true).
Proof.
  intros Hj.
  destruct (apply_writes_entry lang (language_writes lang st entries svc)
              entries j k sd Hj) as (sd' & Hl & He & Ho & Hn & Hy).
  assert (Hkeep : is_blank k = true \/ is_translated sd lang = true ->
                  sd' = sd).
  { intros Hor. apply Hn. intros Hin.
    apply language_writes_tasks, list_elem_of_fmap in Hin
      as (task & -> & Hin).
    apply tasks_point in Hin as (sd0 & Hl0 & Hb & Ht & _).
    rewrite Hj in Hl0. injection Hl0 as -> ->.
    destruct Hor; congruence. }
  exists sd'. split_and!; try done.
  intros Hc Hb. destruct (is_translated sd lang) eqn:Et.
  - rewrite Hkeep by (by right). done.
  - apply Hy, tasks_language_writes; [done|].
    destruct (tasks_cover lang st entries j k sd Hj Hb Et)
      as (task & Hin & <- & _).
    by apply list_elem_of_fmap_2.
Qed.

(** The loop over the languages, entry by entry: the key and the other
    members of an entry stay; what it holds for a language that is not
    processed, or for which it was translated, stays; an entry with a
    blank key is not touched. *)
Lemma language_loop_entry (dry_run : bool) (langs : list text) :
  forall stats entries svc j k sd,
    entries !! j = Some (k, sd) ->
    exists sd',
      (foldl (language_step dry_run) (stats, entries, svc) langs).1.2 !! j
        = Some (k, sd') /\
      entry_extra sd' = entry_extra sd /\
      (forall l, l ∉ langs ->
         localizations_of sd' !! l = localizations_of sd !! l) /\
      (forall l, is_translated sd l = true ->
         localizations_of sd' !! l = localizations_of sd !! l) /\
      (is_blank k = true -> sd' = sd).
Proof.
  induction langs as [|lang langs IH]; intros stats entries svc j k sd Hj.
  { exists sd. by split_and!. }
  rewrite foldl_step, language_step_eq.
  destruct (stats !! lang) as [st0|].
  2:{ destruct (IH stats entries svc j k sd Hj)
        as (sd' & Hl & He & Ho & Ht & Hb).
      exists sd'. split_and!; try done.
      intros l Hl'. apply Ho. by apply not_elem_of_cons in Hl' as [_ ?]. }
  destruct dry_run.
  { destruct (IH (<[lang := (language_outcome lang st0 entries svc).1]> stats)
                 entries (language_outcome lang st0 entries svc).2 j k sd Hj)
      as (sd' & Hl & He & Ho & Ht & Hb).
    exists sd'. split_and!; try done.
    intros l Hl'. apply Ho. by apply not_elem_of_cons in Hl' as [_ ?]. }
  destruct (language_pass_entry lang st0 entries svc j k sd Hj)
    as (sd1 & Hl1 & He1 & Ho1 & Hk1 & _).
  destruct (IH (<[lang := (language_outcome lang st0 entries svc).1]> stats)
               _ (language_outcome lang st0 entries svc).2 j k sd1 Hl1)
    as (sd' & Hl & He & Ho & Ht & Hb).
  exists sd'. split_and!; [done|congruence| | |].
  - intros l Hl'. apply not_elem_of_cons in Hl' as [Hne Hl'].
    rewrite Ho by done. by apply Ho1.
  - intros l Hone.
    assert (H1 : localizations_of sd1 !! l = localizations_of sd !! l).
    { destruct (decide (l = lang)) as [->|Hne]; [|by apply Ho1].
      rewrite Hk1; [done | by right]. }
    rewrite Ht; [done|]. by rewrite (is_translated_same_object sd sd1 l).
  - intros Hblank. rewrite Hb by done. apply Hk1. by left.
Qed.

Lemma language_loop_length (dry_run : bool) (langs : list text) :
  forall stats entries svc,
    length (foldl (language_step dry_run) (stats, entries, svc) langs).1.2
    = length entries.
Proof.
  induction langs as [|lang langs IH]; intros stats entries svc; [done|].
  rewrite foldl_step, language_step_eq.
  destruct (stats !! lang); [|by apply IH].
  rewrite IH. destruct dry_run; [done|]. apply apply_writes_length.
Qed.

(** A run that writes leaves nothing missing for the languages it has
    processed, when the service answers every text. *)
Lemma language_loop_complete (langs : list text) :
  answers_every_text ->
  forall stats entries svc,
    (forall l, l ∈ langs -> is_Some (stats !! l)) ->
    forall l, l ∈ langs ->
      missing_entries l
        (foldl (language_step false) (stats, entries, svc) langs).1.2 = [].
Proof.
  intros Hc. induction langs as [|lang langs IH];
    intros stats entries svc Hstats l Hl.
  { by apply elem_of_nil in Hl. }
  rewrite foldl_step, language_step_eq.
  destruct (Hstats lang) as [st0 Hst0]; [apply list_elem_of_here|].
  rewrite Hst0.
  destruct (decide (l ∈ langs)) as [Hin|Hout].
  { apply IH; [|done]. intros l' Hl'. rewrite lookup_insert.
    case_decide; [by eexists|]. apply Hstats. by apply list_elem_of_further. }
  apply elem_of_cons in Hl as [->|Hl]; [|done].
  apply missing_entries_nil. intros j k sd' Hj Hb.
  set (entries1 := apply_writes lang (language_writes lang st0 entries svc)
                                entries) in *.
  assert (Hlt : j < length entries).
  { apply lookup_lt_Some in Hj. rewrite language_loop_length in Hj.
    unfold entries1 in Hj. by rewrite apply_writes_length in Hj. }
  apply lookup_lt_is_Some in Hlt as [[k0 sd0] Hj0].
  destruct (language_pass_entry lang st0 entries svc j k0 sd0 Hj0)
    as (sd1 & Hl1 & _ & _ & _ & Hdone).
  destruct (language_loop_entry false langs
              (<[lang := (language_outcome lang st0 entries svc).1]> stats)
              entries1 (language_outcome lang st0 entries svc).2 j k0 sd1 Hl1)
    as (sd2 & Hl2 & _ & _ & Ht & _).
  rewrite Hj in Hl2. injection Hl2 as <- <-.
  specialize (Hdone Hc Hb).
  rewrite (is_translated_same_object sd1 sd' lang); [done|]. by apply Ht.
Qed.

End PipelineWrites.

Lemma concat_replicate_0 {A} (l : list A) : concat (replicate 0 <$> l) = [].
Proof. by induction l. Qed.

Lemma alter_loop_lookup
    (f : text -> LocalizationStats -> LocalizationStats)
    (langs : list text) (l : text) :
  forall stats : gmap text LocalizationStats,
    foldl (fun stats lang => alter (f lang) lang stats) stats langs !! l =
    Nat.iter (times_requested l langs) (f l) <$> stats !! l.
Proof.
  unfold times_requested.
  induction langs as [|lang langs IH]; intros stats.
  { simpl. by destruct (stats !! l). }
  rewrite foldl_step, IH, filter_cons. case_decide as E.
  - subst lang. rewrite lookup_alter_eq. destruct (stats !! l); [|done].
    simpl. f_equal. by rewrite Nat.iter_swap.
  - by rewrite lookup_alter_ne.
Qed.

Lemma counted_entries_cons (e : text * StringData)
    (entries : list (text * StringData)) :
  counted_entries (e :: entries) =
  if is_blank e.1 then counted_entries entries
  else e :: counted_entries entries.
Proof.
  unfold counted_entries. rewrite filter_cons.
  destruct (is_blank e.1); simpl; try case_decide; done.
Qed.

Lemma translated_entries_cons (lang : text) (e : text * StringData)
    (entries : list (text * StringData)) :
  translated_entries lang (e :: entries) =
  if negb (is_blank e.1) && is_translated e.2 lang
  then e :: translated_entries lang entries
  else translated_entries lang entries.
Proof.
  unfold translated_entries. rewrite filter_cons.
  destruct (is_blank e.1), (is_translated e.2 lang); simpl;
    try case_decide;
    first [done | naive_solver].
Qed.

Lemma missing_entries_cons (lang : text) (e : text * StringData)
    (entries : list (text * StringData)) :
  missing_entries lang (e :: entries) =
  if negb (is_blank e.1) && negb (is_translated e.2 lang)
  then e :: missing_entries lang entries
  else missing_entries lang entries.
Proof.
  unfold missing_entries. rewrite filter_cons.
  destruct (is_blank e.1), (is_translated e.2 lang); simpl;
    try case_decide;
    first [done | naive_solver].
Qed.

Lemma counted_entries_split (lang : text)
    (entries : list (text * StringData)) :
  length (counted_entries entries) =
  length (translated_entries lang entries) +
  length (missing_entries lang entries).
Proof.
  induction entries as [|e entries IH]; [done|].
  rewrite counted_entries_cons, translated_entries_cons,
    missing_entries_cons.
  destruct (is_blank e.1), (is_translated e.2 lang); simpl; lia.
Qed.

Lemma tally_nil (n : nat) (lang : text) (st : LocalizationStats) :
  tally n lang [] st = st.
Proof.
  destruct st. unfold tally. simpl.
  rewrite app_nil_r. f_equal; lia.
Qed.

Lemma analyze_entry_rounds (n : nat) (k : text) (sd : StringData)
    (lang : text) (st : LocalizationStats) :
  is_blank k = false ->
  Nat.iter n (analyze_entry k sd lang) st = tally n lang [(k, sd)] st.
Proof.
  intros Hb. induction n as [|n IH].
  { unfold tally. rewrite concat_replicate_0. destruct st. simpl.
    rewrite app_nil_r. f_equal; lia. }
  rewrite Nat.iter_succ, IH.
  unfold tally, analyze_entry.
  rewrite counted_entries_cons, translated_entries_cons,
    missing_entries_cons.
  cbn [fst snd]. rewrite Hb.
  unfold incr_translated, append_missing_key, incr_missing, incr_total_keys.
  destruct (is_translated sd lang) eqn:Et; cbn -[Nat.mul replicate].
  - rewrite !app_nil_r. f_equal; lia.
  - rewrite !app_nil_r. f_equal; try lia.
    rewrite <- app_assoc. f_equal. by rewrite replicate_S_end.
Qed.

Lemma tally_cons (n : nat) (lang : text) (e : text * StringData)
    (entries : list (text * StringData)) (st : LocalizationStats) :
  tally n lang entries (tally n lang [e] st) = tally n lang (e :: entries) st.
Proof.
  unfold tally.
  rewrite !counted_entries_cons, !translated_entries_cons,
    !missing_entries_cons.
  destruct (is_blank e.1), (is_translated e.2 lang);
    cbn -[Nat.mul replicate]; rewrite ?app_nil_r; f_equal; try lia;
    by rewrite <- app_assoc.
Qed.

Lemma tally_blank (n : nat) (lang : text) (k : text) (sd : StringData)
    (entries : list (text * StringData)) (st : LocalizationStats) :
  is_blank k = true ->
  tally n lang ((k, sd) :: entries) st = tally n lang entries st.
Proof.
  intros Hb. unfold tally.
  rewrite !counted_entries_cons, !translated_entries_cons,
    !missing_entries_cons.
  cbn [fst snd]. by rewrite Hb.
Qed.

Lemma analyze_loop_lookup (langs : list text) (l : text)
    (entries : list (text * StringData)) :
  forall stats : gmap text LocalizationStats,
    foldl (fun stats '(key, string_data) =>
             if is_blank key then stats
             else foldl (fun stats lang =>
                           alter (analyze_entry key string_data lang) lang stats)
                        stats langs)
          stats entries !! l =
    tally (times_requested l langs) l entries <$> stats !! l.
Proof.
  induction entries as [|[k sd] entries IH]; intros stats.
  { simpl. destruct (stats !! l); [|done]. simpl. by rewrite tally_nil. }
  rewrite foldl_step, IH. destruct (is_blank k) eqn:Eb.
  - destruct (stats !! l); [|done]. simpl. by rewrite tally_blank.
  - rewrite (alter_loop_lookup (analyze_entry k sd)).
    destruct (stats !! l); [|done]. simpl.
    by rewrite analyze_entry_rounds, tally_cons.
Qed.

Lemma initial_stats_None (langs : list text) (lang : text) :
  lang ∉ langs -> initial_stats langs !! lang = None.
Proof.
  intros H. unfold initial_stats. apply not_elem_of_list_to_map_1.
  rewrite <- list_fmap_compose. intros Hin.
  apply list_elem_of_fmap in Hin as (l & -> & Hin). done.
Qed.

(** The analysis of a loaded catalog, language by language. *)
Lemma analyze_lookup (data : Data) (languages : option (list text))
    (l : text) :
  data_is_empty data = false ->
  analyze data languages !! l =
  if decide (l ∈ target_langs languages)
  then Some (tally (times_requested l (target_langs languages)) l
                   (default [] (strings data)) (new_stats l))
  else None.
Proof.
  intros Hne. unfold analyze. rewrite Hne, analyze_loop_lookup.
  case_decide as Hin.
  - by rewrite initial_stats_is_Some.
  - by rewrite initial_stats_None.
Qed.

Lemma times_requested_NoDup (lang : text) (langs : list text) :
  NoDup langs -> lang ∈ langs -> times_requested lang langs = 1.
Proof.
  unfold times_requested. induction 1 as [|l langs Hl Hnd IH].
  { intros H. by apply elem_of_nil in H. }
  intros Hin. rewrite filter_cons. case_decide as E.
  - subst l. simpl. f_equal. apply length_zero_iff_nil, elem_of_nil_inv.
    intros x Hx. apply list_elem_of_filter in Hx as [-> Hx]. done.
  - apply elem_of_cons in Hin as [->|Hin]; [done|]. by apply IH.
Qed.

Lemma times_requested_pos (lang : text) (langs : list text) :
  lang ∈ langs -> 0 < times_requested lang langs.
Proof.
  unfold times_requested. intros Hin.
  assert (H : lang ∈ filter (fun l => l = lang) langs)
    by (by apply list_elem_of_filter).
  destruct (filter _ langs); [by apply elem_of_nil in H | simpl; lia].
Qed.

Lemma length_concat_replicate {A} (n : nat) (l : list A) :
  length (concat (replicate n <$> l)) = n * length l.
Proof.
  induction l as [|x l IH]; [simpl; lia|].
  rewrite fmap_cons. cbn [concat length].
  rewrite length_app, length_replicate, IH. lia.
Qed.

Lemma concat_replicate_1 {A} (l : list A) : concat (replicate 1 <$> l) = l.
Proof. induction l as [|x l IH]; [done|]. simpl. by f_equal. Qed.

Lemma counted_entries_apply_at (lang value : text) (idx : nat)
    (entries : list (text * StringData)) :
  length (counted_entries (apply_at idx lang value entries)) =
  length (counted_entries entries).
Proof.
  unfold apply_at. revert idx.
  induction entries as [|[k sd] entries IH]; intros [|idx]; try done.
  - cbn [alter list_alter]. rewrite !counted_entries_cons. cbn [fst].
    by destruct (is_blank k).
  - cbn [alter list_alter]. rewrite !counted_entries_cons. cbn [fst].
    pose proof (IH idx) as IH'. destruct (is_blank k); simpl; by rewrite IH'.
Qed.

Lemma translated_entries_apply_at (l lang value : text) (idx : nat)
    (entries : list (text * StringData)) :
  l <> lang ->
  length (translated_entries l (apply_at idx lang value entries)) =
  length (translated_entries l entries).
Proof.
  intros Hl. unfold apply_at. revert idx.
  induction entries as [|[k sd] entries IH]; intros [|idx]; try done.
  - cbn [alter list_alter]. rewrite !translated_entries_cons. cbn [fst snd].
    rewrite is_translated_apply_ne by done.
    by destruct (negb (is_blank k) && is_translated sd l).
  - cbn [alter list_alter]. rewrite !translated_entries_cons. cbn [fst snd].
    pose proof (IH idx) as IH'.
    destruct (negb (is_blank k) && is_translated sd l); simpl; by rewrite IH'.
Qed.

Lemma counted_entries_apply_writes (lang : text)
    (writes : list (nat * text)) :
  forall entries,
    length (counted_entries (apply_writes lang writes entries)) =
    length (counted_entries entries).
Proof.
  induction writes as [|[i v] writes IH]; intros entries; [done|].
  unfold apply_writes in *. simpl. rewrite IH.
  apply counted_entries_apply_at.
Qed.

Lemma translated_entries_apply_writes (l lang : text)
    (writes : list (nat * text)) :
  l <> lang ->
  forall entries,
    length (translated_entries l (apply_writes lang writes entries)) =
    length (translated_entries l entries).
Proof.
  intros Hl. induction writes as [|[i v] writes IH]; intros entries; [done|].
  unfold apply_writes in *. simpl. rewrite IH.
  by apply translated_entries_apply_at.
Qed.

Section PipelineCounts.

Variable TRANSLATOR_AVAILABLE : bool.
Variable Service : Type.
Variable service_translate :
  Service -> text -> list text -> Service * option (list (option text)).

#[local] Abbreviation language_step :=
  (language_step TRANSLATOR_AVAILABLE Service service_translate).
#[local] Abbreviation process_missing_translations :=
  (process_missing_translations TRANSLATOR_AVAILABLE Service
                                service_translate).
#[local] Abbreviation language_outcome :=
  (language_outcome TRANSLATOR_AVAILABLE Service service_translate).
#[local] Abbreviation language_writes :=
  (language_writes TRANSLATOR_AVAILABLE Service service_translate).

(** What one language adds to the counters of the collection; the
    pipeline never fills [missing_keys]. *)
Lemma language_outcome_keys (lang : text) (st : LocalizationStats)
    (entries : list (text * StringData)) (svc : Service) :
  let st' := (language_outcome lang st entries svc).1 in
  language st' = language st /\
  total_keys st' = total_keys st + length (counted_entries entries) /\
  translated st' = translated st + length (translated_entries lang entries) /\
  missing st' = missing st + length (missing_entries lang entries) /\
  missing_keys st' = missing_keys st.
Proof.
  unfold language_outcome. rewrite collect_tasks_eq.
  destruct (to_translate_of lang st entries);
    [|destruct TRANSLATOR_AVAILABLE]; by simpl.
Qed.

(** When no language comes twice, the counters of the collection are
    those of the catalog as it was before the first language. *)
Lemma language_loop_keys (dry_run : bool) (langs : list text) :
  NoDup langs ->
  forall stats entries svc,
    (forall l, l ∈ langs -> stats !! l = Some (new_stats l)) ->
    forall l st,
      l ∈ langs ->
      (foldl (language_step dry_run) (stats, entries, svc) langs).1.1 !! l
        = Some st ->
      language st = l /\
      total_keys st = length (counted_entries entries) /\
      translated st = length (translated_entries l entries) /\
      missing st = length (missing_entries l entries) /\
      missing_keys st = [].
Proof.
  induction langs as [|lang langs IH];
    intros Hnd stats entries svc Hinit l st Hl Hst.
  { by apply elem_of_nil in Hl. }
  apply NoDup_cons in Hnd as [Hlang Hnd].
  rewrite foldl_step, language_step_eq in Hst.
  rewrite (Hinit lang) in Hst by apply list_elem_of_here.
  apply elem_of_cons in Hl as [->|Hl].
  - rewrite language_loop_untouched, lookup_insert_eq in Hst by done.
    injection Hst as <-.
    pose proof (language_outcome_keys lang (new_stats lang) entries svc)
      as (H1 & H2 & H3 & H4 & H5).
    simpl in *. by split_and!.
  - assert (Hne : l <> lang) by (by intros ->).
    apply IH in Hst; [|done| |done].
    + destruct Hst as (H1 & H2 & H3 & H4 & H5).
      destruct dry_run; [done|].
      rewrite counted_entries_apply_writes in H2.
      rewrite translated_entries_apply_writes in H3 by done.
      rewrite missing_entries_apply_writes in H4 by done.
      done.
    + intros l' Hl'. rewrite lookup_insert_ne by (by intros ->).
      apply Hinit. by apply list_elem_of_further.
Qed.

End PipelineCounts.

Lemma french_and_german_fit :
  NoDup (target_langs (Some [str "fr"; str "de"])) /\
  SOURCE_LANGUAGE ∉ target_langs (Some [str "fr"; str "de"]).
Proof.
  split.
  - simpl. apply NoDup_cons. split; [|apply NoDup_singleton].
    rewrite list_elem_of_singleton. discriminate.
  - simpl. rewrite !elem_of_cons, elem_of_nil.
    intros H. decompose [or] H; discriminate || done.
Qed.

(** X1: in the analysis of a loaded catalog, a requested language that
    is requested once has the number of keys that are not blank as
    [total_keys], the number of those that are translated for it as
    [translated], the number of the others as [missing], and the keys of
    the others, in the order of the catalog, as [missing_keys]; the
    three counters of a run stay zero. *)
Theorem analyze_counts_the_catalog (data : Data)
    (languages : option (list text)) (lang : text) :
  data_is_empty data = false ->
  NoDup (target_langs languages) ->
  lang ∈ target_langs languages ->
  analyze data languages !! lang =
  Some {| language := lang;
          total_keys := length (counted_entries (default [] (strings data)));
          translated :=
            length (translated_entries lang (default [] (strings data)));
          missing :=
            length (missing_entries lang (default [] (strings data)));
          patterns_copied := 0;
          texts_translated := 0;
          errors := 0;
          missing_keys := (missing_entries lang (default [] (strings data))).*1
       |}.
Proof.
  intros Hne Hnd Hin. rewrite analyze_lookup by done.
  rewrite decide_True by done. rewrite times_requested_NoDup by done.
  unfold tally, new_stats. cbn [language total_keys translated missing
    patterns_copied texts_translated errors missing_keys].
  rewrite concat_replicate_1. f_equal. f_equal; lia.
Qed.

Lemma analyze_counts_the_catalog_witness :
  data_is_empty sample_catalog = false /\
  NoDup (target_langs (Some [str "fr"; str "de"])) /\
  str "fr" ∈ target_langs (Some [str "fr"; str "de"]) /\
  analyze sample_catalog (Some [str "fr"; str "de"]) !! str "fr" =
  Some {| language := str "fr"; total_keys := 3; translated := 1;
          missing := 2; patterns_copied := 0; texts_translated := 0;
          errors := 0; missing_keys := [str "Hello"; str "%lld"] |}.
Proof.
  assert (Hnd : NoDup (target_langs (Some [str "fr"; str "de"]))).
  { exact (proj1 french_and_german_fit). }
  assert (Hin : str "fr" ∈ target_langs (Some [str "fr"; str "de"])).
  { apply list_elem_of_here. }
  split; [reflexivity|]. split; [exact Hnd|]. split; [exact Hin|].
  exact (analyze_counts_the_catalog sample_catalog
           (Some [str "fr"; str "de"]) (str "fr") eq_refl Hnd Hin).
Defined.

(** X2: a language has statistics in an analysis only if it is
    requested, and its counters are those of the catalog once for every
    time the request names it; [missing] is always the length of
    [missing_keys]. *)
Theorem analyze_counts_once_per_request (data : Data)
    (languages : option (list text)) (lang : text) (st : LocalizationStats) :
  analyze data languages !! lang = Some st ->
  let n := times_requested lang (target_langs languages) in
  let entries := default [] (strings data) in
  lang ∈ target_langs languages /\
  0 < n /\
  total_keys st = n * length (counted_entries entries) /\
  translated st = n * length (translated_entries lang entries) /\
  missing st = n * length (missing_entries lang entries) /\
  length (missing_keys st) = missing st.
Proof.
  intros Hst. destruct (data_is_empty data) eqn:Hne.
  { unfold analyze in Hst. rewrite Hne in Hst. by rewrite lookup_empty in Hst. }
  rewrite analyze_lookup in Hst by done. case_decide as Hin; [|done].
  injection Hst as <-. simpl. split_and!; try done.
  - by apply times_requested_pos.
  - by rewrite length_concat_replicate, length_fmap.
Qed.

Lemma analyze_counts_once_per_request_witness :
  analyze sample_catalog (Some [str "fr"; str "fr"]) !! str "fr" =
  Some {| language := str "fr"; total_keys := 6; translated := 2;
          missing := 4; patterns_copied := 0; texts_translated := 0;
          errors := 0;
          missing_keys := [str "Hello"; str "Hello"; str "%lld"; str "%lld"]
       |} /\
  times_requested (str "fr") (target_langs (Some [str "fr"; str "fr"])) = 2 /\
  6 = 2 * length (counted_entries sample_entries).
Proof.
  assert (H : analyze sample_catalog (Some [str "fr"; str "fr"]) !! str "fr" =
    Some {| language := str "fr"; total_keys := 6; translated := 2;
            missing := 4; patterns_copied := 0; texts_translated := 0;
            errors := 0;
            missing_keys := [str "Hello"; str "Hello"; str "%lld"; str "%lld"]
         |}) by (vm_compute; reflexivity).
  split; [exact H|]. split; [vm_compute; reflexivity|].
  exact (proj1 (proj2 (proj2 (analyze_counts_once_per_request _ _ _ _ H)))).
Defined.

Section PipelineGuarantees.

Variable TRANSLATOR_AVAILABLE : bool.
Variable Service : Type.
Variable service_translate :
  Service -> text -> list text -> Service * option (list (option text)).

#[local] Abbreviation language_step :=
  (language_step TRANSLATOR_AVAILABLE Service service_translate).
#[local] Abbreviation process_missing_translations :=
  (process_missing_translations TRANSLATOR_AVAILABLE Service
                                service_translate).
#[local] Abbreviation language_outcome :=
  (language_outcome TRANSLATOR_AVAILABLE Service service_translate).
#[local] Abbreviation language_writes :=
  (language_writes TRANSLATOR_AVAILABLE Service service_translate).
#[local] Abbreviation answers_every_text :=
  (answers_every_text Service service_translate).

(** The run of a loaded catalog, as the loop over the languages. *)
Lemma process_run_eq (data : Data) (languages : option (list text))
    (dry_run : bool) (svc : Service) :
  data_is_empty data = false ->
  let r := foldl (language_step dry_run)
                 (initial_stats (target_langs languages),
                  default [] (strings data), svc)
                 (target_langs languages) in
  (process_missing_translations data languages dry_run svc).1.1 = r.1.1 /\
  default []
    (strings (process_missing_translations data languages dry_run svc).1.2)
    = r.1.2 /\
  data_extra (process_missing_translations data languages dry_run svc).1.2
    = data_extra data /\
  (process_missing_translations data languages dry_run svc).2 = r.2.
Proof.
  intros Hne. unfold process_missing_translations. rewrite Hne.
  pose proof (language_loop_length TRANSLATOR_AVAILABLE Service
                service_translate dry_run (target_langs languages)
                (initial_stats (target_langs languages))
                (default [] (strings data)) svc) as Hlen.
  destruct (foldl _ _ _) as [[stats entries] svc']. simpl in *.
  split_and!; try done.
  destruct (strings data); [done|]. simpl in *. by destruct entries.
Qed.

Lemma process_run_empty (data : Data) (languages : option (list text))
    (dry_run : bool) (svc : Service) :
  data_is_empty data = true ->
  process_missing_translations data languages dry_run svc = (∅, data, svc) /\
  strings data = None.
Proof.
  intros He. unfold process_missing_translations. rewrite He. split; [done|].
  unfold data_is_empty in He. by destruct (strings data).
Qed.

Lemma initial_stats_all (langs : list text) (l : text) :
  l ∈ langs -> is_Some (initial_stats langs !! l).
Proof. intros H. rewrite initial_stats_is_Some by done. by eexists. Qed.

(** X3: when no language is requested twice, a run, dry or not,
    reports for every language the [total_keys], [translated] and
    [missing] that [analyze] reports for the catalog as it was before
    the run; the run never fills [missing_keys]. *)
Theorem run_counts_what_analyze_counts (data : Data)
    (languages : option (list text)) (dry_run : bool) (svc : Service)
    (lang : text) (st : LocalizationStats) :
  NoDup (target_langs languages) ->
  (process_missing_translations data languages dry_run svc).1.1 !! lang
    = Some st ->
  exists st_a,
    analyze data languages !! lang = Some st_a /\
    language st = language st_a /\
    total_keys st = total_keys st_a /\
    translated st = translated st_a /\
    missing st = missing st_a /\
    missing st = length (missing_keys st_a) /\
    missing_keys st = [].
Proof.
  intros Hnd Hst. destruct (data_is_empty data) eqn:Hne.
  { destruct (process_run_empty data languages dry_run svc Hne) as [H _].
    rewrite H in Hst. simpl in Hst. by rewrite lookup_empty in Hst. }
  destruct (process_run_eq data languages dry_run svc Hne) as (H & _).
  rewrite H in Hst. clear H.
  destruct (decide (lang ∈ target_langs languages)) as [Hin|Hout].
  2:{ rewrite language_loop_untouched, initial_stats_None in Hst by done.
      done. }
  apply (language_loop_keys TRANSLATOR_AVAILABLE Service service_translate
           dry_run _ Hnd) in Hst; [|by apply initial_stats_is_Some|done].
  destruct Hst as (H1 & H2 & H3 & H4 & H5).
  eexists. split.
  - rewrite analyze_lookup by done. rewrite decide_True by done. reflexivity.
  - rewrite times_requested_NoDup by done. unfold tally, new_stats.
    cbn [language total_keys translated missing missing_keys app].
    rewrite length_concat_replicate, length_fmap. split_and!; try done; lia.
Qed.

(** X4: after a run that writes, with a service that answers every
    text, every key that is not blank is translated for every requested
    language, and the analysis of the catalog reports nothing missing
    for it. *)
Theorem real_run_leaves_nothing_missing (data : Data)
    (languages : option (list text)) (svc : Service) (lang : text) :
  answers_every_text ->
  lang ∈ target_langs languages ->
  let data' := (process_missing_translations data languages false svc).1.2 in
  (forall j k sd,
     default [] (strings data') !! j = Some (k, sd) ->
     is_blank k = false -> is_translated sd lang = true) /\
  (forall st, analyze data' languages !! lang = Some st ->
     missing st = 0 /\ missing_keys st = [] /\
     translated st = total_keys st).
Proof.
  intros Hc Hin data'.
  assert (Hnone : missing_entries lang (default [] (strings data')) = []).
  { unfold data'. destruct (data_is_empty data) eqn:Hne.
    - destruct (process_run_empty data languages false svc Hne) as [H1 H2].
      rewrite H1. simpl. by rewrite H2.
    - destruct (process_run_eq data languages false svc Hne)
        as (_ & -> & _).
      apply language_loop_complete; [done| |done].
      intros l Hl. by apply initial_stats_all. }
  split; [by apply missing_entries_nil|].
  intros st Hst.
  destruct (data_is_empty data') eqn:Hne'.
  { unfold analyze in Hst. rewrite Hne' in Hst.
    by rewrite lookup_empty in Hst. }
  rewrite analyze_lookup in Hst by done. rewrite decide_True in Hst by done.
  injection Hst as <-. unfold tally, new_stats.
  cbn [language total_keys translated missing missing_keys app].
  rewrite Hnone. split_and!; [simpl; lia|done|].
  rewrite (counted_entries_split lang), Hnone. simpl. lia.
Qed.

(** *** A catalog with nothing missing *)

Lemma tasks_of_settled (lang : text) (st : LocalizationStats)
    (entries : list (text * StringData)) :
  missing_entries lang entries = [] -> tasks_of lang st entries = [].
Proof.
  intros H. apply length_zero_iff_nil.
  pose proof (collect_tasks_spec lang st entries) as (_ & _ & _ & _ & Hl & _).
  unfold tasks_of. simpl in Hl. by rewrite Hl, H.
Qed.

Lemma language_step_settled (dry_run : bool) (lang : text)
    (stats : gmap text LocalizationStats)
    (entries : list (text * StringData)) (svc : Service)
    (st : LocalizationStats) :
  missing_entries lang entries = [] ->
  stats !! lang = Some st ->
  language_step dry_run (stats, entries, svc) lang =
  (<[lang := count_keys (length (counted_entries entries))
                        (length (translated_entries lang entries)) 0 st]>
     stats, entries, svc).
Proof.
  intros Hnone Hst. rewrite language_step_eq, Hst.
  unfold language_outcome, language_writes, merged_of, translations_of,
    patterns_of, to_translate_of.
  rewrite tasks_of_settled by done. rewrite collect_tasks_eq, Hnone.
  rewrite !filter_nil. simpl. rewrite bump_0.
  by destruct dry_run, TRANSLATOR_AVAILABLE.
Qed.

Lemma language_loop_settled (dry_run : bool) (langs : list text)
    (entries : list (text * StringData)) (svc : Service) :
  (forall l, l ∈ langs -> missing_entries l entries = []) ->
  forall stats,
    (forall l st, stats !! l = Some st -> nothing_done st) ->
    exists stats',
      foldl (language_step dry_run) (stats, entries, svc) langs
        = (stats', entries, svc) /\
      forall l st, stats' !! l = Some st -> nothing_done st.
Proof.
  induction langs as [|lang langs IH]; intros Hnone stats Hstats.
  { by exists stats. }
  rewrite foldl_step.
  assert (Htail : forall l, l ∈ langs -> missing_entries l entries = []).
  { intros l Hl. apply Hnone. by apply list_elem_of_further. }
  destruct (stats !! lang) as [st0|] eqn:E.
  - rewrite (language_step_settled dry_run lang stats entries svc st0);
      [|apply Hnone, list_elem_of_here|done].
    apply IH; [done|]. intros l st. rewrite lookup_insert.
    case_decide; [|by apply Hstats].
    intros [= <-]. destruct (Hstats lang st0 E) as (H1 & H2 & H3 & H4).
    unfold nothing_done. simpl. split_and!; try done; lia.
  - rewrite language_step_eq, E. by apply IH.
Qed.

Lemma process_settled (data : Data) (languages : option (list text))
    (dry_run : bool) (svc : Service) :
  (forall l, l ∈ target_langs languages ->
     missing_entries l (default [] (strings data)) = []) ->
  exists stats,
    process_missing_translations data languages dry_run svc
      = (stats, data, svc) /\
    forall l st, stats !! l = Some st -> nothing_done st.
Proof.
  intros Hnone. unfold process_missing_translations.
  destruct (data_is_empty data).
  { exists ∅. split; [done|]. intros l st. by rewrite lookup_empty. }
  destruct (language_loop_settled dry_run (target_langs languages)
              (default [] (strings data)) svc Hnone
              (initial_stats (target_langs languages)))
    as (stats' & -> & Hstats).
  { intros l st H. apply initial_stats_lookup in H as ->.
    by unfold nothing_done. }
  exists stats'. split; [|done]. f_equal. f_equal.
  destruct data as [[es|] extra]; done.
Qed.

(** X5: a run after a run that wrote, for the same languages, hands
    the catalog and the service back as it got them, and counts nothing
    missing, copied, translated or failed. *)
Theorem second_run_changes_nothing (data : Data)
    (languages : option (list text)) (dry_run : bool) (svc : Service) :
  answers_every_text ->
  let first := process_missing_translations data languages false svc in
  let second :=
    process_missing_translations first.1.2 languages dry_run first.2 in
  second.1.2 = first.1.2 /\
  second.2 = first.2 /\
  forall lang st,
    second.1.1 !! lang = Some st ->
    missing st = 0 /\ patterns_copied st = 0 /\ texts_translated st = 0 /\
    errors st = 0.
Proof.
  intros Hc first second.
  destruct (process_settled first.1.2 languages dry_run first.2)
    as (stats & Heq & Hstats).
  { intros l Hl. unfold first. destruct (data_is_empty data) eqn:Hne.
    - destruct (process_run_empty data languages false svc Hne) as [H1 H2].
      rewrite H1. simpl. by rewrite H2.
    - destruct (process_run_eq data languages false svc Hne)
        as (_ & -> & _).
      apply language_loop_complete; [done| |done].
      intros l' Hl'. by apply initial_stats_all. }
  unfold second. rewrite Heq. simpl. split_and!; try done.
Qed.

(** X6: a run keeps the number and the order of the entries, their
    keys, the members of an entry outside ["localizations"] and the
    members of the document outside ["strings"]; what an entry holds for
    a language that is not requested, or for a language for which it was
    translated already, stays as it was; an entry with a blank key is
    not touched. *)
Theorem run_keeps_what_is_there (data : Data)
    (languages : option (list text)) (dry_run : bool) (svc : Service)
    (j : nat) (k : text) (sd : StringData) :
  default [] (strings data) !! j = Some (k, sd) ->
  let data' :=
    (process_missing_translations data languages dry_run svc).1.2 in
  length (default [] (strings data')) = length (default [] (strings data)) /\
  data_extra data' = data_extra data /\
  exists sd',
    default [] (strings data') !! j = Some (k, sd') /\
    entry_extra sd' = entry_extra sd /\
    (forall l, l ∉ target_langs languages ->
       localizations_of sd' !! l = localizations_of sd !! l) /\
    (forall l, is_translated sd l = true ->
       localizations_of sd' !! l = localizations_of sd !! l) /\
    (is_blank k = true -> sd' = sd).
Proof.
  intros Hj data'. unfold data'.
  destruct (data_is_empty data) eqn:Hne.
  { destruct (process_run_empty data languages dry_run svc Hne) as [H1 H2].
    rewrite H2 in Hj. done. }
  destruct (process_run_eq data languages dry_run svc Hne)
    as (_ & -> & -> & _).
  split; [apply language_loop_length|]. split; [done|].
  by apply language_loop_entry.
Qed.


(** *** What is stored *)

(** A language writes every entry once at most. *)
Lemma language_writes_NoDup (lang : text) (st : LocalizationStats)
    (entries : list (text * StringData)) (svc : Service) :
  NoDup (language_writes lang st entries svc).*1.
Proof.
  pose proof (collect_tasks_spec lang st entries)
    as (_ & _ & _ & _ & _ & Hnd & _). simpl in Hnd.
  assert (Hall : NoDup (string_data <$>
            (patterns_of lang st entries ++ to_translate_of lang st entries))).
  { unfold patterns_of, to_translate_of.
    by rewrite filter_app_complement. }
  unfold language_writes, merged_of.
  rewrite fmap_app, copy_write_fst.
  destruct TRANSLATOR_AVAILABLE.
  - rewrite merge_write_fst, zip_fst_take, <- fmap_app.
    eapply sublist_NoDup; [exact Hall|].
    apply fmap_sublist, sublist_app; [done|apply sublist_take].
  - by rewrite copy_write_fst, <- fmap_app.
Qed.

(** What one language stores for a key that is copied. *)
Lemma language_pass_copies (lang : text) (st : LocalizationStats)
    (entries : list (text * StringData)) (svc : Service) (j : nat)
    (k : text) (sd : StringData) :
  entries !! j = Some (k, sd) ->
  is_blank k = false -> is_translated sd lang = false ->
  is_pattern_only (get_source_value k sd) = true \/
    TRANSLATOR_AVAILABLE = false ->
  exists sd',
    apply_writes lang (language_writes lang st entries svc) entries !! j
      = Some (k, sd') /\
    localizations_of sd' !! lang
      = Some (translated_unit (get_source_value k sd)).
Proof.
  intros Hj Hb Ht Hcopy.
  destruct (tasks_cover lang st entries j k sd Hj Hb Ht)
    as (task & Hin & Hidx & Hkey & Hsrc & Hpat).
  apply (apply_writes_written lang _ entries j (get_source_value k sd) k sd);
    [apply language_writes_NoDup| |done].
  replace (j, get_source_value k sd) with (copy_write task)
    by (unfold copy_write; by rewrite Hidx, Hsrc).
  unfold language_writes, patterns_of, to_translate_of.
  apply elem_of_app. destruct (is_pattern task) eqn:Ep.
  - left. apply list_elem_of_fmap_2. by apply list_elem_of_filter.
  - right. destruct Hcopy as [Hp|Hoff]; [congruence|]. rewrite Hoff.
    apply list_elem_of_fmap_2. apply list_elem_of_filter.
    split; [by rewrite Ep|done].
Qed.

Lemma language_loop_copies (lang : text) (langs : list text) :
  SOURCE_LANGUAGE ∉ langs -> lang ∈ langs ->
  forall stats entries svc j k sd,
    (forall l, l ∈ langs -> is_Some (stats !! l)) ->
    entries !! j = Some (k, sd) ->
    is_blank k = false -> is_translated sd lang = false ->
    is_pattern_only (get_source_value k sd) = true \/
      TRANSLATOR_AVAILABLE = false ->
    exists sd',
      (foldl (language_step false) (stats, entries, svc) langs).1.2 !! j
        = Some (k, sd') /\
      localizations_of sd' !! lang
        = Some (translated_unit (get_source_value k sd)).
Proof.
  induction langs as [|l0 langs IH];
    intros Hsrc Hin stats entries svc j k sd Hstats Hj Hb Ht Hcopy.
  { by apply elem_of_nil in Hin. }
  apply not_elem_of_cons in Hsrc as [Hsrc0 Hsrc].
  rewrite foldl_step, language_step_eq.
  destruct (Hstats l0) as [st0 Hst0]; [apply list_elem_of_here|].
  rewrite Hst0.
  assert (Hstats' : forall l, l ∈ langs ->
            is_Some (<[l0 := (language_outcome l0 st0 entries svc).1]> stats
                       !! l)).
  { intros l Hl. rewrite lookup_insert. case_decide; [by eexists|].
    apply Hstats. by apply list_elem_of_further. }
  destruct (decide (l0 = lang)) as [->|Hne].
  - destruct (language_pass_copies lang st0 entries svc j k sd Hj Hb Ht Hcopy)
      as (sd1 & Hl1 & Hv1).
    destruct (language_loop_entry TRANSLATOR_AVAILABLE Service
                service_translate false langs
                (<[lang := (language_outcome lang st0 entries svc).1]> stats)
                _ (language_outcome lang st0 entries svc).2 j k sd1 Hl1)
      as (sd' & Hl' & _ & _ & Hkeep & _).
    exists sd'. split; [done|]. rewrite Hkeep; [done|].
    by apply translated_unit_stored in Hv1 as [? _].
  - apply elem_of_cons in Hin as [->|Hin]; [done|].
    destruct (language_pass_entry TRANSLATOR_AVAILABLE Service
                service_translate l0 st0 entries svc j k sd Hj)
      as (sd1 & Hl1 & _ & Ho1 & _).
    destruct (IH Hsrc Hin
                (<[l0 := (language_outcome l0 st0 entries svc).1]> stats)
                _ (language_outcome l0 st0 entries svc).2 j k sd1
                Hstats' Hl1 Hb) as (sd' & Hl' & Hv').
    + rewrite (is_translated_same_object sd sd1 lang); [done|].
      apply Ho1. by intros ->.
    + rewrite (get_source_value_same_object k sd sd1); [done|].
      by apply Ho1.
    + exists sd'. split; [done|]. rewrite Hv'. do 2 f_equal.
      by apply get_source_value_same_object, Ho1.
Qed.

(** X8: in a run that writes and does not have the source language
    among its targets, a missing key whose source value is a pattern, or
    any missing key when the translation library is not there, ends
    translated for the language with its source value stored. *)
Theorem copied_value_is_source_value (data : Data)
    (languages : option (list text)) (svc : Service) (lang : text)
    (j : nat) (k : text) (sd : StringData) :
  SOURCE_LANGUAGE ∉ target_langs languages ->
  lang ∈ target_langs languages ->
  default [] (strings data) !! j = Some (k, sd) ->
  is_blank k = false -> is_translated sd lang = false ->
  is_pattern_only (get_source_value k sd) = true \/
    TRANSLATOR_AVAILABLE = false ->
  exists sd',
    default []
      (strings (process_missing_translations data languages false svc).1.2)
      !! j = Some (k, sd') /\
    is_translated sd' lang = true /\
    stored_value sd' lang = Some (get_source_value k sd).
Proof.
  intros Hsrc Hin Hj Hb Ht Hcopy.
  destruct (data_is_empty data) eqn:Hne.
  { destruct (process_run_empty data languages false svc Hne) as [H1 H2].
    rewrite H2 in Hj. done. }
  destruct (process_run_eq data languages false svc Hne) as (_ & -> & _).
  destruct (language_loop_copies lang (target_langs languages) Hsrc Hin
              (initial_stats (target_langs languages))
              (default [] (strings data)) svc j k sd)
    as (sd' & Hl & Hv); try done.
  { intros l Hl. by apply initial_stats_all. }
  exists sd'. split; [done|]. by apply translated_unit_stored.
Qed.

End PipelineGuarantees.

(** ** The guarantees on the sample catalog *)

Lemma run_counts_what_analyze_counts_witness :
  NoDup (target_langs (Some [str "fr"; str "de"])) /\
  (process_missing_translations true unit bonjour_service sample_catalog
     (Some [str "fr"; str "de"]) false tt).1.1 !! str "fr"
    = Some (stats_of (str "fr") 3 1 2 1 1 0) /\
  exists st_a,
    analyze sample_catalog (Some [str "fr"; str "de"]) !! str "fr"
      = Some st_a /\
    total_keys st_a = 3 /\ translated st_a = 1 /\ missing st_a = 2.
Proof.
  assert (Hst :
    (process_missing_translations true unit bonjour_service sample_catalog
       (Some [str "fr"; str "de"]) false tt).1.1 !! str "fr"
      = Some (stats_of (str "fr") 3 1 2 1 1 0)) by (vm_compute; reflexivity).
  split; [exact (proj1 french_and_german_fit)|]. split; [exact Hst|].
  destruct (run_counts_what_analyze_counts true unit bonjour_service
              sample_catalog (Some [str "fr"; str "de"]) false tt (str "fr")
              (stats_of (str "fr") 3 1 2 1 1 0)
              (proj1 french_and_german_fit) Hst)
    as (st_a & Ha & _ & H1 & H2 & H3 & _).
  exists st_a. split; [exact Ha|]. simpl in *. by split_and!.
Defined.

Lemma real_run_leaves_nothing_missing_witness :
  answers_every_text unit bonjour_service /\
  str "de" ∈ target_langs (Some [str "fr"; str "de"]) /\
  exists sd,
    default []
      (strings (process_missing_translations true unit bonjour_service
                  sample_catalog (Some [str "fr"; str "de"]) false tt).1.2)
      !! 3 = Some (str "Bye", sd) /\
    is_translated sd (str "de") = true.
Proof.
  assert (Hin : str "de" ∈ target_langs (Some [str "fr"; str "de"])).
  { simpl. apply list_elem_of_further, list_elem_of_here. }
  split; [exact bonjour_answers_every_text|]. split; [exact Hin|].
  eexists. split; [vm_compute; reflexivity|].
  eapply (proj1 (real_run_leaves_nothing_missing true unit bonjour_service
                   sample_catalog (Some [str "fr"; str "de"]) tt (str "de")
                   bonjour_answers_every_text Hin) 3 (str "Bye")).
  - vm_compute. reflexivity.
  - reflexivity.
Defined.

Lemma second_run_changes_nothing_witness :
  answers_every_text unit bonjour_service /\
  (process_missing_translations true unit bonjour_service
     (process_missing_translations true unit bonjour_service sample_catalog
        (Some [str "fr"; str "de"]) false tt).1.2
     (Some [str "fr"; str "de"]) false tt).1.2 =
  (process_missing_translations true unit bonjour_service sample_catalog
     (Some [str "fr"; str "de"]) false tt).1.2.
Proof.
  split; [exact bonjour_answers_every_text|].
  exact (proj1 (second_run_changes_nothing true unit bonjour_service
                  sample_catalog (Some [str "fr"; str "de"]) false tt
                  bonjour_answers_every_text)).
Defined.

Lemma run_keeps_what_is_there_witness :
  default [] (strings sample_catalog) !! 3 =
    Some (str "Bye",
          _apply_translation hello_entry (str "fr") (str "Au revoir")) /\
  exists sd',
    default []
      (strings (process_missing_translations true unit bonjour_service
                  sample_catalog (Some [str "fr"; str "de"]) false tt).1.2)
      !! 3 = Some (str "Bye", sd') /\
    stored_value sd' (str "fr") = Some (str "Au revoir").
Proof.
  split; [reflexivity|].
  destruct (run_keeps_what_is_there true unit bonjour_service sample_catalog
              (Some [str "fr"; str "de"]) false tt 3 (str "Bye")
              (_apply_translation hello_entry (str "fr") (str "Au revoir"))
              eq_refl)
    as (_ & _ & sd' & Hl & _ & _ & Hkeep & _).
  exists sd'. split; [exact Hl|].
  unfold stored_value. rewrite (Hkeep (str "fr") eq_refl). reflexivity.
Defined.


Lemma copied_value_is_source_value_witness :
  (SOURCE_LANGUAGE ∉ target_langs (Some [str "fr"; str "de"])) /\
  str "de" ∈ target_langs (Some [str "fr"; str "de"]) /\
  default [] (strings sample_catalog) !! 1 = Some (str "%lld", hello_entry) /\
  is_blank (str "%lld") = false /\
  is_translated hello_entry (str "de") = false /\
  is_pattern_only (get_source_value (str "%lld") hello_entry) = true /\
  exists sd',
    default []
      (strings (process_missing_translations true unit bonjour_service
                  sample_catalog (Some [str "fr"; str "de"]) false tt).1.2)
      !! 1 = Some (str "%lld", sd') /\
    stored_value sd' (str "de") = Some (str "%lld").
Proof.
  assert (Hin : str "de" ∈ target_langs (Some [str "fr"; str "de"])).
  { simpl. apply list_elem_of_further, list_elem_of_here. }
  split; [exact (proj2 french_and_german_fit)|]. split; [exact Hin|].
  split; [reflexivity|]. split; [reflexivity|]. split; [reflexivity|].
  split; [reflexivity|].
  destruct (copied_value_is_source_value true unit bonjour_service
              sample_catalog (Some [str "fr"; str "de"]) tt (str "de") 1
              (str "%lld") hello_entry (proj2 french_and_german_fit) Hin
              eq_refl eq_refl eq_refl (or_introl eq_refl))
    as (sd' & Hl & _ & Hv).
  exists sd'. split; [exact Hl | exact Hv].
Defined.

(** ** Classifier *)

(** A match of a pattern without [$] does not look at what follows
    it. *)
Lemma matches_extend r i s j s' :
  matches r i s j s' -> no_eol r = true ->
  forall t, matches r i (s ++ t) j (s' ++ t).
Proof.
  induction 1 as [s|i s Hs|cs c i s Hc|cs lo hi i w s Hw Hlo Hhi
                  |r i s j s' Hm IH|r i s|r1 r2 i s j s' k s'' H1 IH1 H2 IH2
                  |r1 r2 i s j s' Hm IH|r1 r2 i s j s' Hm IH|i s];
    simpl; intros Hr t.
  - constructor.
  - done.
  - by constructor.
  - rewrite <- app_assoc. by constructor.
  - apply M_opt_some. by apply IH.
  - apply M_opt_none.
  - apply andb_true_iff in Hr as [Hr1 Hr2].
    eapply M_seq; [by apply IH1 | by apply IH2].
  - apply andb_true_iff in Hr as [Hr1 Hr2]. apply M_alt_l. by apply IH.
  - apply andb_true_iff in Hr as [Hr1 Hr2]. apply M_alt_r. by apply IH.
  - constructor.
Qed.

(** A match of a pattern without [^] is a match wherever the text
    stands. *)
Lemma matches_shift r i s j s' :
  matches r i s j s' -> no_bol r = true ->
  forall i2, matches r i2 s (i2 + (j - i)) s'.
Proof.
  induction 1 as [s|i s Hs|cs c i s Hc|cs lo hi i w s Hw Hlo Hhi
                  |r i s j s' Hm IH|r i s|r1 r2 i s j s' k s'' H1 IH1 H2 IH2
                  |r1 r2 i s j s' Hm IH|r1 r2 i s j s' Hm IH|i s];
    simpl; intros Hr i2.
  - done.
  - replace (i2 + (i - i)) with i2 by lia. by constructor.
  - replace (i2 + (S i - i)) with (S i2) by lia. by constructor.
  - replace (i2 + (i + length w - i)) with (i2 + length w) by lia.
    by constructor.
  - apply M_opt_some. by apply IH.
  - replace (i2 + (i - i)) with i2 by lia. apply M_opt_none.
  - apply andb_true_iff in Hr as [Hr1 Hr2].
    destruct (matches_consumes _ _ _ _ _ H1) as (w1 & -> & ->).
    destruct (matches_consumes _ _ _ _ _ H2) as (w2 & -> & ->).
    eapply M_seq; [by apply IH1|].
    specialize (IH2 Hr2 (i2 + (i + length w1 - i))).
    replace (i2 + (i + length w1 + length w2 - i))
      with (i2 + (i + length w1 - i) + (i + length w1 + length w2 -
                                         (i + length w1))) by lia.
    exact IH2.
  - apply andb_true_iff in Hr as [Hr1 Hr2]. apply M_alt_l. by apply IH.
  - apply andb_true_iff in Hr as [Hr1 Hr2]. apply M_alt_r. by apply IH.
  - replace (i2 + (i - i)) with i2 by lia. constructor.
Qed.

Lemma is_pattern_only_spec (key : text) :
  is_pattern_only key = true <->
  exists pattern w rest,
    pattern ∈ COPY_PATTERNS /\ key = w ++ rest /\
    matches pattern 0 key (length w) rest.
Proof.
  unfold is_pattern_only. rewrite existsb_exists. split.
  - intros (r & Hin & Hm). apply re_match_spec in Hm as (w & rest & ? & ?).
    exists r, w, rest. by rewrite list_elem_of_In.
  - intros (r & w & rest & Hin & Heq & Hm). exists r.
    rewrite <- list_elem_of_In. split; [done|].
    apply re_match_spec. by exists w, rest.
Qed.

Lemma is_blank_spec (key : text) :
  is_blank key = true <-> Forall (fun c => isspace c = true) key.
Proof.
  unfold is_blank. rewrite forallb_forall, Forall_forall.
  by setoid_rewrite list_elem_of_In.
Qed.

(** X9: a text that is empty or all whitespace is a pattern. *)
Theorem blank_text_is_pattern (t : text) :
  is_blank t = true -> is_pattern_only t = true.
Proof.
  intros Hb. apply is_pattern_only_spec.
  exists (rseq [RBol; star [CSpace]; REol]), t, [].
  split; [apply list_elem_of_here|]. split; [by rewrite app_nil_r|].
  apply is_blank_spec in Hb. unfold rseq, star. simpl.
  eapply M_seq; [apply M_bol|].
  eapply M_seq.
  - rewrite <- (app_nil_r t) at 1.
    apply (M_rep [CSpace] 0 None 0 t []); [|lia|done].
    eapply Forall_impl; [exact Hb|]. intros c Hc. simpl. by rewrite Hc.
  - simpl. eapply M_seq; [apply M_eol; by left | apply M_eps].
Qed.

Lemma blank_text_is_pattern_witness :
  is_blank [32%N; 9%N; 0xa0%N] = true /\
  is_pattern_only [32%N; 9%N; 0xa0%N] = true.
Proof.
  split; [reflexivity|].
  exact (blank_text_is_pattern [32%N; 9%N; 0xa0%N] eq_refl).
Defined.

(** A recognizer without [$] that matches a text matches every text
    that begins with it. *)
Lemma is_pattern_only_extends (pattern : regex) (key rest : text) :
  pattern ∈ COPY_PATTERNS -> no_eol pattern = true ->
  re_match pattern key = true ->
  is_pattern_only (key ++ rest) = true.
Proof.
  intros Hin Hr Hm. apply re_match_spec in Hm as (w & r & -> & Hm).
  apply is_pattern_only_spec. exists pattern, w, (r ++ rest).
  split; [done|]. split; [by rewrite app_assoc|].
  by apply matches_extend.
Qed.

(** X10: a text that begins with [http://] or [https://] is a pattern,
    whatever follows. *)
Theorem url_prefix_is_pattern (t : text) :
  starts_with (str "http://") t = true \/
  starts_with (str "https://") t = true ->
  is_pattern_only t = true.
Proof.
  assert (Hin : rseq [RBol; lit "http"; ROpt (lit "s"); lit "://"]
                  ∈ COPY_PATTERNS).
  { unfold COPY_PATTERNS. do 7 apply list_elem_of_further.
    apply list_elem_of_here. }
  intros [H|H]; apply starts_with_spec in H as [rest ->];
    by apply (is_pattern_only_extends _ _ _ Hin).
Qed.

Lemma url_prefix_is_pattern_witness :
  starts_with (str "https://") (str "https://cash.app is our site") = true /\
  is_pattern_only (str "https://cash.app is our site") = true.
Proof.
  split; [reflexivity|].
  exact (url_prefix_is_pattern (str "https://cash.app is our site")
           (or_intror eq_refl)).
Defined.

(** [re.search] finds exactly the matches that start somewhere in the
    text. *)
Lemma search_from_spec (r : regex) (s : text) : forall i,
  search_from r i s = true <->
  exists pre s1, s = pre ++ s1 /\ is_Some (match_at r (i + length pre) s1).
Proof.
  induction s as [|c s IH]; intros i.
  - simpl. destruct (match_at r i []) as [j|] eqn:E.
    + split; [|done]. intros _. exists [], []. simpl.
      rewrite Nat.add_0_r, E. by split; [|eexists].
    + split; [done|]. intros (pre & s1 & Heq & Hm).
      symmetry in Heq. apply app_eq_nil in Heq as [-> ->]. simpl in Hm.
      rewrite Nat.add_0_r, E in Hm. by destruct Hm.
  - cbn [search_from]. destruct (match_at r i (c :: s)) as [j|] eqn:E.
    + split; [|done]. intros _. exists [], (c :: s). simpl.
      rewrite Nat.add_0_r, E. by split; [|eexists].
    + rewrite IH. split.
      * intros (pre & s1 & -> & Hm). exists (c :: pre), s1. split; [done|].
        simpl. by replace (i + S (length pre)) with (S i + length pre) by lia.
      * intros (pre & s1 & Heq & Hm). destruct pre as [|c' pre].
        { simpl in *. subst s1. rewrite Nat.add_0_r, E in Hm.
          by destruct Hm. }
        injection Heq as -> ->. exists pre, s1. split; [done|].
        simpl in Hm.
        by replace (S i + length pre) with (i + S (length pre)) by lia.
Qed.

Lemma has_format_specifiers_spec (t : text) :
  has_format_specifiers t = true <->
  exists pattern pre w rest,
    pattern ∈ FORMAT_SPECIFIERS /\ t = pre ++ w ++ rest /\
    matches pattern (length pre) (w ++ rest) (length pre + length w) rest.
Proof.
  unfold has_format_specifiers, re_search.
  rewrite existsb_exists. split.
  - intros (r & Hin & Hs). apply list_elem_of_In in Hin.
    apply search_from_spec in Hs as (pre & s1 & -> & [j Hm]).
    unfold match_at in Hm. apply re_run_sound in Hm as (j' & s' & Hm & _).
    destruct (matches_consumes _ _ _ _ _ Hm) as (w & -> & ->).
    by exists r, pre, w, s'.
  - intros (r & pre & w & rest & Hin & -> & Hm). exists r.
    split; [by apply list_elem_of_In|].
    apply search_from_spec. exists pre, (w ++ rest). split; [done|].
    unfold match_at. by apply (re_run_complete _ _ _ _ _ Hm).
Qed.

Lemma format_specifiers_shape (pattern : regex) :
  pattern ∈ FORMAT_SPECIFIERS ->
  no_bol pattern = true /\ no_eol pattern = true /\
  forall i s j s', matches pattern i s j s' -> exists s0, s = 37%N :: s0.
Proof.
  unfold FORMAT_SPECIFIERS. intros Hin.
  repeat (apply elem_of_cons in Hin as [->|Hin];
          [split; [reflexivity|]; split; [reflexivity|];
           intros i s j s' Hm;
           apply matches_seq_inv in Hm as (j1 & s1 & Hm & _);
           try (apply matches_seq_inv in Hm as (j2 & s2 & Hm & _));
           apply matches_set_inv in Hm as (c & -> & _ & Hc);
           simpl in Hc; rewrite orb_false_r in Hc;
           apply N.eqb_eq in Hc as ->; by eexists|]).
  by apply elem_of_nil in Hin.
Qed.

(** X11: a text with a format specifier holds a percent sign. *)
Theorem format_specifiers_need_percent (t : text) :
  has_format_specifiers t = true -> 37%N ∈ t.
Proof.
  intros H. apply has_format_specifiers_spec in H
    as (r & pre & w & rest & Hin & -> & Hm).
  destruct (format_specifiers_shape r Hin) as (_ & _ & Hp).
  destruct (Hp _ _ _ _ Hm) as [s0 Heq]. rewrite Heq.
  rewrite elem_of_app. right. apply list_elem_of_here.
Qed.

Lemma format_specifiers_need_percent_witness :
  has_format_specifiers (str "You have %d items") = true /\
  37%N ∈ str "You have %d items".
Proof.
  split; [reflexivity|].
  exact (format_specifiers_need_percent (str "You have %d items") eq_refl).
Defined.

(** X12: a text that contains a text with a format specifier has a
    format specifier. *)
Theorem format_specifiers_of_a_part (a t b : text) :
  has_format_specifiers t = true ->
  has_format_specifiers (a ++ t ++ b) = true.
Proof.
  intros H. apply has_format_specifiers_spec in H
    as (r & pre & w & rest & Hin & -> & Hm).
  destruct (format_specifiers_shape r Hin) as (Hbol & Heol & _).
  apply has_format_specifiers_spec.
  exists r, (a ++ pre), w, (rest ++ b). split; [done|].
  split; [by rewrite <- !app_assoc|].
  pose proof (matches_extend _ _ _ _ _ Hm Heol b) as Hm'.
  pose proof (matches_shift _ _ _ _ _ Hm' Hbol (length (a ++ pre))) as Hm2.
  rewrite <- app_assoc in Hm2.
  by replace (length pre + length w - length pre) with (length w) in Hm2
    by lia.
Qed.

Lemma format_specifiers_of_a_part_witness :
  has_format_specifiers (str "%lld") = true /\
  has_format_specifiers (str "Total: " ++ str "%lld" ++ str " items") = true.
Proof.
  split; [reflexivity|].
  exact (format_specifiers_of_a_part (str "Total: ") (str "%lld")
           (str " items") eq_refl).
Defined.

(** ** A batch through a service that changes nothing *)

Lemma restore_of_nothing (placeholders : list (text * text)) :
  Forall (fun p => p.1 <> []) placeholders ->
  _restore_format_specifiers [] placeholders = [].
Proof.
  unfold _restore_format_specifiers.
  induction 1 as [|[p spec] ps Hp _ IH]; [done|].
  simpl in *. by rewrite str_replace_nil.
Qed.

(** What [translate_batch] makes of the protected text of [t] when the
    service gives it back as it is. *)
Lemma protected_text_restored (t : text) :
  markers_free t = true ->
  let protected := (_protect_format_specifiers t).1 in
  let placeholders := (_protect_format_specifiers t).2 in
  match protected, placeholders with
  | [], _ => t = []
  | _ :: _, [] => protected = t
  | _ :: _, _ :: _ => _restore_format_specifiers protected placeholders = t
  end.
Proof.
  intros Hfree. unfold _protect_format_specifiers.
  pose proof (markers_free_spec t Hfree) as Hm.
  assert (Hl : Forall specifier_like (re_findall specifier_pattern t)).
  { apply Forall_forall. intros x Hx. by apply (findall_specifier_like t). }
  destruct (re_findall specifier_pattern t) as [|x l] eqn:E.
  { simpl. by destruct t. }
  destruct (protect_loop_restore t (x :: l) Hl Hm) as [Hsnd Hres].
  cbv zeta.
  destruct (foldl protect_step (t, []) (enumerate (x :: l))) as [p ps].
  cbn [fst snd] in *. destruct p as [|c p].
  - rewrite restore_of_nothing in Hres.
    + subst t. by vm_compute in E.
    + subst ps. apply Forall_forall. intros [q spec] Hin.
      apply placeholders_elem in Hin as (k & _ & ->). simpl.
      apply placeholder_nonempty.
  - subst ps. done.
Qed.

Section EchoedBatch.

Variable Service : Type.
Variable service_translate :
  Service -> text -> list text -> Service * option (list (option text)).

(** X13: with the translation library there, when the service gives
    the protected texts of a batch back as they are, [translate_batch]
    gives back the texts of the batch, specifiers and all, for texts
    that hold no marker. *)
Theorem untouched_batch_comes_back (texts : list text) (lang : text)
    (svc svc' : Service) :
  texts <> [] ->
  Forall (fun t => markers_free t = true) texts ->
  service_translate svc (translator_language lang)
                    (_protect_format_specifiers <$> texts).*1
    = (svc', Some (Some <$> (_protect_format_specifiers <$> texts).*1)) ->
  translate_batch true Service service_translate texts lang svc
    = (Some <$> texts, svc').
Proof.
  intros Hne Hfree Hsvc. unfold translate_batch. simpl.
  rewrite bool_decide_eq_false_2 by done. rewrite Hsvc.
  assert (Hm : mapM (restore_result (_protect_format_specifiers <$> texts).*2)
                    (enumerate (Some <$> (_protect_format_specifiers <$> texts).*1))
               = Some (Some <$> texts)).
  { apply mapM_Some. apply Forall2_same_length_lookup_2.
    { unfold enumerate. by rewrite length_imap, !length_fmap. }
    intros i [i' r] y Hx Hy. unfold enumerate in Hx.
    rewrite list_lookup_imap, !list_lookup_fmap in Hx.
    rewrite list_lookup_fmap in Hy.
    destruct (texts !! i) as [t|] eqn:Et; [|done]. simpl in *.
    injection Hx as <- <-. injection Hy as <-.
    pose proof (protected_text_restored t) as Hr.
    rewrite Forall_forall in Hfree.
    specialize (Hr (Hfree t (list_elem_of_lookup_2 _ _ _ Et))).
    unfold restore_result. rewrite !list_lookup_fmap, Et. simpl in *.
    destruct (_protect_format_specifiers t) as [[|c p] [|q ps]];
      simpl in *; by subst. }
  by rewrite Hm.
Qed.

End EchoedBatch.

Lemma untouched_batch_comes_back_witness :
  [str "Hello %@, you have %d new messages"; str "Bye"] <> [] /\
  Forall (fun t => markers_free t = true)
         [str "Hello %@, you have %d new messages"; str "Bye"] /\
  translate_batch true unit echo_service
    [str "Hello %@, you have %d new messages"; str "Bye"] (str "fr") tt
  = ([Some (str "Hello %@, you have %d new messages"); Some (str "Bye")], tt).
Proof.
  assert (Hne : [str "Hello %@, you have %d new messages"; str "Bye"] <> [])
    by discriminate.
  assert (Hfree : Forall (fun t => markers_free t = true)
            [str "Hello %@, you have %d new messages"; str "Bye"]).
  { repeat constructor. }
  split; [exact Hne|]. split; [exact Hfree|].
  exact (untouched_batch_comes_back unit echo_service _ (str "fr") tt tt
           Hne Hfree eq_refl).
Defined.

(** ** Translator cache *)

Lemma translator_language_twice (lang : text) :
  translator_language (translator_language lang) = translator_language lang.
Proof.
  destruct (decide (lang = str "pt-PT")) as [->|Hne]; [reflexivity|].
  unfold translator_language.
  rewrite (bool_decide_eq_false_2 (lang = str "pt-PT")) by done.
  by rewrite (bool_decide_eq_false_2 (lang = str "pt-PT")).
Qed.

Section TranslatorCache.

Variable Translator : Type.
Variable GoogleTranslator : text -> text -> option Translator.

#[local] Abbreviation _get_translator :=
  (_get_translator Translator GoogleTranslator).

(** X14: a call of [_get_translator] that returns a translator leaves
    it in the cache under the destination language, so that the same
    call again, with the language or with its destination, returns the
    same translator and leaves the cache as it is; the call replaces and
    removes nothing, and adds nothing under another language. *)
Theorem translator_is_made_once (translators translators' : gmap text Translator)
    (lang : text) (translator : Translator) :
  _get_translator translators lang = (translators', Some translator) ->
  translators' !! translator_language lang = Some translator /\
  _get_translator translators' lang = (translators', Some translator) /\
  _get_translator translators' (translator_language lang)
    = (translators', Some translator) /\
  translators ⊆ translators' /\
  (forall dest, dest <> translator_language lang ->
     translators' !! dest = translators !! dest).
Proof.
  unfold _get_translator. rewrite translator_language_twice.
  destruct (translators !! translator_language lang) as [t|] eqn:E.
  - intros [= <- <-]. by rewrite E.
  - destruct (GoogleTranslator (str "en") (translator_language lang))
      as [t|]; [|done].
    intros [= <- <-]. rewrite lookup_insert_eq. split_and!; try done.
    + by apply insert_subseteq.
    + intros dest Hne. by rewrite lookup_insert_ne.
Qed.

End TranslatorCache.

Lemma translator_is_made_once_witness :
  _get_translator text two_language_translator ∅ (str "fr")
    = ({[ str "fr" := str "fr" ]}, Some (str "fr")) /\
  _get_translator text two_language_translator {[ str "fr" := str "fr" ]}
                  (str "fr")
    = ({[ str "fr" := str "fr" ]}, Some (str "fr")).
Proof.
  assert (H : _get_translator text two_language_translator ∅ (str "fr")
              = ({[ str "fr" := str "fr" ]}, Some (str "fr")))
    by reflexivity.
  split; [exact H|].
  exact (proj1 (proj2 (translator_is_made_once text two_language_translator
                         _ _ _ _ H))).
Defined.

(** ** Catalog store: the source value *)

(** X15: the source value of a key is the value applied for the source
    language, whatever the entry held before; a value applied for
    another language leaves it as it was; and it is the key itself for
    an entry without localizations. *)
Theorem source_value_is_what_was_applied (k : text) (sd : StringData)
    (lang value : text) :
  get_source_value k (_apply_translation sd SOURCE_LANGUAGE value) = value /\
  (lang <> SOURCE_LANGUAGE ->
   get_source_value k (_apply_translation sd lang value) =
   get_source_value k sd) /\
  (localizations sd = None -> get_source_value k sd = k) /\
  get_source_value k sd = default k (stored_value sd SOURCE_LANGUAGE).
Proof.
  unfold get_source_value, stored_value. split_and!.
  - by rewrite localizations_of_apply, lookup_insert_eq.
  - intros Hne. by rewrite localizations_of_apply, lookup_insert_ne.
  - intros Hnone. unfold localizations_of. by rewrite Hnone.
  - destruct (localizations_of sd !! SOURCE_LANGUAGE) as [en_data|]; [|done].
    by destruct (stringUnit en_data).
Qed.

(** ** Processing summary *)

Lemma summary_loop (items : list (text * LocalizationStats)) :
  forall tp tt te n,
    Forall (fun item => accounted item.2) items ->
    tp = n -> tt <= tp -> te <= tp ->
    let '(tp', tt', te') := foldl summary_step (tp, tt, te) items in
    tp' = foldl (fun n item => n + missing item.2) n items /\
    tt' <= tp' /\ te' <= tp'.
Proof.
  induction items as [|[lang stat] items IH]; intros tp tt te n Hall Hn Ht He.
  { by simpl. }
  apply Forall_cons in Hall as [[Hs Herr] Hall]. simpl in Hs, Herr.
  rewrite !foldl_step. unfold summary_step at 2. cbn [snd].
  apply IH; [done|lia..].
Qed.

Section SummaryOfARun.

Variable TRANSLATOR_AVAILABLE : bool.
Variable Service : Type.
Variable service_translate :
  Service -> text -> list text -> Service * option (list (option text)).

#[local] Abbreviation process_missing_translations :=
  (process_missing_translations TRANSLATOR_AVAILABLE Service
                                service_translate).
#[local] Abbreviation answers_every_text :=
  (answers_every_text Service service_translate).

Lemma run_is_accounted (data : Data) (languages : option (list text))
    (dry_run : bool) (svc : Service) (lang : text) (st : LocalizationStats) :
  answers_every_text ->
  (process_missing_translations data languages dry_run svc).1.1 !! lang
    = Some st ->
  accounted st.
Proof.
  intros Hc. destruct (data_is_empty data) eqn:Hne.
  { unfold process_missing_translations. rewrite Hne. simpl.
    by rewrite lookup_empty. }
  rewrite process_stats_eq by done.
  apply (language_loop_stats TRANSLATOR_AVAILABLE Service service_translate
           accounted).
  - intros l st0 entries svc0 [H1 H2].
    pose proof (language_outcome_counts TRANSLATOR_AVAILABLE Service
                  service_translate l st0 entries svc0 Hc) as (Hm & Hs & He).
    unfold accounted. simpl in *. lia.
  - intros l st0 H. apply initial_stats_lookup in H as ->.
    unfold accounted. simpl. lia.
Qed.

(** X16: of the totals of the processing summary of a run with a
    service that answers every text, [total_processed] is the number of
    strings the run found missing, all languages together, and
    [total_translated] and [total_errors] are not above it. *)
Theorem summary_totals_of_a_run (data : Data)
    (languages : option (list text)) (dry_run : bool) (svc : Service) :
  answers_every_text ->
  let stats := (process_missing_translations data languages dry_run svc).1.1 in
  (summary_totals stats).1.1 = total_missing stats /\
  (summary_totals stats).1.2 <= (summary_totals stats).1.1 /\
  (summary_totals stats).2 <= (summary_totals stats).1.1.
Proof.
  intros Hc stats. unfold summary_totals, total_missing.
  pose proof (summary_loop (map_to_list stats) 0 0 0 0) as H.
  destruct (foldl summary_step (0, 0, 0) (map_to_list stats)) as [[tp tt] te].
  simpl. apply H; try lia.
  apply Forall_forall. intros [lang st] Hin.
  apply elem_of_map_to_list in Hin. simpl.
  by apply (run_is_accounted data languages dry_run svc lang).
Qed.

End SummaryOfARun.

Lemma summary_totals_of_a_run_witness :
  answers_every_text unit bonjour_service /\
  summary_totals
    (process_missing_translations true unit bonjour_service sample_catalog
       (Some [str "fr"; str "de"]) false tt).1.1 = (5, 3, 0) /\
  total_missing
    (process_missing_translations true unit bonjour_service sample_catalog
       (Some [str "fr"; str "de"]) false tt).1.1 = 5.
Proof.
  split; [exact bonjour_answers_every_text|].
  split; [vm_compute; reflexivity|].
  rewrite <- (proj1 (summary_totals_of_a_run true unit bonjour_service
                       sample_catalog (Some [str "fr"; str "de"]) false tt
                       bonjour_answers_every_text)).
  vm_compute. reflexivity.
Defined.

(** ** Export of the missing keys *)

(** A loop over the items of a dictionary that fills another one. *)
Lemma items_loop_lookup {A B} (f : A -> option B) (m : gmap text A)
    (k : list (text * B)) :
  mapM (fun '(l, a) => pair l <$> f a) (map_to_list m) = Some k ->
  forall l, (list_to_map k : gmap text B) !! l = m !! l ≫= f.
Proof.
  intros Hm. apply mapM_Some in Hm.
  assert (Hfst : k.*1 = (map_to_list m).*1).
  { clear -Hm. induction Hm as [|[l a] [l' b] xs ys Hxy _ IH]; [done|].
    rewrite !fmap_cons, IH. f_equal.
    destruct (f a); simpl in Hxy; by simplify_eq. }
  assert (Hnd : NoDup k.*1).
  { rewrite Hfst. apply NoDup_fst_map_to_list. }
  intros l. destruct (m !! l) as [a|] eqn:E; simpl.
  - apply elem_of_map_to_list in E.
    apply list_elem_of_lookup_1 in E as [i Hi].
    destruct (Forall2_lookup_l _ _ _ _ _ Hm Hi) as ([l' b] & Hk & Hf).
    destruct (f a) as [b'|]; simpl in Hf; [|done]. injection Hf as <- <-.
    apply elem_of_list_to_map_1; [done|]. by eapply list_elem_of_lookup_2.
  - apply not_elem_of_list_to_map_1. rewrite Hfst.
    intros Hin. apply list_elem_of_fmap in Hin as ([l' a] & -> & Hin).
    apply elem_of_map_to_list in Hin. simpl in E. congruence.
Qed.

Lemma strings_get_entry (data : Data) (entries : list (text * StringData))
    (k : text) (sd : StringData) :
  strings data = Some entries -> NoDup entries.*1 -> (k, sd) ∈ entries ->
  strings_get data k = Some sd.
Proof.
  intros Hs Hnd Hin. unfold strings_get. rewrite Hs. simpl. f_equal.
  destruct (list_find (fun e : text * StringData => e.1 = k) entries)
    as [[i [k' sd']]|] eqn:E.
  - apply list_find_Some in E as (Hi & Hk & _). simpl in *. subst k'.
    apply list_elem_of_lookup_1 in Hin as [j Hj].
    assert (i = j); [|by simplify_eq].
    eapply NoDup_lookup; [exact Hnd| |];
      rewrite list_lookup_fmap; [by rewrite Hi | by rewrite Hj].
  - apply list_find_None in E. rewrite Forall_forall in E.
    by destruct (E _ Hin).
Qed.

(** The tasks of a language say of every missing key what its entry
    says. *)
Lemma exported_tasks (lang : text) (st : LocalizationStats)
    (entries : list (text * StringData)) :
  exported_task <$> tasks_of lang st entries =
  (fun e : text * StringData =>
     {| missing_key := e.1;
        missing_source_value := get_source_value e.1 e.2;
        missing_is_pattern := is_pattern_only (get_source_value e.1 e.2);
        missing_has_format_specifiers :=
          has_format_specifiers (get_source_value e.1 e.2) |})
    <$> missing_entries lang entries.
Proof.
  rewrite tasks_of_eq.
  induction entries as [|[k sd] entries IH] using rev_ind; [done|].
  rewrite enumerate_snoc, omap_app, fmap_app, IH.
  unfold missing_entries. rewrite filter_app, fmap_app. f_equal.
  rewrite filter_cons, filter_nil. simpl.
  destruct (is_blank k) eqn:Eb;
    [by rewrite decide_False by (by intros [? ?])|].
  destruct (is_translated sd lang) eqn:Et;
    [by rewrite decide_False by (by intros [? ?])|].
  by rewrite decide_True.
Qed.

Lemma export_is_Some (data : Data) (languages : option (list text)) :
  is_Some (export_missing_keys data languages).
Proof.
  unfold export_missing_keys. apply fmap_is_Some, mapM_is_Some.
  apply Forall_forall. intros [lang stat] Hin. simpl.
  apply fmap_is_Some. apply elem_of_map_to_list in Hin.
  unfold export_language.
  assert (Hkeys : is_Some (mapM (export_key data) (missing_keys stat))).
  { destruct (strings data) as [entries|] eqn:Es.
    - apply mapM_is_Some, Forall_forall. intros k _. simpl.
      unfold export_key, strings_get. rewrite Es. simpl. by eexists.
    - destruct (data_is_empty data) eqn:Hne.
      { unfold analyze in Hin. rewrite Hne in Hin.
        by rewrite lookup_empty in Hin. }
      rewrite analyze_lookup in Hin by done. case_decide; [|done].
      injection Hin as <-. rewrite Es. simpl. by eexists. }
  destruct Hkeys as [keys ->]. simpl. by eexists.
Qed.

(** X17: [export_missing_keys] never fails on the lookup of
    ["strings"]: it gets to write its data whatever the document and the
    request are; it writes an empty object for an empty document, and
    an object for the requested languages and no other for a loaded
    one. *)
Theorem export_always_writes (data : Data) (languages : option (list text)) :
  is_Some (export_missing_keys data languages) /\
  (data_is_empty data = true ->
   export_missing_keys data languages = Some ∅) /\
  (data_is_empty data = false ->
   forall exported lang,
     export_missing_keys data languages = Some exported ->
     (is_Some (exported !! lang) <-> lang ∈ target_langs languages)).
Proof.
  split; [apply export_is_Some|]. split.
  - intros He. unfold export_missing_keys, analyze. rewrite He.
    by rewrite map_to_list_empty.
  - intros Hne exported lang Hex. unfold export_missing_keys in Hex.
    apply fmap_Some in Hex as (k & Hk & ->).
    rewrite (items_loop_lookup (export_language data) _ _ Hk lang).
    rewrite analyze_lookup by done. case_decide as Hin.
    + split; [done|]. intros _. simpl.
      assert (Hin' : (lang, tally (times_requested lang (target_langs languages))
                             lang (default [] (strings data)) (new_stats lang))
                     ∈ map_to_list (analyze data languages)).
      { apply elem_of_map_to_list. rewrite analyze_lookup by done.
        by rewrite decide_True. }
      apply mapM_Some in Hk.
      apply list_elem_of_lookup_1 in Hin' as [i Hi].
      destruct (Forall2_lookup_l _ _ _ _ _ Hk Hi) as (y & _ & Hy).
      destruct (export_language data _); [by eexists|done].
    + simpl. split; [by intros [? ?]|done].
Qed.

(** X18: for a loaded catalog with no key twice and a request with no
    language twice, the export lists for every requested language the
    tasks a run would collect for it: the same keys in the same order,
    each with the source value and the two flags of its task; its
    counters are those of the analysis, and ["missing"] is the length of
    the list. *)
Theorem export_lists_the_tasks (data : Data)
    (languages : option (list text)) (lang : text) :
  data_is_empty data = false ->
  NoDup (default [] (strings data)).*1 ->
  NoDup (target_langs languages) ->
  lang ∈ target_langs languages ->
  exists exported e,
    export_missing_keys data languages = Some exported /\
    exported !! lang = Some e /\
    export_missing_keys_list e =
      exported_task <$>
        (collect_tasks lang (new_stats lang) (default [] (strings data))).2 /\
    export_missing e = length (export_missing_keys_list e) /\
    export_total e = export_translated e + export_missing e.
Proof.
  intros Hne Hkeys Hlangs Hin.
  destruct (export_is_Some data languages) as [exported Hex].
  exists exported. unfold export_missing_keys in Hex.
  apply fmap_Some in Hex as (k & Hk & ->).
  pose proof (items_loop_lookup (export_language data) _ _ Hk lang) as Hl.
  rewrite analyze_lookup in Hl by done. rewrite decide_True in Hl by done.
  rewrite times_requested_NoDup in Hl by done. simpl in Hl.
  unfold export_language in Hl.
  cbn [missing_keys tally new_stats app] in Hl.
  rewrite concat_replicate_1 in Hl.
  set (entries := default [] (strings data)) in *.
  assert (Hm : mapM (export_key data) (missing_entries lang entries).*1 =
               Some (exported_task <$> tasks_of lang (new_stats lang) entries)).
  { rewrite exported_tasks. apply mapM_Some, Forall2_fmap.
    apply Forall_Forall2_diag, Forall_forall. intros [key sd] He.
    apply list_elem_of_filter in He as [_ He]. simpl.
    unfold export_key. destruct (strings data) as [es|] eqn:Es.
    - rewrite (strings_get_entry data es key sd); done.
    - by apply elem_of_nil in He. }
  rewrite Hm in Hl. simpl in Hl.
  eexists. split; [|split; [exact Hl|]].
  - unfold export_missing_keys. by rewrite Hk.
  - simpl. split; [done|]. rewrite length_fmap.
    pose proof (collect_tasks_spec lang (new_stats lang) entries)
      as (_ & _ & _ & _ & Hlen & _).
    unfold tasks_of. simpl in Hlen. rewrite Hlen.
    pose proof (counted_entries_split lang entries). lia.
Qed.

Lemma export_lists_the_tasks_witness :
  data_is_empty sample_catalog = false /\
  NoDup (default [] (strings sample_catalog)).*1 /\
  NoDup (target_langs (Some [str "fr"; str "de"])) /\
  str "fr" ∈ target_langs (Some [str "fr"; str "de"]) /\
  exists exported e,
    export_missing_keys sample_catalog (Some [str "fr"; str "de"])
      = Some exported /\
    exported !! str "fr" = Some e /\
    export_missing_keys_list e =
      [ {| missing_key := str "Hello"; missing_source_value := str "Hello";
           missing_is_pattern := false;
           missing_has_format_specifiers := false |};
        {| missing_key := str "%lld"; missing_source_value := str "%lld";
           missing_is_pattern := true;
           missing_has_format_specifiers := true |} ].
Proof.
  assert (Hkeys : NoDup (default [] (strings sample_catalog)).*1).
  { apply (bool_decide_unpack _). vm_compute. exact I. }
  assert (Hin : str "fr" ∈ target_langs (Some [str "fr"; str "de"])).
  { apply list_elem_of_here. }
  split; [reflexivity|]. split; [exact Hkeys|].
  split; [exact (proj1 french_and_german_fit)|]. split; [exact Hin|].
  destruct (export_lists_the_tasks sample_catalog
              (Some [str "fr"; str "de"]) (str "fr") eq_refl Hkeys
              (proj1 french_and_german_fit) Hin)
    as (exported & e & Hex & He & Hlist & _).
  exists exported, e. split; [exact Hex|]. split; [exact He|].
  rewrite Hlist. vm_compute. reflexivity.
Defined.

(** ** Command line *)

Section MainProperties.

Variable TRANSLATOR_AVAILABLE : bool.
Variable Service : Type.
Variable service_translate :
  Service -> text -> list text -> Service * option (list (option text)).
Variable now : text.
Variable possible_paths : list text.
Variable path_exists : text -> bool.
Variable load : text -> option Data.

#[local] Abbreviation process_missing_translations :=
  (process_missing_translations TRANSLATOR_AVAILABLE Service
                                service_translate).
#[local] Abbreviation run_actions :=
  (run_actions TRANSLATOR_AVAILABLE Service service_translate).
#[local] Abbreviation xcstrings_path_of :=
  (xcstrings_path_of possible_paths path_exists).
#[local] Abbreviation log_file_of := (log_file_of now).
#[local] Abbreviation main :=
  (main TRANSLATOR_AVAILABLE Service service_translate now possible_paths
        path_exists load).

(** [main] on a catalog that is found and loaded. *)
Lemma main_loaded (args : Args) (svc : Service) (path : text) (data : Data) :
  xcstrings_path_of args = Some path -> truthy (Some path) = true ->
  load path = Some data ->
  main args svc =
  (SetupLogging (setup_logging (log_file_of args) (arg_verbose args))
     :: (run_actions args path data svc).1.1,
   (run_actions args path data svc).1.2,
   (run_actions args path data svc).2).
Proof.
  intros Hp Ht Hl. unfold main. rewrite Hp.
  destruct path as [|c p]; [done|]. rewrite Hl.
  by destruct (run_actions _ _ _ _) as [[? ?] ?].
Qed.

(** [main] leaves with status 1 before it does anything else when no
    catalog is found or loaded. *)
Lemma main_not_loaded (args : Args) (svc : Service) :
  (forall path data,
     xcstrings_path_of args = Some path -> truthy (Some path) = true ->
     load path = Some data -> False) ->
  main args svc =
  ([SetupLogging (setup_logging (log_file_of args) (arg_verbose args))],
   Exited 1, svc).
Proof.
  intros Hno. unfold main.
  destruct (xcstrings_path_of args) as [[|c p]|] eqn:Hp; try done.
  destruct (load (c :: p)) as [data|] eqn:Hl; [|done].
  by destruct (Hno (c :: p) data).
Qed.

Lemma run_actions_save (args : Args) (path : text) (loaded : Data)
    (svc : Service) (saved_path : text) (data : Data) :
  Save saved_path data ∈ (run_actions args path loaded svc).1.1 ->
  saved_path = path /\
  arg_translate args = true /\ arg_dry_run args = false /\
  TRANSLATOR_AVAILABLE = true /\
  data = (process_missing_translations loaded (languages_of args) false
                                       svc).1.2 /\
  (run_actions args path loaded svc).1.2 = Returned.
Proof.
  clear now possible_paths path_exists load. unfold run_actions.
  set (analysis := if arg_analyze args then _ else _).
  assert (Ha : Save saved_path data ∉ analysis).
  { unfold analysis. destruct (arg_analyze args).
    - rewrite list_elem_of_singleton. discriminate.
    - apply not_elem_of_nil. }
  destruct (if truthy (arg_export args) then _ else _) as [exported|] eqn:Ex;
    [|done].
  assert (He : Save saved_path data ∉ exported).
  { destruct (truthy (arg_export args)).
    - apply fmap_Some in Ex as (d & _ & ->).
      rewrite list_elem_of_singleton. discriminate.
    - injection Ex as <-. apply not_elem_of_nil. }
  set (help := if negb (arg_analyze args || _ || _) then _ else _).
  assert (Hh : Save saved_path data ∉ help).
  { unfold help. destruct (negb (arg_analyze args || _ || _)).
    - rewrite list_elem_of_singleton. discriminate.
    - apply not_elem_of_nil. }
  destruct (arg_translate args).
  2:{ simpl. rewrite !elem_of_app. tauto. }
  destruct (negb TRANSLATOR_AVAILABLE) eqn:Ea.
  { simpl. rewrite !elem_of_app. tauto. }
  apply negb_false_iff in Ea.
  destruct (process_missing_translations loaded (languages_of args)
              (arg_dry_run args) svc) as [[stats data'] svc'] eqn:Ep.
  destruct (arg_dry_run args) eqn:Ed; simpl.
  { rewrite !elem_of_app, !elem_of_cons.
    intros H. decompose [or] H; done. }
  rewrite !elem_of_app, !elem_of_cons.
  intros H. decompose [or] H; try done.
  match goal with E : Save _ _ = Save _ _ |- _ => injection E as -> -> end.
  by rewrite Ep.
Qed.

(** X19: [main] saves the catalog only in a translation that is not a
    dry run, with the translation library there; it saves to the path
    the catalog was loaded from, and what it saves is the catalog as
    [process_missing_translations] left it; with [--dry-run] it never
    saves. *)
Theorem only_a_real_translation_saves (args : Args) (svc : Service)
    (path : text) (data : Data) :
  Save path data ∈ (main args svc).1.1 ->
  arg_translate args = true /\ arg_dry_run args = false /\
  TRANSLATOR_AVAILABLE = true /\
  xcstrings_path_of args = Some path /\
  (exists loaded,
     load path = Some loaded /\
     data = (process_missing_translations loaded (languages_of args) false
                                          svc).1.2) /\
  (main args svc).1.2 = Returned.
Proof.
  destruct (xcstrings_path_of args) as [p|] eqn:Hp.
  2:{ rewrite main_not_loaded; [|intros ? ? ?; congruence]. simpl.
      rewrite list_elem_of_singleton. discriminate. }
  destruct (truthy (Some p)) eqn:Ht.
  2:{ rewrite main_not_loaded.
      - simpl. rewrite list_elem_of_singleton. discriminate.
      - intros ? ? ? ? ?. congruence. }
  destruct (load p) as [loaded|] eqn:Hl.
  2:{ rewrite main_not_loaded.
      - simpl. rewrite list_elem_of_singleton. discriminate.
      - intros ? ? ? ? ?. congruence. }
  rewrite (main_loaded args svc p loaded) by done. simpl.
  rewrite elem_of_cons. intros [?|Hin]; [done|].
  apply run_actions_save in Hin as (-> & H1 & H2 & H3 & H4 & H5).
  split_and!; try done. by exists loaded.
Qed.



End MainProperties.

Lemma only_a_real_translation_saves_witness :
  Save (str "Localizable.xcstrings")
       (process_missing_translations true unit bonjour_service
          sample_catalog (Some [str "fr"]) false tt).1.2
    ∈ (sample_main translate_to_french).1.1 /\
  arg_translate translate_to_french = true /\
  arg_dry_run translate_to_french = false /\
  (sample_main translate_to_french).1.2 = Returned.
Proof.
  assert (H : Save (str "Localizable.xcstrings")
                (process_missing_translations true unit bonjour_service
                   sample_catalog (Some [str "fr"]) false tt).1.2
              ∈ (sample_main translate_to_french).1.1).
  { vm_compute. do 2 apply list_elem_of_further. apply list_elem_of_here. }
  split; [exact H|].
  pose proof (only_a_real_translation_saves true unit bonjour_service
                (str "20241224_180000") [str "Localizable.xcstrings"]
                (fun _ => true) (fun _ => Some sample_catalog)
                translate_to_french tt _ _ H) as (H1 & H2 & _ & _ & _ & H3).
  split; [exact H1|]. split; [exact H2 | exact H3].
Defined.

(** ** The batches of a translation *)

Lemma batches_fuel_spec (n : nat) : 0 < n ->
  forall fuel (l : list text),
    length l <= fuel ->
    length (batches_fuel fuel n l) = (length l + n - 1) / n /\
    Forall (fun b => 0 < length b <= n) (batches_fuel fuel n l) /\
    (forall i b, batches_fuel fuel n l !! i = Some b ->
                 S i < length (batches_fuel fuel n l) -> length b = n).
Proof.
  intros Hn. induction fuel as [|fuel IH]; intros l Hl.
  { destruct l; [|simpl in Hl; lia]. simpl. split_and!.
    - symmetry. apply Nat.div_small. lia.
    - constructor.
    - intros i b H. by rewrite lookup_nil in H. }
  destruct l as [|x l].
  { simpl. split_and!.
    - symmetry. apply Nat.div_small. lia.
    - constructor.
    - intros i b H. by rewrite lookup_nil in H. }
  cbn [batches_fuel].
  destruct (IH (drop n (x :: l))) as (Hlen & Hall & Hfull).
  { rewrite length_drop. simpl in *. lia. }
  set (rest := batches_fuel fuel n (drop n (x :: l))) in *.
  rewrite length_drop in Hlen.
  assert (Htake : length (take n (x :: l)) = Nat.min n (length (x :: l)))
    by apply length_take.
  split_and!.
  - cbn [length]. rewrite Hlen.
    destruct (decide (length (x :: l) <= n)) as [Hle|Hgt].
    + replace (length (x :: l) - n + n - 1) with (n - 1) by lia.
      rewrite (Nat.div_small (n - 1)) by lia.
      cbn [length] in Hle.
      apply (Nat.div_unique _ _ 1 (length l)); [lia|]. rewrite Nat.mul_1_r. lia.
    + cbn [length] in *.
      replace (S (length l) - n + n - 1) with (length l) by lia.
      pose proof (Nat.div_mod (length l) n ltac:(lia)) as Hdm.
      pose proof (Nat.mod_upper_bound (length l) n ltac:(lia)) as Hub.
      apply (Nat.div_unique _ _ _ (length l mod n)); [lia|].
      simpl. lia.
  - constructor; [|done]. rewrite Htake. simpl. lia.
  - intros [|i] b Hb Hi.
    + simpl in Hb. injection Hb as <-. rewrite Htake.
      cbn [length] in Hi.
      destruct (decide (length (x :: l) <= n)) as [Hle|Hgt]; [|lia].
      exfalso.
      replace (length (x :: l) - n + n - 1) with (n - 1) in Hlen by lia.
      rewrite (Nat.div_small (n - 1)) in Hlen by lia. lia.
    + simpl in Hb. apply (Hfull i b Hb). cbn [length] in Hi. lia.
Qed.

(** X22: the texts to translate are cut into the number of batches the
    run announces; the batches are, in order, the texts themselves;
    none is empty or longer than BATCH_SIZE, and all but the last have
    BATCH_SIZE texts. *)
Theorem batches_are_as_announced (texts : list text) :
  length (batches BATCH_SIZE texts) = total_batches texts /\
  concat (batches BATCH_SIZE texts) = texts /\
  Forall (fun b => 0 < length b <= BATCH_SIZE) (batches BATCH_SIZE texts) /\
  (forall i b, batches BATCH_SIZE texts !! i = Some b ->
               S i < length (batches BATCH_SIZE texts) ->
               length b = BATCH_SIZE).
Proof.
  assert (Hn : 0 < BATCH_SIZE) by (unfold BATCH_SIZE; lia).
  destruct (batches_fuel_spec BATCH_SIZE Hn (length texts) texts)
    as (H1 & H2 & H3); [done|].
  split_and!; try done. by apply batches_concat.
Qed.

(** ** Specifier codec: what the protection records *)

Lemma protect_loop_placeholders (t : text) (l : list text) :
  (foldl protect_step (t, []) (enumerate l)).2 =
  imap (fun i s => (placeholder_of i, s)) l.
Proof.
  induction l as [|x l IH] using rev_ind; [done|].
  rewrite enumerate_snoc, foldl_snoc.
  destruct (foldl protect_step (t, []) (enumerate l)) as [tn pls].
  simpl in *. subst pls. rewrite imap_app. simpl. by rewrite Nat.add_0_r.
Qed.

Lemma protect_placeholders (t : text) :
  (_protect_format_specifiers t).2 =
  imap (fun i s => (placeholder_of i, s)) (re_findall specifier_pattern t).
Proof.
  unfold _protect_format_specifiers.
  destruct (re_findall specifier_pattern t) as [|x l] eqn:E; [done|].
  apply protect_loop_placeholders.
Qed.

Lemma findall_from_contained (r : regex) (s : text) :
  forall i skip x, x ∈ findall_from r i s skip -> str_contains x s = true.
Proof.
  intros i skip x Hin.
  apply findall_from_elem in Hin as (i' & pre & s1 & j & -> & _ & ->).
  apply str_contains_spec. exists pre, (drop (j - i') s1).
  by rewrite take_drop.
Qed.

(** X23: the placeholder list of a protection pairs the markers
    numbered from 0 with the specifiers found, in the order found; every
    recorded specifier starts with a percent sign, holds no marker
    bracket and is a piece of the text; no marker comes twice. *)
Theorem protection_records_what_it_finds (t : text) :
  (_protect_format_specifiers t).2 =
    imap (fun i s => (placeholder_of i, s))
         (re_findall specifier_pattern t) /\
  (forall i p s,
     (_protect_format_specifiers t).2 !! i = Some (p, s) ->
     p = placeholder_of i /\ head s = Some 37%N /\ (MARKER_OPEN ∉ s) /\
     str_contains s t = true) /\
  NoDup (_protect_format_specifiers t).2.*1.
Proof.
  rewrite protect_placeholders. split; [done|]. split.
  - intros i p s Hi. rewrite list_lookup_imap in Hi.
    destruct (re_findall specifier_pattern t !! i) as [x|] eqn:E; [|done].
    simpl in Hi. injection Hi as <- <-.
    apply list_elem_of_lookup_2 in E.
    destruct (findall_specifier_like t x E) as [Hh Ho].
    split_and!; try done.
    by apply (findall_from_contained specifier_pattern t 0 0).
  - apply NoDup_alt. intros i j p Hi Hj.
    rewrite list_lookup_fmap, list_lookup_imap in Hi, Hj.
    destruct (re_findall specifier_pattern t !! i); [|done].
    destruct (re_findall specifier_pattern t !! j); [|done].
    change (Some (placeholder_of i) = Some p) in Hi.
    change (Some (placeholder_of j) = Some p) in Hj.
    assert (Heq : placeholder_of i = placeholder_of j) by congruence.
    destruct (decide (i = j)) as [|Hne]; [done|]. exfalso.
    pose proof (placeholder_distinct i j [] Hne) as H.
    rewrite <- Heq in H. by rewrite starts_with_app in H.
Qed.

(** X24: a text that holds no marker bracket is left as it is by the
    restoration, whatever text the placeholders were made for: the
    specifiers of a translation that lost its markers are not put
    back. *)
Theorem restore_needs_the_markers (r t : text) :
  MARKER_OPEN ∉ r ->
  _restore_format_specifiers r (_protect_format_specifiers t).2 = r.
Proof.
  intros Hr. rewrite protect_placeholders.
  generalize (re_findall specifier_pattern t). intros l.
  unfold _restore_format_specifiers.
  assert (H : forall ps : list (text * text),
            Forall (fun p => exists k, p.1 = placeholder_of k) ps ->
            foldl (fun result '(placeholder, spec) =>
                     str_replace placeholder spec None result) r ps = r).
  { induction 1 as [|[p spec] ps [k Hp] _ IH]; [done|]. simpl in *.
    subst p. rewrite str_replace_absent; [done|apply placeholder_nonempty|].
    destruct (str_contains (placeholder_of k) r) eqn:E; [|done].
    apply str_contains_spec in E as (u & v & ->). exfalso. apply Hr.
    rewrite elem_of_app. right. unfold placeholder_of. simpl.
    apply list_elem_of_here. }
  apply H. apply Forall_forall. intros [p spec] Hin.
  apply placeholders_elem in Hin as (k & _ & ->). by exists k.
Qed.

Lemma restore_needs_the_markers_witness :
  (MARKER_OPEN ∉ str "Vous avez des messages") /\
  _restore_format_specifiers (str "Vous avez des messages")
    (_protect_format_specifiers (str "You have %d messages")).2
  = str "Vous avez des messages".
Proof.
  assert (H : MARKER_OPEN ∉ str "Vous avez des messages").
  { apply (bool_decide_unpack _). vm_compute. exact I. }
  split; [exact H|].
  exact (restore_needs_the_markers _ (str "You have %d messages") H).
Defined.

(** ** A service that does not keep its contract *)

Section AnyService.

Variable TRANSLATOR_AVAILABLE : bool.
Variable Service : Type.
Variable service_translate :
  Service -> text -> list text -> Service * option (list (option text)).

#[local] Abbreviation process_missing_translations :=
  (process_missing_translations TRANSLATOR_AVAILABLE Service
                                service_translate).
#[local] Abbreviation merged_of :=
  (merged_of TRANSLATOR_AVAILABLE Service service_translate).
#[local] Abbreviation language_outcome :=
  (language_outcome TRANSLATOR_AVAILABLE Service service_translate).



End AnyService.

